(** * ZenFS: zones, the zone allocator, zone files and the GC worker

    A shallow embedding of [fs/zbd_zenfs.cc] and [fs/io_zenfs.cc].

    Objects that the C++ code reaches through pointers ([Zone*],
    [ZoneExtent*]) live in stores inside [World]; a pointer is an index
    into its store, so that two holders of the same pointer see the same
    object.  Fixed-width integers are [Z] with the wrap-around written
    out.  The contents of the device are not part of the model: what a
    system call returns is read from a script of replies carried by the
    [World]. *)

From Stdlib Require Import ZArith Lia List Bool String Sorted Permutation.
From stdpp Require Import base list gmap.
From coqutil Require Import Byte Word.LittleEndianList.
Import ListNotations.
Local Open Scope Z_scope.

(** ** Machine integers *)

Definition u32 (x : Z) : Z := x mod 2 ^ 32.
Definition u64 (x : Z) : Z := x mod 2 ^ 64.

(** ** Status codes

    Only the kind of a [Status] / [IOStatus] is kept, the message is
    dropped. *)

Inductive IOStatus : Type :=
| OK
| NoSpace
| IOError
| InvalidArgument
| Corruption
| NotSupported.

Definition IOStatus_ok (s : IOStatus) : bool :=
  match s with OK => true | _ => false end.

(** ** Write life time hints ([Env::WriteLifeTimeHint]) *)

Inductive WriteLifeTimeHint : Type :=
| WLTH_NOT_SET
| WLTH_NONE
| WLTH_SHORT
| WLTH_MEDIUM
| WLTH_LONG
| WLTH_EXTREME.

(** The enumerators count up from [WLTH_NOT_SET = 0]. *)
Definition WLTH_val (h : WriteLifeTimeHint) : Z :=
  match h with
  | WLTH_NOT_SET => 0
  | WLTH_NONE => 1
  | WLTH_SHORT => 2
  | WLTH_MEDIUM => 3
  | WLTH_LONG => 4
  | WLTH_EXTREME => 5
  end.

Definition LIFETIME_DIFF_NOT_GOOD : Z := 100.
Definition LIFETIME_DIFF_MEH : Z := 2.

(** [GetLifeTimeDiff] of zbd_zenfs.cc.  [None] stands for a failed
    [assert]. *)
Definition GetLifeTimeDiff (zone_lifetime file_lifetime : WriteLifeTimeHint)
  : option Z :=
  if negb ((0 <=? WLTH_val file_lifetime)
           && (WLTH_val file_lifetime <=? WLTH_val WLTH_EXTREME))
  then None
  else if (WLTH_val file_lifetime =? WLTH_val WLTH_NOT_SET)
          || (WLTH_val file_lifetime =? WLTH_val WLTH_NONE)
  then (if WLTH_val file_lifetime =? WLTH_val zone_lifetime
        then Some 0
        else Some LIFETIME_DIFF_NOT_GOOD)
  else if WLTH_val zone_lifetime =? WLTH_val file_lifetime
  then Some LIFETIME_DIFF_MEH
  else if WLTH_val zone_lifetime >? WLTH_val file_lifetime
  then Some (u32 (WLTH_val zone_lifetime - WLTH_val file_lifetime))
  else Some LIFETIME_DIFF_NOT_GOOD.

#[global] Instance WriteLifeTimeHint_eq_dec : EqDecision WriteLifeTimeHint.
Proof. solve_decision. Defined.

(** The [diff] function as the specification words it (section 4.B,
    "Lifetime matching"), to be compared with [GetLifeTimeDiff]. *)
Definition spec_diff (zone_lt file_lt : WriteLifeTimeHint) : Z :=
  if bool_decide (file_lt = WLTH_NOT_SET \/ file_lt = WLTH_NONE)
  then (if bool_decide (zone_lt = file_lt) then 0 else 100)
  else if bool_decide (zone_lt = file_lt) then 2
  else if bool_decide (WLTH_val zone_lt > WLTH_val file_lt)
  then WLTH_val zone_lt - WLTH_val file_lt
  else 100.

(** ** Fixed-width little-endian coding

    [PutFixed32], [PutFixed64], [GetFixed32] and [GetFixed64] belong to
    RocksDB ([util/coding.h]), not to these sources: a value is appended
    as its 4 or 8 bytes, least significant first, and read back from the
    front of the input, which is then shortened; reading from an input
    that is too short fails and leaves input and target alone. *)

Definition PutFixed32 (dst : list byte) (value : Z) : list byte :=
  dst ++ le_split 4 value.

Definition PutFixed64 (dst : list byte) (value : Z) : list byte :=
  dst ++ le_split 8 value.

Definition GetFixed32 (input : list byte) (value : Z) : bool * list byte * Z :=
  if (length input <? 4)%nat then (false, input, value)
  else (true, skipn 4 input, le_combine (firstn 4 input)).

Definition GetFixed64 (input : list byte) (value : Z) : bool * list byte * Z :=
  if (length input <? 8)%nat then (false, input, value)
  else (true, skipn 8 input, le_combine (firstn 8 input)).

(** ** Zone extents *)

(** [zone_] is a [Zone*]: an index into the zone store, [None] for
    [nullptr]. *)
Record ZoneExtent : Type := mkZoneExtent {
  ZoneExtent_start_ : Z;          (* uint64_t *)
  ZoneExtent_length_ : Z;         (* uint32_t *)
  ZoneExtent_zone_ : option nat
}.

Definition ZoneExtent_wf (e : ZoneExtent) : Prop :=
  0 <= ZoneExtent_start_ e < 2 ^ 64 /\ 0 <= ZoneExtent_length_ e < 2 ^ 32.

(** [ZoneExtent::EncodeTo] *)
Definition ZoneExtent_EncodeTo (e : ZoneExtent) (output : list byte) : list byte :=
  let output := PutFixed64 output (ZoneExtent_start_ e) in
  PutFixed32 output (ZoneExtent_length_ e).

(** [ZoneExtent::DecodeFrom]: the status, what is left of the input, and
    the extent afterwards. *)
Definition ZoneExtent_DecodeFrom (e : ZoneExtent) (input : list byte)
  : IOStatus * list byte * ZoneExtent :=
  if negb (length input =? 8 + 4)%nat then (Corruption, input, e)
  else
    let '(_, input, start) := GetFixed64 input (ZoneExtent_start_ e) in
    let '(_, input, len) := GetFixed32 input (ZoneExtent_length_ e) in
    (OK, input, mkZoneExtent start len (ZoneExtent_zone_ e)).

(** ** Zones *)

(** The fields of [class Zone].  The header that declares them is not
    among the sources; the offsets and sizes are the 64-bit unsigned
    values that the code copies in and out of them, and [used_capacity_]
    is taken as a 64-bit counter.  [inflight] and [nbytes] are
    [wr_ctx.inflight] and [wr_ctx.iocb.u.c.nbytes]. *)
Record Zone : Type := mkZone {
  Zone_start_ : Z;
  Zone_max_capacity_ : Z;
  Zone_capacity_ : Z;
  Zone_wp_ : Z;
  Zone_lifetime_ : WriteLifeTimeHint;
  Zone_used_capacity_ : Z;
  Zone_open_for_write_ : bool;
  Zone_bg_processing : bool;
  Zone_inflight : Z;
  Zone_nbytes : Z
}.

Definition Zone_set_max_capacity_ (v : Z) (z : Zone) : Zone :=
  mkZone (Zone_start_ z) v (Zone_capacity_ z) (Zone_wp_ z) (Zone_lifetime_ z)
         (Zone_used_capacity_ z) (Zone_open_for_write_ z) (Zone_bg_processing z)
         (Zone_inflight z) (Zone_nbytes z).

Definition Zone_set_capacity_ (v : Z) (z : Zone) : Zone :=
  mkZone (Zone_start_ z) (Zone_max_capacity_ z) v (Zone_wp_ z) (Zone_lifetime_ z)
         (Zone_used_capacity_ z) (Zone_open_for_write_ z) (Zone_bg_processing z)
         (Zone_inflight z) (Zone_nbytes z).

Definition Zone_set_wp_ (v : Z) (z : Zone) : Zone :=
  mkZone (Zone_start_ z) (Zone_max_capacity_ z) (Zone_capacity_ z) v (Zone_lifetime_ z)
         (Zone_used_capacity_ z) (Zone_open_for_write_ z) (Zone_bg_processing z)
         (Zone_inflight z) (Zone_nbytes z).

Definition Zone_set_lifetime_ (v : WriteLifeTimeHint) (z : Zone) : Zone :=
  mkZone (Zone_start_ z) (Zone_max_capacity_ z) (Zone_capacity_ z) (Zone_wp_ z) v
         (Zone_used_capacity_ z) (Zone_open_for_write_ z) (Zone_bg_processing z)
         (Zone_inflight z) (Zone_nbytes z).

Definition Zone_set_used_capacity_ (v : Z) (z : Zone) : Zone :=
  mkZone (Zone_start_ z) (Zone_max_capacity_ z) (Zone_capacity_ z) (Zone_wp_ z)
         (Zone_lifetime_ z) v (Zone_open_for_write_ z) (Zone_bg_processing z)
         (Zone_inflight z) (Zone_nbytes z).

Definition Zone_set_open_for_write_ (v : bool) (z : Zone) : Zone :=
  mkZone (Zone_start_ z) (Zone_max_capacity_ z) (Zone_capacity_ z) (Zone_wp_ z)
         (Zone_lifetime_ z) (Zone_used_capacity_ z) v (Zone_bg_processing z)
         (Zone_inflight z) (Zone_nbytes z).

Definition Zone_set_bg_processing (v : bool) (z : Zone) : Zone :=
  mkZone (Zone_start_ z) (Zone_max_capacity_ z) (Zone_capacity_ z) (Zone_wp_ z)
         (Zone_lifetime_ z) (Zone_used_capacity_ z) (Zone_open_for_write_ z) v
         (Zone_inflight z) (Zone_nbytes z).

Definition Zone_set_inflight (v : Z) (z : Zone) : Zone :=
  mkZone (Zone_start_ z) (Zone_max_capacity_ z) (Zone_capacity_ z) (Zone_wp_ z)
         (Zone_lifetime_ z) (Zone_used_capacity_ z) (Zone_open_for_write_ z)
         (Zone_bg_processing z) v (Zone_nbytes z).

Definition Zone_set_nbytes (v : Z) (z : Zone) : Zone :=
  mkZone (Zone_start_ z) (Zone_max_capacity_ z) (Zone_capacity_ z) (Zone_wp_ z)
         (Zone_lifetime_ z) (Zone_used_capacity_ z) (Zone_open_for_write_ z)
         (Zone_bg_processing z) (Zone_inflight z) v.

Definition Zone_IsUsed (z : Zone) : bool :=
  (Zone_used_capacity_ z >? 0) || Zone_open_for_write_ z.

Definition Zone_IsFull (z : Zone) : bool := Zone_capacity_ z =? 0.

Definition Zone_IsEmpty (z : Zone) : bool := Zone_wp_ z =? Zone_start_ z.

Definition Zone_GetCapacityLeft (z : Zone) : Z := Zone_capacity_ z.

(** ** The world: device, zone table, object stores *)

(** What one system call gives back. *)
Inductive SysReply : Type :=
| Ret (r : Z)                  (* the call returns [r] *)
| Fail (errno : Z)             (* the call returns -1 and sets [errno] *)
| Report (ret report : Z) (offline : bool) (capacity : Z).
                               (* [zbd_report_zones] on one zone *)

Definition EINTR : Z := 4.

(** A job queued on [data_worker_]: the closures built by
    [BgResetDataZone] and [BgFinishDataZone], which capture the zone and
    the slot of [active_zones_]. *)
Inductive Job : Type :=
| ResetJob (z : nat) (slot : nat)
| FinishJob (z : nat) (slot : nat).

(** The members of [ZonedBlockDevice] that the modelled functions use
    (under their own names), the stores of [Zone] and [ZoneExtent]
    objects, the job queue of [data_worker_] and the replies of the
    system calls still to come. *)
Record World : Type := mkWorld {
  zones : list Zone;
  extents : list (option ZoneExtent);     (* [None]: deleted *)
  io_zones_ : list (option nat);        (* never null in these sources *)
  active_zones_ : list (option nat);
  active_io_zones_ : Z;
  wal_zone_allocating_ : Z;
  bg_io_zone_recycling_ : Z;
  finish_threshold_ : Z;
  zone_sz_ : Z;
  block_sz_ : Z;
  data_worker_ : list Job;
  syscalls : list SysReply
}.

Definition set_zones (v : list Zone) (w : World) : World :=
  mkWorld v (extents w) (io_zones_ w) (active_zones_ w) (active_io_zones_ w)
          (wal_zone_allocating_ w) (bg_io_zone_recycling_ w) (finish_threshold_ w)
          (zone_sz_ w) (block_sz_ w) (data_worker_ w) (syscalls w).

Definition set_extents (v : list (option ZoneExtent)) (w : World) : World :=
  mkWorld (zones w) v (io_zones_ w) (active_zones_ w) (active_io_zones_ w)
          (wal_zone_allocating_ w) (bg_io_zone_recycling_ w) (finish_threshold_ w)
          (zone_sz_ w) (block_sz_ w) (data_worker_ w) (syscalls w).

Definition set_active_zones_ (v : list (option nat)) (w : World) : World :=
  mkWorld (zones w) (extents w) (io_zones_ w) v (active_io_zones_ w)
          (wal_zone_allocating_ w) (bg_io_zone_recycling_ w) (finish_threshold_ w)
          (zone_sz_ w) (block_sz_ w) (data_worker_ w) (syscalls w).

Definition set_active_io_zones_ (v : Z) (w : World) : World :=
  mkWorld (zones w) (extents w) (io_zones_ w) (active_zones_ w) v
          (wal_zone_allocating_ w) (bg_io_zone_recycling_ w) (finish_threshold_ w)
          (zone_sz_ w) (block_sz_ w) (data_worker_ w) (syscalls w).

Definition set_wal_zone_allocating_ (v : Z) (w : World) : World :=
  mkWorld (zones w) (extents w) (io_zones_ w) (active_zones_ w) (active_io_zones_ w)
          v (bg_io_zone_recycling_ w) (finish_threshold_ w)
          (zone_sz_ w) (block_sz_ w) (data_worker_ w) (syscalls w).

Definition set_bg_io_zone_recycling_ (v : Z) (w : World) : World :=
  mkWorld (zones w) (extents w) (io_zones_ w) (active_zones_ w) (active_io_zones_ w)
          (wal_zone_allocating_ w) v (finish_threshold_ w)
          (zone_sz_ w) (block_sz_ w) (data_worker_ w) (syscalls w).

Definition set_data_worker_ (v : list Job) (w : World) : World :=
  mkWorld (zones w) (extents w) (io_zones_ w) (active_zones_ w) (active_io_zones_ w)
          (wal_zone_allocating_ w) (bg_io_zone_recycling_ w) (finish_threshold_ w)
          (zone_sz_ w) (block_sz_ w) v (syscalls w).

Definition set_syscalls (v : list SysReply) (w : World) : World :=
  mkWorld (zones w) (extents w) (io_zones_ w) (active_zones_ w) (active_io_zones_ w)
          (wal_zone_allocating_ w) (bg_io_zone_recycling_ w) (finish_threshold_ w)
          (zone_sz_ w) (block_sz_ w) (data_worker_ w) v.

(** ** Computations

    A member function is a function from the world before the call to
    its outcome: a value and the world after, a failed [assert], a step
    that C++ leaves undefined (a null or dangling pointer, an index out
    of range), or a run that cannot go on in the model because the script
    of replies or the fuel of a loop is used up. *)

Inductive Res (A : Type) : Type :=
| Val (a : A) (w : World)
| AssertFail
| Undef
| Blocked.

Arguments Val {A} a w.
Arguments AssertFail {A}.
Arguments Undef {A}.
Arguments Blocked {A}.

Definition M (A : Type) : Type := World -> Res A.

Definition ret {A : Type} (a : A) : M A := fun w => Val a w.

Definition bind {A B : Type} (m : M A) (k : A -> M B) : M B :=
  fun w =>
    match m w with
    | Val a w' => k a w'
    | AssertFail => AssertFail
    | Undef => Undef
    | Blocked => Blocked
    end.

Declare Scope zen_scope.
Delimit Scope zen_scope with zen.
Notation "x <- m ;; k" := (bind m (fun x => k))
  (at level 20, m at level 99, k at level 200, only parsing) : zen_scope.
Notation "m ;; k" := (bind m (fun _ => k))
  (at level 100, k at level 200, only parsing, right associativity) : zen_scope.
Notation "' pat <- m ;; k" := (bind m (fun x => match x with pat => k end))
  (at level 20, pat pattern, m at level 99, k at level 200, only parsing) : zen_scope.
Local Open Scope zen_scope.

Definition gets {A : Type} (f : World -> A) : M A := fun w => Val (f w) w.
Definition modify (f : World -> World) : M unit := fun w => Val tt (f w).
Definition assert (b : bool) : M unit := fun w => if b then Val tt w else AssertFail.
Definition undefined {A : Type} : M A := fun _ => Undef.
Definition blocked {A : Type} : M A := fun _ => Blocked.

(** Dereferencing a [Zone*]. *)
Definition getZone (z : nat) : M Zone :=
  fun w => match zones w !! z with Some zn => Val zn w | None => Undef end.

Definition modZone (z : nat) (f : Zone -> Zone) : M unit :=
  zn <- getZone z ;;
  modify (fun w => set_zones (<[z := f zn]> (zones w)) w).

(** The next reply of the script. *)
Definition syscall : M SysReply :=
  fun w =>
    match syscalls w with
    | [] => Blocked
    | r :: rest => Val r (set_syscalls rest w)
    end.

(** A call that returns an integer; the second component is [errno]
    when the call failed. *)
Definition syscall_int : M (Z * Z) :=
  r <- syscall ;;
  match r with
  | Ret v => ret (v, 0)
  | Fail e => ret (-1, e)
  | Report _ _ _ _ => blocked
  end.

Definition syscall_report : M (Z * Z * bool * Z) :=
  r <- syscall ;;
  match r with
  | Report rt n off cap => ret (rt, n, off, cap)
  | _ => blocked
  end.

(** The value of an unsigned 32-bit quantity converted to [int]. *)
Definition to_int (x : Z) : Z := (x + 2 ^ 31) mod 2 ^ 32 - 2 ^ 31.

(** [Zone::Sync] *)
Definition Zone_Sync (z : nat) : M IOStatus :=
  zn <- getZone z ;;
  if Zone_inflight zn =? 0 then ret OK
  else
    '(r, _) <- syscall_int ;;                  (* io_getevents *)
    if negb (r =? 1) then ret IOError
    else
      '(res, _) <- syscall_int ;;              (* events[0].res *)
      if negb (res =? to_int (Zone_nbytes zn)) then ret IOError
      else
        modZone z (Zone_set_inflight 0) ;;
        ret OK.

(** [Zone::Reset] *)
Definition Zone_Reset (z : nat) : M IOStatus :=
  zn <- getZone z ;;
  assert (negb (Zone_IsUsed zn)) ;;
  '(r, _) <- syscall_int ;;                    (* zbd_reset_zones *)
  if negb (r =? 0) then ret IOError
  else
    '(r, report, offline, cap) <- syscall_report ;;
    if negb (r =? 0) || negb (report =? 1) then ret IOError
    else
      modZone z (fun zn =>
        let zn := if offline then Zone_set_capacity_ 0 zn
                  else Zone_set_max_capacity_ cap (Zone_set_capacity_ cap zn) in
        Zone_set_lifetime_ WLTH_NOT_SET (Zone_set_wp_ (Zone_start_ zn) zn)) ;;
      ret OK.

(** [Zone::Finish] *)
Definition Zone_Finish (z : nat) : M IOStatus :=
  zone_sz <- gets zone_sz_ ;;
  zn <- getZone z ;;
  assert (negb (Zone_open_for_write_ zn)) ;;
  '(r, _) <- syscall_int ;;                    (* zbd_finish_zones *)
  if negb (r =? 0) then ret IOError
  else
    modZone z (fun zn =>
      Zone_set_wp_ (u64 (Zone_start_ zn + zone_sz)) (Zone_set_capacity_ 0 zn)) ;;
    ret OK.

(** [Zone::Close] *)
Definition Zone_Close (z : nat) : M IOStatus :=
  modZone z (Zone_set_open_for_write_ false) ;;
  zn <- getZone z ;;
  if negb (Zone_IsEmpty zn || Zone_IsFull zn) then
    '(r, _) <- syscall_int ;;                  (* zbd_close_zones *)
    if negb (r =? 0) then ret IOError else ret OK
  else ret OK.

(** [Zone::CloseWR] *)
Definition Zone_CloseWR (z : nat) : M unit :=
  zn <- getZone z ;;
  assert (Zone_open_for_write_ zn) ;;
  Zone_Sync z ;;
  s <- Zone_Close z ;;
  if negb (IOStatus_ok s) then assert false else ret tt.

(** The [while (left)] loop of [Zone::Append].  Every turn takes one
    reply, the [int] that [pwrite(fd, ptr, size, wp_)] returned. *)
Fixpoint Zone_Append_loop (fuel : nat) (z : nat) (size left : Z) : M IOStatus :=
  if left =? 0 then ret OK
  else
    match fuel with
    | O => blocked
    | S fuel =>
        '(r, _) <- syscall_int ;;
        if r <? 0 then ret IOError
        else
          modZone z (fun zn =>
            Zone_set_capacity_ (u64 (Zone_capacity_ zn - r))
              (Zone_set_wp_ (u64 (Zone_wp_ zn + r)) zn)) ;;
          Zone_Append_loop fuel z size (u32 (left - r))
    end.

(** [Zone::Append]; [size] is a [uint32_t].  The buffer is not modelled.
    The loop cannot take more turns than there are replies. *)
Definition Zone_Append (z : nat) (size : Z) : M IOStatus :=
  zn <- getZone z ;;
  if Zone_capacity_ zn <? size then ret NoSpace
  else
    block_sz <- gets block_sz_ ;;
    (if block_sz =? 0 then undefined else assert (size mod block_sz =? 0)) ;;
    s <- Zone_Sync z ;;
    if negb (IOStatus_ok s) then ret s
    else
      n <- gets (fun w => length (syscalls w)) ;;
      Zone_Append_loop n z size size.

(** [Zone::Append_async] *)
Definition Zone_Append_async (z : nat) (size : Z) : M IOStatus :=
  block_sz <- gets block_sz_ ;;
  (if block_sz =? 0 then undefined else assert (size mod block_sz =? 0)) ;;
  s <- Zone_Sync z ;;
  if negb (IOStatus_ok s) then ret s
  else
    zn <- getZone z ;;
    if Zone_capacity_ zn <? size then ret NoSpace
    else
      modZone z (Zone_set_nbytes size) ;;      (* io_prep_pwrite *)
      '(r, _) <- syscall_int ;;                (* io_submit *)
      if r <? 0 then ret IOError
      else
        modZone z (fun zn =>
          Zone_set_capacity_ (u64 (Zone_capacity_ zn - size))
            (Zone_set_wp_ (u64 (Zone_wp_ zn + size))
               (Zone_set_inflight size zn))) ;;
        ret OK.

(** The zone after [n] bytes were written to it. *)
Definition Zone_written (n : Z) (zn : Zone) : Zone :=
  Zone_set_capacity_ (u64 (Zone_capacity_ zn - n))
    (Zone_set_wp_ (u64 (Zone_wp_ zn + n)) zn).

(** A reply is a legal result of a [pwrite] of [count] bytes. *)
Definition pwrite_reply_ok (count : Z) (r : SysReply) : bool :=
  match r with
  | Ret v => (-1 <=? v) && (v <=? count)
  | Fail _ => true
  | Report _ _ _ _ => false
  end.

(** The replies to come never report more bytes written than were still
    [left] to write. *)
Fixpoint writes_within (left : Z) (script : list SysReply) : bool :=
  match script with
  | Ret r :: rest =>
      (left =? 0) || (r <? 0) || ((r <=? left) && writes_within (left - r) rest)
  | _ => true
  end.

(** ** The zoned block device: background jobs and the allocator *)

(** Runs [f] on every element in turn. *)
Fixpoint forM_ {A : Type} (l : list A) (f : A -> M unit) : M unit :=
  match l with
  | [] => ret tt
  | x :: rest => f x ;; forM_ rest f
  end.

(** [ZonedBlockDevice::GetIOZone]; [io_zones_] holds [Zone*], a null
    entry cannot be dereferenced. *)
Fixpoint GetIOZone_scan (zs : list (option nat)) (offset : Z) : M (option nat) :=
  match zs with
  | [] => ret None
  | None :: _ => undefined
  | Some z :: rest =>
      zn <- getZone z ;;
      zone_sz <- gets zone_sz_ ;;
      if (Zone_start_ zn <=? offset) && (offset <? u64 (Zone_start_ zn + zone_sz))
      then ret (Some z)
      else GetIOZone_scan rest offset
  end.

Definition GetIOZone (offset : Z) : M (option nat) :=
  zs <- gets io_zones_ ;;
  GetIOZone_scan zs offset.

(** [BackgroundWorker::SubmitJob] on [data_worker_]. *)
Definition SubmitJob (j : Job) : M unit :=
  modify (fun w => set_data_worker_ (data_worker_ w ++ [j]) w).

(** [ZonedBlockDevice::BgResetDataZone] and [BgFinishDataZone] only
    queue the job. *)
Definition BgResetDataZone (z slot : nat) : M unit := SubmitJob (ResetJob z slot).
Definition BgFinishDataZone (z slot : nat) : M unit := SubmitJob (FinishJob z slot).

(** The body of a queued job, as the worker thread runs it. *)
Definition RunJob (j : Job) : M unit :=
  match j with
  | ResetJob z slot =>
      az <- gets active_zones_ ;;
      match az !! slot with
      | None => undefined
      | Some cur =>
          assert (bool_decide (cur = Some z)) ;;
          s <- Zone_Reset z ;;
          (if negb (IOStatus_ok s) then assert false else ret tt) ;;
          modify (fun w => set_active_io_zones_ (active_io_zones_ w - 1) w) ;;
          modZone z (Zone_set_bg_processing false) ;;
          modify (fun w => set_active_zones_ (<[slot := None]> (active_zones_ w)) w)
      end
  | FinishJob z slot =>
      az <- gets active_zones_ ;;
      match az !! slot with
      | None => undefined
      | Some cur =>
          assert (bool_decide (cur = Some z)) ;;
          s <- Zone_Finish z ;;
          (if negb (IOStatus_ok s) then assert false else ret tt) ;;
          modify (fun w => set_active_io_zones_ (active_io_zones_ w - 1) w) ;;
          modZone z (Zone_set_bg_processing false) ;;
          modify (fun w => set_active_zones_ (<[slot := None]> (active_zones_ w)) w)
      end
  end.


(** [ZonedBlockDevice::ResetUnusedIOZones] *)
Definition ResetUnusedIOZones : M unit :=
  zs <- gets io_zones_ ;;
  forM_ zs (fun oz =>
    match oz with
    | None => undefined
    | Some z =>
        zn <- getZone z ;;
        if negb (Zone_IsUsed zn) && negb (Zone_IsEmpty zn) then
          (if negb (Zone_IsFull zn)
           then modify (fun w => set_active_io_zones_ (active_io_zones_ w - 1) w)
           else ret tt) ;;
          Zone_Reset z ;;                      (* a failure is only logged *)
          ret tt
        else ret tt
    end).

(** The body of the loop of [TriggerBgFinishAndReset] for slot [i]. *)
Definition TriggerBgFinishAndReset_slot (i : nat) : M unit :=
  az <- gets active_zones_ ;;
  match az !! i with
  | None => undefined
  | Some None => ret tt
  | Some (Some z) =>
      zn <- getZone z ;;
      if Zone_bg_processing zn then ret tt
      else if Zone_open_for_write_ zn || Zone_IsEmpty zn
              || (Zone_IsFull zn && Zone_IsUsed zn)
      then ret tt
      else if negb (Zone_IsUsed zn) then
        modZone z (Zone_set_bg_processing true) ;;
        BgResetDataZone z i
      else
        threshold <- gets finish_threshold_ ;;
        if Zone_capacity_ zn <? u64 (Zone_max_capacity_ zn * threshold) / 100 then
          modZone z (Zone_set_bg_processing true) ;;
          BgFinishDataZone z i
        else ret tt
  end.

(** [ZonedBlockDevice::TriggerBgFinishAndReset] *)
Definition TriggerBgFinishAndReset : M unit :=
  flag <- gets bg_io_zone_recycling_ ;;
  if negb (flag =? 0) then ret tt              (* compare_exchange_strong failed *)
  else
    modify (set_bg_io_zone_recycling_ 1) ;;
    n <- gets (fun w => length (active_zones_ w)) ;;
    forM_ (seq 0 n) TriggerBgFinishAndReset_slot ;;
    modify (set_bg_io_zone_recycling_ 0).

(** The index of the first slot of [active_zones_] that holds [z]. *)
Fixpoint find_slot (az : list (option nat)) (z : nat) (i : nat) : option nat :=
  match az with
  | [] => None
  | s :: rest => if bool_decide (s = Some z) then Some i else find_slot rest z (S i)
  end.

(** [GetActiveZone], first part: the caller's zone is full. *)
Definition GetActiveZone_full_zone (full_zone : option nat) : M unit :=
  match full_zone with
  | None => ret tt
  | Some fz =>
      zn <- getZone fz ;;
      if negb (Zone_bg_processing zn) then
        az <- gets active_zones_ ;;
        match find_slot az fz 0 with
        | Some i =>
            modZone fz (fun zn =>
              Zone_set_bg_processing true (Zone_set_open_for_write_ false zn)) ;;
            BgFinishDataZone fz i
        | None => ret tt
        end
      else ret tt
  end.

(** [GetActiveZone], the search for the zone whose life time hint suits
    best: [acc] is [(allocated_zone, best_diff)]. *)
Fixpoint GetActiveZone_best (zs : list (option nat)) (file_lifetime : WriteLifeTimeHint)
         (acc : option nat * Z) : M (option nat * Z) :=
  match zs with
  | [] => ret acc
  | None :: rest => GetActiveZone_best rest file_lifetime acc
  | Some z :: rest =>
      zn <- getZone z ;;
      if negb (Zone_open_for_write_ zn) && (Zone_used_capacity_ zn >? 0)
         && negb (Zone_IsFull zn)
      then
        match GetLifeTimeDiff (Zone_lifetime_ zn) file_lifetime with
        | None => fun _ => AssertFail
        | Some diff =>
            if diff <=? snd acc
            then GetActiveZone_best rest file_lifetime (Some z, diff)
            else GetActiveZone_best rest file_lifetime acc
        end
      else GetActiveZone_best rest file_lifetime acc
  end.

(** [GetActiveZone], the search for an empty zone. *)
Fixpoint GetActiveZone_empty (zs : list (option nat)) (file_lifetime : WriteLifeTimeHint)
         (allocated_zone : option nat) : M (option nat) :=
  match zs with
  | [] => ret allocated_zone
  | None :: rest => GetActiveZone_empty rest file_lifetime allocated_zone
  | Some z :: rest =>
      zn <- getZone z ;;
      if negb (Zone_open_for_write_ zn) && Zone_IsEmpty zn then
        modZone z (Zone_set_lifetime_ file_lifetime) ;;
        GetActiveZone_empty rest file_lifetime (Some z)
      else GetActiveZone_empty rest file_lifetime allocated_zone
  end.

(** [GetActiveZone], the branch for an empty slot [i]: the zone put
    into the slot, if any. *)
Definition GetActiveZone_new (start : Z) (file_lifetime : WriteLifeTimeHint) (i : nat)
  : M (option nat) :=
  zs <- gets io_zones_ ;;
  '(allocated_zone, best_diff) <-
     GetActiveZone_best zs file_lifetime (None, LIFETIME_DIFF_NOT_GOOD) ;;
  allocated_zone <-
     (if best_diff >=? LIFETIME_DIFF_NOT_GOOD
      then GetActiveZone_empty zs file_lifetime allocated_zone
      else ret allocated_zone) ;;
  match allocated_zone with
  | Some a =>
      modZone a (fun zn =>
        Zone_set_lifetime_ file_lifetime (Zone_set_open_for_write_ true zn)) ;;
      modify (fun w => set_active_zones_ (<[i := Some a]> (active_zones_ w)) w) ;;
      modify (fun w => set_active_io_zones_ (active_io_zones_ w + 1) w)
  | None => ret tt
  end ;;
  (if negb (start =? 0) then TriggerBgFinishAndReset else ret tt) ;;
  ret allocated_zone.

(** [GetActiveZone], the loop over the slots [i], [i+1], ...; it ends
    with the first success.  [out] is what [*ret] holds. *)
Fixpoint GetActiveZone_slots (slots : list nat) (start : Z)
         (file_lifetime : WriteLifeTimeHint) (out : option nat)
  : M (bool * option nat) :=
  match slots with
  | [] => ret (false, out)
  | i :: rest =>
      az <- gets active_zones_ ;;
      match az !! i with
      | None => undefined
      | Some (Some z) =>
          zn <- getZone z ;;
          if Zone_bg_processing zn
          then GetActiveZone_slots rest start file_lifetime out
          else if negb (Zone_open_for_write_ zn) then
            modZone z (Zone_set_open_for_write_ true) ;;
            ret (true, Some z)
          else GetActiveZone_slots rest start file_lifetime out
      | Some None =>
          allocated_zone <- GetActiveZone_new start file_lifetime i ;;
          match allocated_zone with
          | Some a => ret (true, Some a)
          | None => GetActiveZone_slots rest start file_lifetime out
          end
      end
  end.

(** [ZonedBlockDevice::GetActiveZone]: [start] is 0 or 2. *)
Definition GetActiveZone (start : Z) (file_lifetime : WriteLifeTimeHint)
           (full_zone : option nat) (out : option nat) : M (bool * option nat) :=
  GetActiveZone_full_zone full_zone ;;
  n <- gets (fun w => length (active_zones_ w)) ;;
  GetActiveZone_slots (seq (Z.to_nat start) (n - Z.to_nat start)) start
                      file_lifetime out.

(** The [do ... while (!try_again)] of [AllocateZone].  A caller that
    is not a WAL waits while a WAL allocation is under way. *)
Fixpoint AllocateZone_loop (fuel : nat) (file_lifetime : WriteLifeTimeHint)
         (is_wal : bool) (full_zone : option nat) (z : option nat) : M (option nat) :=
  match fuel with
  | O => blocked
  | S fuel =>
      '(try_again, z) <-
         (if is_wal then
            modify (fun w => set_wal_zone_allocating_ (wal_zone_allocating_ w + 1) w) ;;
            r <- GetActiveZone 0 file_lifetime full_zone z ;;
            modify (fun w => set_wal_zone_allocating_ (wal_zone_allocating_ w - 1) w) ;;
            ret r
          else
            n <- gets wal_zone_allocating_ ;;
            if negb (n =? 0) then blocked
            else GetActiveZone 2 file_lifetime full_zone z) ;;
      if try_again then ret z
      else AllocateZone_loop fuel file_lifetime is_wal full_zone z
  end.

(** [ZonedBlockDevice::AllocateZone] *)
Definition AllocateZone (fuel : nat) (file_lifetime : WriteLifeTimeHint)
           (is_wal : bool) (full_zone : option nat) : M (option nat) :=
  AllocateZone_loop fuel file_lifetime is_wal full_zone None.

(** ** Zone files *)

(** [class ZoneFile]; [extents_] holds [ZoneExtent*], indices into the
    extent store. *)
Record ZoneFile : Type := mkZoneFile {
  ZoneFile_active_zone_ : option nat;
  ZoneFile_extent_start_ : Z;
  ZoneFile_extent_filepos_ : Z;
  ZoneFile_lifetime_ : WriteLifeTimeHint;
  ZoneFile_fileSize : Z;
  ZoneFile_filename_ : string;
  ZoneFile_file_id_ : Z;
  ZoneFile_nr_synced_extents_ : Z;
  ZoneFile_m_time_ : Z;
  ZoneFile_open_for_wr_ : bool;
  ZoneFile_extents_ : list nat
}.

Definition ZoneFile_set_active_zone_ (v : option nat) (f : ZoneFile) : ZoneFile :=
  mkZoneFile v (ZoneFile_extent_start_ f) (ZoneFile_extent_filepos_ f)
    (ZoneFile_lifetime_ f) (ZoneFile_fileSize f) (ZoneFile_filename_ f)
    (ZoneFile_file_id_ f) (ZoneFile_nr_synced_extents_ f) (ZoneFile_m_time_ f)
    (ZoneFile_open_for_wr_ f) (ZoneFile_extents_ f).

Definition ZoneFile_set_extent_start_ (v : Z) (f : ZoneFile) : ZoneFile :=
  mkZoneFile (ZoneFile_active_zone_ f) v (ZoneFile_extent_filepos_ f)
    (ZoneFile_lifetime_ f) (ZoneFile_fileSize f) (ZoneFile_filename_ f)
    (ZoneFile_file_id_ f) (ZoneFile_nr_synced_extents_ f) (ZoneFile_m_time_ f)
    (ZoneFile_open_for_wr_ f) (ZoneFile_extents_ f).

Definition ZoneFile_set_extent_filepos_ (v : Z) (f : ZoneFile) : ZoneFile :=
  mkZoneFile (ZoneFile_active_zone_ f) (ZoneFile_extent_start_ f) v
    (ZoneFile_lifetime_ f) (ZoneFile_fileSize f) (ZoneFile_filename_ f)
    (ZoneFile_file_id_ f) (ZoneFile_nr_synced_extents_ f) (ZoneFile_m_time_ f)
    (ZoneFile_open_for_wr_ f) (ZoneFile_extents_ f).

Definition ZoneFile_set_lifetime_ (v : WriteLifeTimeHint) (f : ZoneFile) : ZoneFile :=
  mkZoneFile (ZoneFile_active_zone_ f) (ZoneFile_extent_start_ f)
    (ZoneFile_extent_filepos_ f) v (ZoneFile_fileSize f) (ZoneFile_filename_ f)
    (ZoneFile_file_id_ f) (ZoneFile_nr_synced_extents_ f) (ZoneFile_m_time_ f)
    (ZoneFile_open_for_wr_ f) (ZoneFile_extents_ f).

Definition ZoneFile_set_fileSize (v : Z) (f : ZoneFile) : ZoneFile :=
  mkZoneFile (ZoneFile_active_zone_ f) (ZoneFile_extent_start_ f)
    (ZoneFile_extent_filepos_ f) (ZoneFile_lifetime_ f) v (ZoneFile_filename_ f)
    (ZoneFile_file_id_ f) (ZoneFile_nr_synced_extents_ f) (ZoneFile_m_time_ f)
    (ZoneFile_open_for_wr_ f) (ZoneFile_extents_ f).

Definition ZoneFile_set_filename_ (v : string) (f : ZoneFile) : ZoneFile :=
  mkZoneFile (ZoneFile_active_zone_ f) (ZoneFile_extent_start_ f)
    (ZoneFile_extent_filepos_ f) (ZoneFile_lifetime_ f) (ZoneFile_fileSize f) v
    (ZoneFile_file_id_ f) (ZoneFile_nr_synced_extents_ f) (ZoneFile_m_time_ f)
    (ZoneFile_open_for_wr_ f) (ZoneFile_extents_ f).

Definition ZoneFile_set_nr_synced_extents_ (v : Z) (f : ZoneFile) : ZoneFile :=
  mkZoneFile (ZoneFile_active_zone_ f) (ZoneFile_extent_start_ f)
    (ZoneFile_extent_filepos_ f) (ZoneFile_lifetime_ f) (ZoneFile_fileSize f)
    (ZoneFile_filename_ f) (ZoneFile_file_id_ f) v (ZoneFile_m_time_ f)
    (ZoneFile_open_for_wr_ f) (ZoneFile_extents_ f).

Definition ZoneFile_set_m_time_ (v : Z) (f : ZoneFile) : ZoneFile :=
  mkZoneFile (ZoneFile_active_zone_ f) (ZoneFile_extent_start_ f)
    (ZoneFile_extent_filepos_ f) (ZoneFile_lifetime_ f) (ZoneFile_fileSize f)
    (ZoneFile_filename_ f) (ZoneFile_file_id_ f) (ZoneFile_nr_synced_extents_ f) v
    (ZoneFile_open_for_wr_ f) (ZoneFile_extents_ f).

Definition ZoneFile_set_open_for_wr_ (v : bool) (f : ZoneFile) : ZoneFile :=
  mkZoneFile (ZoneFile_active_zone_ f) (ZoneFile_extent_start_ f)
    (ZoneFile_extent_filepos_ f) (ZoneFile_lifetime_ f) (ZoneFile_fileSize f)
    (ZoneFile_filename_ f) (ZoneFile_file_id_ f) (ZoneFile_nr_synced_extents_ f)
    (ZoneFile_m_time_ f) v (ZoneFile_extents_ f).

Definition ZoneFile_set_extents_ (v : list nat) (f : ZoneFile) : ZoneFile :=
  mkZoneFile (ZoneFile_active_zone_ f) (ZoneFile_extent_start_ f)
    (ZoneFile_extent_filepos_ f) (ZoneFile_lifetime_ f) (ZoneFile_fileSize f)
    (ZoneFile_filename_ f) (ZoneFile_file_id_ f) (ZoneFile_nr_synced_extents_ f)
    (ZoneFile_m_time_ f) (ZoneFile_open_for_wr_ f) v.

(** The constructor [ZoneFile::ZoneFile]; [open_for_wr_] is not
    initialised by it and is taken as [false]. *)
Definition ZoneFile_new (filename : string) (file_id : Z) : ZoneFile :=
  mkZoneFile None 0 0 WLTH_NOT_SET 0 filename file_id 0 0 false [].

Definition ZoneFile_GetFileSize (f : ZoneFile) : Z := ZoneFile_fileSize f.
Definition ZoneFile_SetFileSize (sz : Z) (f : ZoneFile) : ZoneFile :=
  ZoneFile_set_fileSize sz f.
Definition ZoneFile_OpenWR (f : ZoneFile) : ZoneFile := ZoneFile_set_open_for_wr_ true f.

(** [ZoneFile::MetadataSynced] is defined in the header, which is not
    among the sources; it records how many extents the persisted
    metadata covers ([nr_synced_extents_ = extents_.size()]). *)
Definition ZoneFile_MetadataSynced (f : ZoneFile) : ZoneFile :=
  ZoneFile_set_nr_synced_extents_ (Z.of_nat (length (ZoneFile_extents_ f))) f.

(** [new ZoneExtent(start, length, zone)]: the new object gets a fresh
    place in the store; [length] is the constructor's [uint32_t]. *)
Definition new_ZoneExtent (start length : Z) (zone : option nat) : M nat :=
  fun w =>
    Val (List.length (extents w))
        (set_extents (extents w ++ [Some (mkZoneExtent start (u32 length) zone)]) w).

(** Dereferencing a [ZoneExtent*]. *)
Definition getExtent (e : nat) : M ZoneExtent :=
  fun w => match extents w !! e with
           | Some (Some x) => Val x w
           | _ => Undef
           end.

Definition putExtent (e : nat) (x : ZoneExtent) : M unit :=
  modify (fun w => set_extents (<[e := Some x]> (extents w)) w).

(** [delete e] *)
Definition delete_ZoneExtent (e : nat) : M unit :=
  _ <- getExtent e ;;
  modify (fun w => set_extents (<[e := None]> (extents w)) w).

(** [ZoneFile::PushExtent] *)
Definition ZoneFile_PushExtent (f : ZoneFile) : M ZoneFile :=
  assert (ZoneFile_fileSize f >=? ZoneFile_extent_filepos_ f) ;;
  match ZoneFile_active_zone_ f with
  | None => ret f
  | Some az =>
      let length := u64 (ZoneFile_fileSize f - ZoneFile_extent_filepos_ f) in
      if length =? 0 then ret f
      else
        zn <- getZone az ;;
        assert (length <=? u64 (Zone_wp_ zn - ZoneFile_extent_start_ f)) ;;
        e <- new_ZoneExtent (ZoneFile_extent_start_ f) length (Some az) ;;
        modZone az (fun zn =>
          Zone_set_used_capacity_ (u64 (Zone_used_capacity_ zn + length)) zn) ;;
        zn <- getZone az ;;
        ret (ZoneFile_set_extent_filepos_ (ZoneFile_fileSize f)
               (ZoneFile_set_extent_start_ (Zone_wp_ zn)
                  (ZoneFile_set_extents_ (ZoneFile_extents_ f ++ [e]) f)))
  end.

(** [ZoneFile::CloseWR] *)
Definition ZoneFile_CloseWR (f : ZoneFile) : M ZoneFile :=
  f <- match ZoneFile_active_zone_ f with
       | Some az => Zone_CloseWR az ;; ret (ZoneFile_set_active_zone_ None f)
       | None => ret f
       end ;;
  ret (ZoneFile_set_open_for_wr_ false f).

(** The destructor [ZoneFile::~ZoneFile] *)
Definition ZoneFile_destroy (f : ZoneFile) : M unit :=
  forM_ (ZoneFile_extents_ f) (fun e =>
    x <- getExtent e ;;
    match ZoneExtent_zone_ x with
    | None => assert false
    | Some z =>
        zn <- getZone z ;;
        assert (Zone_used_capacity_ zn >=? ZoneExtent_length_ x) ;;
        modZone z (fun zn =>
          Zone_set_used_capacity_
            (u64 (Zone_used_capacity_ zn - ZoneExtent_length_ x)) zn) ;;
        delete_ZoneExtent e
    end) ;;
  ZoneFile_CloseWR f ;;
  ret tt.

(** [ZoneFile::GetExtent]: the extent that holds [file_offset] and the
    device offset of that byte. *)
Fixpoint ZoneFile_GetExtent_scan (es : list nat) (file_offset : Z)
  : M (option (nat * Z)) :=
  match es with
  | [] => ret None
  | e :: rest =>
      x <- getExtent e ;;
      if file_offset <? ZoneExtent_length_ x
      then ret (Some (e, u64 (ZoneExtent_start_ x + file_offset)))
      else ZoneFile_GetExtent_scan rest (u64 (file_offset - ZoneExtent_length_ x))
  end.

Definition ZoneFile_GetExtent (f : ZoneFile) (file_offset : Z) : M (option (nat * Z)) :=
  ZoneFile_GetExtent_scan (ZoneFile_extents_ f) file_offset.

(** The loop of [ZoneFile::MergeUpdate] over the extents of the
    update. *)
Fixpoint ZoneFile_MergeUpdate_extents (es : list nat) (f : ZoneFile) : M ZoneFile :=
  match es with
  | [] => ret f
  | e :: rest =>
      x <- getExtent e ;;
      match ZoneExtent_zone_ x with
      | None => undefined
      | Some z =>
          modZone z (fun zn =>
            Zone_set_used_capacity_
              (u64 (Zone_used_capacity_ zn + ZoneExtent_length_ x)) zn) ;;
          e' <- new_ZoneExtent (ZoneExtent_start_ x) (ZoneExtent_length_ x) (Some z) ;;
          ZoneFile_MergeUpdate_extents rest
            (ZoneFile_set_extents_ (ZoneFile_extents_ f ++ [e']) f)
      end
  end.

(** [ZoneFile::MergeUpdate] *)
Definition ZoneFile_MergeUpdate (f update : ZoneFile) : M (IOStatus * ZoneFile) :=
  if negb (ZoneFile_file_id_ f =? ZoneFile_file_id_ update) then ret (Corruption, f)
  else
    let f := ZoneFile_set_filename_ (ZoneFile_filename_ update) f in
    let f := ZoneFile_SetFileSize (ZoneFile_GetFileSize update) f in
    let f := ZoneFile_set_lifetime_ (ZoneFile_lifetime_ update) f in
    let f := ZoneFile_set_m_time_ (ZoneFile_m_time_ update) f in
    f <- ZoneFile_MergeUpdate_extents (ZoneFile_extents_ update) f ;;
    ret (OK, ZoneFile_MetadataSynced f).

(** The [kExtent] case of [ZoneFile::DecodeFrom], given the slice that
    [GetLengthPrefixedSlice] cut out: [None] when decoding goes on, else
    the status returned. *)
Definition ZoneFile_DecodeFrom_kExtent (slice : list byte) (f : ZoneFile)
  : M (option IOStatus * ZoneFile) :=
  e <- new_ZoneExtent 0 0 None ;;
  x <- getExtent e ;;
  let '(s, _, x) := ZoneExtent_DecodeFrom x slice in
  putExtent e x ;;
  if negb (IOStatus_ok s) then
    delete_ZoneExtent e ;;
    ret (Some s, f)
  else
    oz <- GetIOZone (ZoneExtent_start_ x) ;;
    putExtent e (mkZoneExtent (ZoneExtent_start_ x) (ZoneExtent_length_ x) oz) ;;
    match oz with
    | None => ret (Some Corruption, f)
    | Some z =>
        modZone z (fun zn =>
          Zone_set_used_capacity_
            (u64 (Zone_used_capacity_ zn + ZoneExtent_length_ x)) zn) ;;
        ret (None, ZoneFile_set_extents_ (ZoneFile_extents_ f ++ [e]) f)
    end.

(** ** [ZoneFile::Append] *)

Section ZoneFileAppend.

(** [ZoneFile::Append] calls [zbd_->AllocateZone(lifetime_)] with one
    argument; the other two take the defaults that the declaration in
    [zbd_zenfs.h] gives them.  The header is not among the sources: the
    defaults are parameters here.  (A default argument is evaluated in
    the scope of the declaration, so it cannot name the caller's zone.) *)
Variable default_is_wal : bool.
Variable default_full_zone : option nat.

(** The allocation and what follows it, in both places where
    [ZoneFile::Append] allocates; the flag is [false] when the allocator
    returned null.  [alloc_fuel] bounds the turns of the allocator's
    loop. *)
Definition ZoneFile_Append_allocate (alloc_fuel : nat) (f : ZoneFile)
  : M (bool * ZoneFile) :=
  az <- AllocateZone alloc_fuel (ZoneFile_lifetime_ f)
                     default_is_wal default_full_zone ;;
  let f := ZoneFile_set_active_zone_ az f in
  match az with
  | None => ret (false, f)
  | Some z =>
      zn <- getZone z ;;
      ret (true, ZoneFile_set_extent_filepos_ (ZoneFile_fileSize f)
                   (ZoneFile_set_extent_start_ (Zone_wp_ zn) f))
  end.

(** The block [if (active_zone_->capacity_ == 0) { ... }] at the top of
    the loop. *)
Definition ZoneFile_Append_next_zone (alloc_fuel : nat) (f : ZoneFile)
  : M (bool * ZoneFile) :=
  f <- ZoneFile_PushExtent f ;;
  match ZoneFile_active_zone_ f with
  | None => undefined
  | Some az =>
      Zone_CloseWR az ;;
      ZoneFile_Append_allocate alloc_fuel f
  end.

(** The [while (left)] loop; [fuel] bounds its turns. *)
Fixpoint ZoneFile_Append_loop (alloc_fuel fuel : nat) (f : ZoneFile) (left : Z)
  : M (IOStatus * ZoneFile) :=
  if left =? 0 then ret (OK, f)
  else
    match fuel with
    | O => blocked
    | S fuel =>
        match ZoneFile_active_zone_ f with
        | None => undefined
        | Some az =>
            zn <- getZone az ;;
            '(allocated, f) <-
               (if Zone_capacity_ zn =? 0
                then ZoneFile_Append_next_zone alloc_fuel f
                else ret (true, f)) ;;
            if negb allocated then ret (NoSpace, f)
            else
              match ZoneFile_active_zone_ f with
              | None => undefined
              | Some az =>
                  zn <- getZone az ;;
                  let wr_size :=
                    if left >? Zone_capacity_ zn then u32 (Zone_capacity_ zn)
                    else left in
                  s <- Zone_Append az wr_size ;;
                  if negb (IOStatus_ok s) then ret (s, f)
                  else
                    let f := ZoneFile_set_fileSize
                               (u64 (ZoneFile_fileSize f + wr_size)) f in
                    ZoneFile_Append_loop alloc_fuel fuel f (u32 (left - wr_size))
              end
        end
    end.

(** [ZoneFile::Append]; [data_size] and [valid_size] are [int]s.  The
    data is not modelled. *)
Definition ZoneFile_Append (alloc_fuel fuel : nat) (f : ZoneFile)
           (data_size valid_size : Z) : M (IOStatus * ZoneFile) :=
  '(allocated, f) <-
     match ZoneFile_active_zone_ f with
     | None => ZoneFile_Append_allocate alloc_fuel f
     | Some _ => ret (true, f)
     end ;;
  if negb allocated then ret (NoSpace, f)
  else
    '(s, f) <- ZoneFile_Append_loop alloc_fuel fuel f (u32 data_size) ;;
    if negb (IOStatus_ok s) then ret (s, f)
    else
      ret (OK, ZoneFile_set_fileSize
                 (u64 (ZoneFile_fileSize f - (data_size - valid_size))) f).

End ZoneFileAppend.

(** ** The file adapters *)

(** [class ZonedWritableFile], without the buffer's contents; [zoneFile_]
    is the file the adapter writes to. *)
Record ZonedWritableFile : Type := mkZonedWritableFile {
  ZonedWritableFile_wp : Z;
  ZonedWritableFile_buffered : bool;
  ZonedWritableFile_block_sz : Z;
  ZonedWritableFile_buffer_sz : Z;
  ZonedWritableFile_buffer_pos : Z;
  ZonedWritableFile_zoneFile_ : ZoneFile
}.

(** The constructor [ZonedWritableFile::ZonedWritableFile].  The reply
    taken when [buffered] is what [posix_memalign] returns. *)
Definition ZonedWritableFile_new (buffered : bool) (zoneFile : ZoneFile)
  : M ZonedWritableFile :=
  let wp := ZoneFile_GetFileSize zoneFile in
  assert (wp =? 0) ;;
  block_sz <- gets block_sz_ ;;
  let buffer_sz := u32 (block_sz * 256) in
  (if buffered then
     '(r, _) <- syscall_int ;;
     assert (r =? 0)                           (* buffer != nullptr *)
   else ret tt) ;;
  ret (mkZonedWritableFile wp buffered block_sz buffer_sz 0
         (ZoneFile_OpenWR zoneFile)).

(** [class ZonedSequentialFile] *)
Record ZonedSequentialFile : Type := mkZonedSequentialFile {
  ZonedSequentialFile_zoneFile_ : ZoneFile;
  ZonedSequentialFile_rp : Z;                  (* uint64_t *)
  ZonedSequentialFile_direct_ : bool
}.

(** [ZonedSequentialFile::Skip]; [n] is a [uint64_t]. *)
Definition ZonedSequentialFile_Skip (sf : ZonedSequentialFile) (n : Z)
  : IOStatus * ZonedSequentialFile :=
  if u64 (ZonedSequentialFile_rp sf + n)
     >=? ZoneFile_GetFileSize (ZonedSequentialFile_zoneFile_ sf)
  then (InvalidArgument, sf)
  else (OK, mkZonedSequentialFile (ZonedSequentialFile_zoneFile_ sf)
              (u64 (ZonedSequentialFile_rp sf + n))
              (ZonedSequentialFile_direct_ sf)).

(** ** The GC worker *)

(** [class ZenFSGCWorker]: the lists hold pointers.  [fs->files_], a
    map from names to files, is passed to the scan as the list of its
    files in the order of their names. *)
Record ZenFSGCWorker : Type := mkZenFSGCWorker {
  ZenFSGCWorker_extent_list : list nat;
  ZenFSGCWorker_dst_zone_list : list nat;
  ZenFSGCWorker_merge_zone_list : list nat;
  ZenFSGCWorker_zone_residue : gmap nat Z;
  ZenFSGCWorker_total_residue_ : Z;
  ZenFSGCWorker_files_moved_to_dst_zone : list ZoneFile
}.

Definition ZenFSGCWorker_set_extent_list (v : list nat) (gc : ZenFSGCWorker)
  : ZenFSGCWorker :=
  mkZenFSGCWorker v (ZenFSGCWorker_dst_zone_list gc) (ZenFSGCWorker_merge_zone_list gc)
    (ZenFSGCWorker_zone_residue gc) (ZenFSGCWorker_total_residue_ gc)
    (ZenFSGCWorker_files_moved_to_dst_zone gc).

(** The inner loop of [CheckZoneValidResidualData]: the extents of one
    file, up to the first whose zone is not full. *)
Fixpoint CheckZoneValidResidualData_extents (es : list nat) (gc : ZenFSGCWorker)
  : M ZenFSGCWorker :=
  match es with
  | [] => ret gc
  | e :: rest =>
      x <- getExtent e ;;
      match ZoneExtent_zone_ x with
      | None => undefined
      | Some z =>
          zn <- getZone z ;;
          if negb (Zone_IsFull zn) then ret gc
          else
            let residue := ZenFSGCWorker_zone_residue gc in
            CheckZoneValidResidualData_extents rest
              (mkZenFSGCWorker
                 (ZenFSGCWorker_extent_list gc ++ [e])
                 (ZenFSGCWorker_dst_zone_list gc)
                 (ZenFSGCWorker_merge_zone_list gc)
                 (<[z := u64 (default 0 (residue !! z) + ZoneExtent_length_ x)]> residue)
                 (u64 (ZenFSGCWorker_total_residue_ gc + ZoneExtent_length_ x))
                 (ZenFSGCWorker_files_moved_to_dst_zone gc))
      end
  end.

(** [ZenFSGCWorker::CheckZoneValidResidualData] *)
Fixpoint CheckZoneValidResidualData (files : list ZoneFile) (gc : ZenFSGCWorker)
  : M ZenFSGCWorker :=
  match files with
  | [] => ret gc
  | existFile :: rest =>
      gc <- CheckZoneValidResidualData_extents (ZoneFile_extents_ existFile) gc ;;
      CheckZoneValidResidualData rest
        (mkZenFSGCWorker
           (ZenFSGCWorker_extent_list gc)
           (ZenFSGCWorker_dst_zone_list gc)
           (ZenFSGCWorker_merge_zone_list gc)
           (ZenFSGCWorker_zone_residue gc)
           (ZenFSGCWorker_total_residue_ gc)
           (ZenFSGCWorker_files_moved_to_dst_zone gc ++ [existFile]))
  end.

(** [ZenFSGCWorker::ZoneResetToReclaim]: the status of a reset is
    dropped. *)
Definition ZoneResetToReclaim (gc : ZenFSGCWorker) : M unit :=
  forM_ (ZenFSGCWorker_merge_zone_list gc) (fun zone_idx =>
    Zone_Reset zone_idx ;; ret tt).

(** The [while (read < to_read)] loop of [ReadExtent]; every turn takes
    one reply, the result of [pread]. *)
Fixpoint ReadExtent_loop (fuel : nat) (read to_read : Z) : M IOStatus :=
  if negb (read <? to_read) then ret OK
  else
    match fuel with
    | O => blocked
    | S fuel =>
        '(r, errno) <- syscall_int ;;
        if (r =? -1) && (errno =? EINTR) then ReadExtent_loop fuel read to_read
        else if r <? 0 then ret IOError
        else ReadExtent_loop fuel (u64 (read + r)) to_read
    end.

(** [ZenFSGCWorker::ReadExtent], for a buffer of [to_read] bytes. *)
Definition ReadExtent (to_read read_pos : Z) (zone_src : option nat) : M IOStatus :=
  match zone_src with
  | None => undefined
  | Some zs =>
      zn <- getZone zs ;;
      if read_pos >=? Zone_wp_ zn then ret OK
      else if u64 (read_pos + to_read) >? u64 (Zone_start_ zn + Zone_max_capacity_ zn)
      then ret IOError
      else
        n <- gets (fun w => length (syscalls w)) ;;
        ReadExtent_loop n 0 to_read
  end.

(** Sorting by decreasing length, for the [std::sort] of
    [MoveValidDataToNewDestZone]; among extents of equal length, whose
    order [std::sort] leaves open, the earlier stays first. *)
Fixpoint insert_by_length (p : nat * Z) (l : list (nat * Z)) : list (nat * Z) :=
  match l with
  | [] => [p]
  | q :: rest =>
      if snd q <=? snd p then p :: q :: rest else q :: insert_by_length p rest
  end.

Definition sort_by_length (l : list (nat * Z)) : list (nat * Z) :=
  fold_right insert_by_length [] l.

Fixpoint extent_lengths (es : list nat) : M (list (nat * Z)) :=
  match es with
  | [] => ret []
  | e :: rest =>
      x <- getExtent e ;;
      l <- extent_lengths rest ;;
      ret ((e, ZoneExtent_length_ x) :: l)
  end.

Section MoveValidData.

(** [operator==] on [IOStatus] belongs to RocksDB and is not among the
    sources: it is a parameter. *)
Variable IOStatus_eq : IOStatus -> IOStatus -> bool.

(** The [for] loop of [MoveValidDataToNewDestZone]: [es] are the extents
    from [ext_it] on, [zone_it] is the position in [dst_zone_list].
    Every turn either moves to the next extent, moves to the next
    destination zone, or returns; [fuel] bounds the turns. *)
Fixpoint MoveValidDataToNewDestZone_loop (fuel : nat) (dst_zone_list : list nat)
         (es : list nat) (zone_it : nat) (dont_read : bool) : M IOStatus :=
  match es with
  | [] => ret OK
  | ext :: rest =>
      match fuel with
      | O => blocked
      | S fuel =>
          match dst_zone_list !! zone_it with
          | None => undefined
          | Some zone_dst =>
              x <- getExtent ext ;;
              let r_pos := ZoneExtent_start_ x in
              let size := ZoneExtent_length_ x in
              s <- (if negb dont_read
                    then ReadExtent size r_pos (ZoneExtent_zone_ x)
                    else ret OK) ;;
              if negb (IOStatus_ok s) then ret s
              else
                zn <- getZone zone_dst ;;
                let new_start := Zone_wp_ zn in
                s <- Zone_Append zone_dst size ;;
                if IOStatus_ok s then
                  putExtent ext (mkZoneExtent new_start (ZoneExtent_length_ x)
                                              (Some zone_dst)) ;;
                  MoveValidDataToNewDestZone_loop fuel dst_zone_list rest zone_it false
                else
                  let '(dont_read, zone_it) :=
                    if IOStatus_eq s NoSpace then (true, S zone_it)
                    else (dont_read, zone_it) in
                  if IOStatus_eq s IOError then ret s
                  else MoveValidDataToNewDestZone_loop fuel dst_zone_list
                         (ext :: rest) zone_it dont_read
          end
      end
  end.

(** [ZenFSGCWorker::MoveValidDataToNewDestZone].  The reply taken first
    is what [posix_memalign] returns. *)
Definition MoveValidDataToNewDestZone (fuel : nat) (gc : ZenFSGCWorker)
  : M (IOStatus * ZenFSGCWorker) :=
  l <- extent_lengths (ZenFSGCWorker_extent_list gc) ;;
  let gc := ZenFSGCWorker_set_extent_list (map fst (sort_by_length l)) gc in
  match ZenFSGCWorker_extent_list gc with
  | [] => undefined                            (* extent_list[0] *)
  | _ :: _ =>
      '(r, _) <- syscall_int ;;
      if negb (r =? 0) then ret (IOError, gc)
      else
        s <- MoveValidDataToNewDestZone_loop fuel (ZenFSGCWorker_dst_zone_list gc)
               (ZenFSGCWorker_extent_list gc) 0 false ;;
        ret (s, gc)
  end.

End MoveValidData.

(** ** Accounting of live data *)

(** The sum of the lengths of the live extents that point at zone
    [z]. *)
Definition extents_in_zone (w : World) (z : nat) : Z :=
  fold_right Z.add 0
    (map (fun oe =>
            match oe with
            | Some e => if bool_decide (ZoneExtent_zone_ e = Some z)
                        then ZoneExtent_length_ e else 0
            | None => 0
            end)
         (extents w)).

(** [used_capacity_] of every zone is the sum of the lengths of the
    live extents that point at it (in 64 bits). *)
Definition used_capacity_invariant (w : World) : Prop :=
  forall (z : nat) (zn : Zone),
    zones w !! z = Some zn ->
    Zone_used_capacity_ zn = u64 (extents_in_zone w z).

(** The same, as a test over the zone store. *)
Definition used_capacity_invariantb (w : World) : bool :=
  forallb (fun z =>
             match zones w !! z with
             | Some zn => Zone_used_capacity_ zn =? u64 (extents_in_zone w z)
             | None => true
             end)
          (seq 0 (length (zones w))).

(** [used_capacity_] of all zones, in the order of the store. *)
Definition used_capacities (w : World) : list Z :=
  map Zone_used_capacity_ (zones w).

(** A computation that, whenever it returns, leaves [used_capacity_] of
    every zone as it was. *)
Definition keeps_used_capacity {A : Type} (m : M A) : Prop :=
  forall (w w' : World) (a : A),
    m w = Val a w' -> used_capacities w' = used_capacities w.

(** ** Well-formed stores and sums of extent lengths *)

(** Every live extent of the store holds a 64-bit start and a 32-bit
    length. *)
Definition extents_wf (w : World) : Prop :=
  forall (e : nat) (x : ZoneExtent),
    extents w !! e = Some (Some x) -> ZoneExtent_wf x.

(** The length of the extent behind the pointer [e] (0 for a pointer
    that leads nowhere). *)
Definition extent_length (w : World) (e : nat) : Z :=
  match extents w !! e with
  | Some (Some x) => ZoneExtent_length_ x
  | _ => 0
  end.

(** The lengths of the extents [es] added up. *)
Definition lengths_sum (w : World) (es : list nat) : Z :=
  fold_right Z.add 0 (map (extent_length w) es).

(** The zone [zn] of size [zone_sz] holds the device offset
    [offset], as [GetIOZone] tests it. *)
Definition zone_holds (zone_sz : Z) (zn : Zone) (offset : Z) : Prop :=
  Zone_start_ zn <= offset < u64 (Zone_start_ zn + zone_sz).

(** ** Frames *)

(** A computation that, whenever it returns, leaves the part [proj] of
    the world as it was. *)
Definition keeps {A T : Type} (proj : World -> T) (m : M A) : Prop :=
  forall (w w' : World) (a : A), m w = Val a w' -> proj w' = proj w.

(** What an entry of the extent store adds to the live bytes of zone
    [z]. *)
Definition extent_weight (z : nat) (oe : option ZoneExtent) : Z :=
  match oe with
  | Some e => if bool_decide (ZoneExtent_zone_ e = Some z)
              then ZoneExtent_length_ e else 0
  | None => 0
  end.

Definition sumZ (l : list Z) : Z := fold_right Z.add 0 l.

(** What [~ZoneFile] does for one extent of the file. *)
Definition ZoneFile_destroy_extent (e : nat) : M unit :=
  x <- getExtent e ;;
  match ZoneExtent_zone_ x with
  | None => assert false
  | Some z =>
      zn <- getZone z ;;
      assert (Zone_used_capacity_ zn >=? ZoneExtent_length_ x) ;;
      modZone z (fun zn =>
        Zone_set_used_capacity_
          (u64 (Zone_used_capacity_ zn - ZoneExtent_length_ x)) zn) ;;
      delete_ZoneExtent e
  end.

(** A field of every zone, in the order of the zone store. *)
Definition zone_fields {T : Type} (g : Zone -> T) (w : World) : list T :=
  map g (zones w).

(** Which zones are open for writing. *)
Definition open_flags : World -> list bool := zone_fields Zone_open_for_write_.

(** The zone and the slot of a queued job. *)
Definition Job_zone (j : Job) : nat :=
  match j with ResetJob z _ | FinishJob z _ => z end.

Definition Job_slot (j : Job) : nat :=
  match j with ResetJob _ slot | FinishJob _ slot => slot end.

(** [zn'] is [zn], or [zn] newly marked as being processed in the
    background. *)
Definition bg_marked (zn zn' : Zone) : Prop :=
  zn' = zn
  \/ (Zone_bg_processing zn = false /\ zn' = Zone_set_bg_processing true zn).

(** The job [j] was rightly queued between [w] and [w']: its zone sat
    in its slot, closed, not empty and not yet queued; it is marked now; a
    reset is for a zone without live data, a finish for a zone with live
    data and less capacity left than the threshold. *)
Definition rightly_queued (w w' : World) (j : Job) : Prop :=
  exists zn,
    active_zones_ w !! Job_slot j = Some (Some (Job_zone j))
    /\ zones w !! Job_zone j = Some zn
    /\ Zone_bg_processing zn = false
    /\ Zone_open_for_write_ zn = false
    /\ Zone_IsEmpty zn = false
    /\ zones w' !! Job_zone j = Some (Zone_set_bg_processing true zn)
    /\ match j with
       | ResetJob _ _ => Zone_IsUsed zn = false
       | FinishJob _ _ =>
           Zone_used_capacity_ zn > 0
           /\ Zone_IsFull zn = false
           /\ Zone_capacity_ zn
              < u64 (Zone_max_capacity_ zn * finish_threshold_ w) / 100
       end.

(** The zone after a successful [Zone::Reset], given what the device
    reports: whether the zone is offline, and its capacity. *)
Definition Zone_after_Reset (offline : bool) (cap : Z) (zn : Zone) : Zone :=
  let zn := if offline then Zone_set_capacity_ 0 zn
            else Zone_set_max_capacity_ cap (Zone_set_capacity_ cap zn) in
  Zone_set_lifetime_ WLTH_NOT_SET (Zone_set_wp_ (Zone_start_ zn) zn).

(** What a write to a zone leaves alone: where the zone begins, how
    large it is, its live data, its life time hint and flags, and where it
    ends, that is [wp_ + capacity_]. *)
Definition Zone_geometry (zn : Zone)
  : Z * Z * Z * WriteLifeTimeHint * bool * bool * Z :=
  (Zone_start_ zn, Zone_max_capacity_ zn, Zone_used_capacity_ zn,
   Zone_lifetime_ zn, Zone_open_for_write_ zn, Zone_bg_processing zn,
   u64 (Zone_wp_ zn + Zone_capacity_ zn)).

(** What the allocator has no business with: where a zone is, what was
    written to it and what is live in it. *)
Definition Zone_core (zn : Zone) : Z * Z * Z * Z * Z * Z * Z :=
  (Zone_start_ zn, Zone_max_capacity_ zn, Zone_capacity_ zn, Zone_wp_ zn,
   Zone_used_capacity_ zn, Zone_inflight zn, Zone_nbytes zn).

Definition alloc_frame (w : World)
  : list (Z * Z * Z * Z * Z * Z * Z) * list (option ZoneExtent)
    * list (option nat) * list SysReply * (Z * Z * Z) :=
  (zone_fields Zone_core w, extents w, io_zones_ w, syscalls w,
   (finish_threshold_ w, zone_sz_ w, block_sz_ w)).

(** No zone has a negative capacity. *)
Definition caps_nonneg (w : World) : Prop :=
  Forall (fun c => 0 <= c) (zone_fields Zone_capacity_ w).

(** ** [ZonedWritableFile]: the buffered write path

    The members are declared in [io_zenfs.h], which is not among the
    sources; they are read with the widths ZenFS gives them: [wp] has 64
    bits, [block_sz] and [buffer_pos] have 32.  The locals have the widths
    that [io_zenfs.cc] declares.  What is in the buffer is not modelled,
    only how full it is.  The section variables are those of
    [ZoneFile_Append]. *)

Section ZonedWritableFileWrite.

Variable default_is_wal : bool.
Variable default_full_zone : option nat.
Variable alloc_fuel fuel : nat.

Definition ZonedWritableFile_set_zoneFile_ (f : ZoneFile) (wf : ZonedWritableFile)
  : ZonedWritableFile :=
  mkZonedWritableFile (ZonedWritableFile_wp wf) (ZonedWritableFile_buffered wf)
    (ZonedWritableFile_block_sz wf) (ZonedWritableFile_buffer_sz wf)
    (ZonedWritableFile_buffer_pos wf) f.

Definition ZonedWritableFile_set_wp (wp : Z) (wf : ZonedWritableFile)
  : ZonedWritableFile :=
  mkZonedWritableFile wp (ZonedWritableFile_buffered wf)
    (ZonedWritableFile_block_sz wf) (ZonedWritableFile_buffer_sz wf)
    (ZonedWritableFile_buffer_pos wf) (ZonedWritableFile_zoneFile_ wf).

Definition ZonedWritableFile_set_buffer_pos (pos : Z) (wf : ZonedWritableFile)
  : ZonedWritableFile :=
  mkZonedWritableFile (ZonedWritableFile_wp wf) (ZonedWritableFile_buffered wf)
    (ZonedWritableFile_block_sz wf) (ZonedWritableFile_buffer_sz wf)
    pos (ZonedWritableFile_zoneFile_ wf).

(** [zoneFile_->Append(data, data_size, valid_size)] through the
    adapter's pointer. *)
Definition ZonedWritableFile_file_Append (wf : ZonedWritableFile)
           (data_size valid_size : Z) : M (IOStatus * ZonedWritableFile) :=
  '(s, f) <- ZoneFile_Append default_is_wal default_full_zone alloc_fuel fuel
               (ZonedWritableFile_zoneFile_ wf) data_size valid_size ;;
  ret (s, ZonedWritableFile_set_zoneFile_ f wf).

(** [ZonedWritableFile::FlushBuffer] *)
Definition ZonedWritableFile_FlushBuffer (wf : ZonedWritableFile)
  : M (IOStatus * ZonedWritableFile) :=
  let buffer_pos := ZonedWritableFile_buffer_pos wf in
  let block_sz := ZonedWritableFile_block_sz wf in
  if buffer_pos =? 0 then ret (OK, wf)
  else if block_sz =? 0 then undefined
  else
    let align := buffer_pos mod block_sz in
    let pad_sz := if negb (align =? 0) then u32 (block_sz - align) else 0 in
    let wr_sz := u32 (buffer_pos + pad_sz) in
    '(s, wf) <- ZonedWritableFile_file_Append wf (to_int wr_sz) (to_int buffer_pos) ;;
    if negb (IOStatus_ok s) then ret (s, wf)
    else
      ret (OK, ZonedWritableFile_set_buffer_pos 0
                 (ZonedWritableFile_set_wp
                    (u64 (ZonedWritableFile_wp wf + buffer_pos)) wf)).

(** [ZonedWritableFile::BufferedWrite], from [if (buffer_pos ==
    buffer_sz)] on: the full buffer is flushed, whole blocks of a large
    rest are written directly, and what is left goes to the buffer.  The
    reply taken before the direct write is what [posix_memalign]
    returns. *)
Definition ZonedWritableFile_BufferedWrite_rest (wf : ZonedWritableFile)
           (data_left : Z) : M (IOStatus * ZonedWritableFile) :=
  '(s, wf) <- (if ZonedWritableFile_buffer_pos wf =? ZonedWritableFile_buffer_sz wf
               then ZonedWritableFile_FlushBuffer wf
               else ret (OK, wf)) ;;
  if negb (IOStatus_ok s) then ret (s, wf)
  else
    let buffer_sz := ZonedWritableFile_buffer_sz wf in
    let block_sz := ZonedWritableFile_block_sz wf in
    '(es, wf, data_left) <-
       (if data_left >=? buffer_sz then
          if block_sz =? 0 then undefined
          else
            let blocks := to_int (data_left / block_sz) in
            let aligned_sz := to_int (u32 (block_sz * blocks)) in
            '(r, _) <- syscall_int ;;
            if negb (r =? 0) then ret (Some IOError, wf, data_left)
            else
              '(s, wf) <- ZonedWritableFile_file_Append wf aligned_sz aligned_sz ;;
              if negb (IOStatus_ok s) then ret (Some s, wf, data_left)
              else
                ret (None,
                     ZonedWritableFile_set_wp
                       (u64 (ZonedWritableFile_wp wf + aligned_sz)) wf,
                     u32 (data_left - aligned_sz))
        else ret (None, wf, data_left)) ;;
    match es with
    | Some s => ret (s, wf)
    | None =>
        ret (OK, if negb (data_left =? 0)
                 then ZonedWritableFile_set_buffer_pos data_left wf
                 else wf)
    end.

(** [ZonedWritableFile::BufferedWrite], for a slice of [size] bytes
    ([size_t]). *)
Definition ZonedWritableFile_BufferedWrite (wf : ZonedWritableFile) (size : Z)
  : M (IOStatus * ZonedWritableFile) :=
  let buffer_left :=
    u32 (ZonedWritableFile_buffer_sz wf - ZonedWritableFile_buffer_pos wf) in
  let data_left := u32 size in
  if negb (ZonedWritableFile_buffer_pos wf =? 0) || (data_left <=? buffer_left) then
    let tobuffer := if data_left <? buffer_left then data_left else buffer_left in
    let wf := ZonedWritableFile_set_buffer_pos
                (u32 (ZonedWritableFile_buffer_pos wf + tobuffer)) wf in
    let data_left := u32 (data_left - tobuffer) in
    if data_left =? 0 then ret (OK, wf)
    else ZonedWritableFile_BufferedWrite_rest wf data_left
  else ZonedWritableFile_BufferedWrite_rest wf data_left.

(** [ZonedWritableFile::Append], for a slice of [size] bytes. *)
Definition ZonedWritableFile_Append (wf : ZonedWritableFile) (size : Z)
  : M (IOStatus * ZonedWritableFile) :=
  if ZonedWritableFile_buffered wf then ZonedWritableFile_BufferedWrite wf size
  else
    '(s, wf) <- ZonedWritableFile_file_Append wf (to_int (u32 size)) (to_int (u32 size)) ;;
    if IOStatus_ok s
    then ret (s, ZonedWritableFile_set_wp (u64 (ZonedWritableFile_wp wf + size)) wf)
    else ret (s, wf).

End ZonedWritableFileWrite.

(** The state of a writable file between calls: the buffer holds 256
    blocks and is filled to [buffer_pos]; [wp] counts the bytes handed to
    the file, and is the size of the file. *)
Definition ZonedWritableFile_ok (wf : ZonedWritableFile) : Prop :=
  0 < ZonedWritableFile_block_sz wf
  /\ ZonedWritableFile_buffer_sz wf = 256 * ZonedWritableFile_block_sz wf
  /\ ZonedWritableFile_buffer_sz wf < 2 ^ 31
  /\ 0 <= ZonedWritableFile_buffer_pos wf <= ZonedWritableFile_buffer_sz wf
  /\ 0 <= ZonedWritableFile_wp wf < 2 ^ 64
  /\ ZoneFile_fileSize (ZonedWritableFile_zoneFile_ wf) = ZonedWritableFile_wp wf.

(** ** Reading a zone file *)

(** The [while (read != r_sz)] loop of [ZoneFile::PositionedRead].  The
    buffer is not modelled; the result is the last value of [r] and the
    number of bytes read.  Every turn takes the reply of one [pread]. *)
Fixpoint ZoneFile_PositionedRead_loop (fuel : nat) (f : ZoneFile)
         (offset r_sz read r_off extent_end r : Z) : M (Z * Z) :=
  if read =? r_sz then ret (r, read)
  else
    match fuel with
    | O => blocked
    | S fuel =>
        let pread_sz := u64 (r_sz - read) in
        let pread_sz := if u64 (pread_sz + r_off) >? extent_end
                        then u64 (extent_end - r_off) else pread_sz in
        block_sz <- gets block_sz_ ;;
        if block_sz =? 0 then undefined        (* pread_sz % GetBlockSize() *)
        else
          '(r, errno) <- syscall_int ;;        (* pread *)
          if r <=? 0 then
            if (r =? -1) && (errno =? EINTR)
            then ZoneFile_PositionedRead_loop fuel f offset r_sz read r_off
                                              extent_end r
            else ret (r, read)
          else
            let read := u64 (read + r) in
            let r_off := u64 (r_off + r) in
            if negb (read =? r_sz) && (r_off =? extent_end) then
              ox <- ZoneFile_GetExtent f (u64 (offset + read)) ;;
              match ox with
              | None => ret (r, read)
              | Some (e, _) =>
                  x <- getExtent e ;;
                  let r_off := ZoneExtent_start_ x in
                  let extent_end :=
                    u64 (ZoneExtent_start_ x + ZoneExtent_length_ x) in
                  assert (r_off mod block_sz =? 0) ;;
                  ZoneFile_PositionedRead_loop fuel f offset r_sz read r_off
                                                extent_end r
              end
            else ZoneFile_PositionedRead_loop fuel f offset r_sz read r_off
                                               extent_end r
    end.

(** The number of bytes [ZoneFile::PositionedRead] sets out to read. *)
Definition ZoneFile_PositionedRead_size (f : ZoneFile) (offset n : Z) : Z :=
  if u64 (offset + n) >? ZoneFile_fileSize f
  then u64 (ZoneFile_fileSize f - offset) else n.

(** [ZoneFile::PositionedRead]: the status and the size of the slice
    returned. *)
Definition ZoneFile_PositionedRead (f : ZoneFile) (offset n : Z) : M (IOStatus * Z) :=
  if offset >=? ZoneFile_fileSize f then ret (OK, 0)
  else
    ox <- ZoneFile_GetExtent f offset ;;
    match ox with
    | None => ret (OK, 0)
    | Some (e, r_off) =>
        x <- getExtent e ;;
        let extent_end := u64 (ZoneExtent_start_ x + ZoneExtent_length_ x) in
        let r_sz := ZoneFile_PositionedRead_size f offset n in
        fuel <- gets (fun w => length (syscalls w)) ;;
        '(r, read) <- ZoneFile_PositionedRead_loop fuel f offset r_sz 0 r_off
                        extent_end 0 ;;
        if r <? 0 then ret (IOError, 0) else ret (OK, read)
    end.

(** [ZonedSequentialFile::Read]: the status, the size of the slice and
    the reader after the call. *)
Definition ZonedSequentialFile_Read (sf : ZonedSequentialFile) (n : Z)
  : M (IOStatus * Z * ZonedSequentialFile) :=
  '(s, size) <- ZoneFile_PositionedRead (ZonedSequentialFile_zoneFile_ sf)
                  (ZonedSequentialFile_rp sf) n ;;
  if IOStatus_ok s
  then ret (s, size,
            mkZonedSequentialFile (ZonedSequentialFile_zoneFile_ sf)
              (u64 (ZonedSequentialFile_rp sf + size))
              (ZonedSequentialFile_direct_ sf))
  else ret (s, size, sf).

(** No [pread] to come returns more bytes than are still wanted. *)
Fixpoint reads_within (left : Z) (script : list SysReply) : bool :=
  match script with
  | Ret r :: rest => (r <=? 0) || ((r <=? left) && reads_within (left - r) rest)
  | Fail _ :: rest => reads_within left rest
  | _ => true
  end.

(** What [ResetUnusedIOZones] does for one entry of [io_zones_]. *)
Definition ResetUnusedIOZones_zone (oz : option nat) : M unit :=
  match oz with
  | None => undefined
  | Some z =>
      zn <- getZone z ;;
      if negb (Zone_IsUsed zn) && negb (Zone_IsEmpty zn) then
        (if negb (Zone_IsFull zn)
         then modify (fun w => set_active_io_zones_ (active_io_zones_ w - 1) w)
         else ret tt) ;;
        Zone_Reset z ;;
        ret tt
      else ret tt
  end.

(** The extent [e] lies in a zone that is full. *)
Definition in_full_zone (w : World) (e : nat) : bool :=
  match extents w !! e with
  | Some (Some x) =>
      match ZoneExtent_zone_ x with
      | Some z =>
          match zones w !! z with
          | Some zn => Zone_IsFull zn
          | None => false
          end
      | None => false
      end
  | _ => false
  end.

(** The extents of a list up to the first that is not in a full zone. *)
Fixpoint full_prefix (w : World) (es : list nat) : list nat :=
  match es with
  | [] => []
  | e :: rest => if in_full_zone w e then e :: full_prefix w rest else []
  end.

(** The lengths of the extents in the store. *)
Definition extent_sizes (w : World) : list (option Z) :=
  map (option_map ZoneExtent_length_) (extents w).

(** Every extent of the file [f] is in the store, and their lengths
    add up to the part of the file that is covered by extents. *)
Definition ZoneFile_extents_ok (w : World) (f : ZoneFile) : Prop :=
  Forall (fun e => exists x, extents w !! e = Some (Some x)) (ZoneFile_extents_ f)
  /\ lengths_sum w (ZoneFile_extents_ f) = ZoneFile_extent_filepos_ f.

(** * Scenarios *)

(** A zone of capacity 4096 in a device zone of size 8192 (the capacity
    of a zone can be smaller than its size, as on ZNS devices), written
    up to 1024 and not open for write; the device accepts the next
    request. *)
Definition finish_zone : Zone :=
  mkZone 0 4096 3072 1024 WLTH_SHORT 1024 false false 0 0.

Definition finish_world : World :=
  mkWorld [finish_zone] [] [Some 0%nat] [Some 0%nat] 1 0 0 0 8192 512 [] [Ret 0].

(** An empty zone of 8 GiB, open for write, and an append of 1 GiB to
    it.  The first [pwrite] is short (512 MiB); the following ones, each
    asked for the whole 1 GiB again, write 1 GiB four times and then
    512 MiB.  Every reply is a legal result of [pwrite(fd, ptr, size, wp_)]:
    between 0 and [size]. *)
Definition append_size : Z := 2 ^ 30.

Definition append_zone : Zone :=
  mkZone 0 (2 ^ 33) (2 ^ 33) 0 WLTH_SHORT 0 true false 0 0.

Definition append_replies : list SysReply :=
  [Ret (2 ^ 29); Ret (2 ^ 30); Ret (2 ^ 30); Ret (2 ^ 30); Ret (2 ^ 30); Ret (2 ^ 29)].

Definition append_world : World :=
  mkWorld [append_zone] [] [Some 0%nat] [Some 0%nat] 1 0 0 0 (2 ^ 33) 4096 []
          append_replies.

(** Three empty data zones of 8192 bytes behind the four metadata zones,
    four slots for active zones, all free; no zone holds live data, so
    the search by life time hint finds nothing and the allocator falls
    back on an empty zone. *)
Definition empty_zone (start : Z) : Zone :=
  mkZone start 8192 8192 start WLTH_NOT_SET 0 false false 0 0.

Definition alloc_world : World :=
  mkWorld [empty_zone 32768; empty_zone 40960; empty_zone 49152] []
          [Some 0%nat; Some 1%nat; Some 2%nat]
          [None; None; None; None] 0 0 0 10 8192 4096 [] [].

(** The life time hints of all zones, in the order of the store. *)
Definition lifetimes (w : World) : list WriteLifeTimeHint :=
  map Zone_lifetime_ (zones w).

(** A new file with the hint MEDIUM, and the device ready to take the
    8192 bytes of its first write. *)
Definition cross_file : ZoneFile :=
  ZoneFile_set_lifetime_ WLTH_MEDIUM (ZoneFile_new "F" 1).

Definition cross_world : World := set_syscalls [Ret 8192] alloc_world.

(** The GC scenario.  The data zones are 16384 bytes each.  Zones 0
    and 1 are full; zones 2 and 3 are empty.  File A has one live extent
    of 4096 bytes in zone 0 (the rest of the zone is dead), file B has
    one of 8192 bytes in zone 1; [used_capacity_] of every zone is the
    sum of the extents that point at it.  The worker is given the two
    empty zones as destinations and the two full zones to reset; zone 2
    has room for both extents. *)
Definition gc_full_zone (start used : Z) : Zone :=
  mkZone start 16384 0 (start + 16384) WLTH_MEDIUM used false false 0 0.

Definition gc_empty_zone (start : Z) : Zone :=
  mkZone start 16384 16384 start WLTH_NOT_SET 0 false false 0 0.

Definition gc_file_A : ZoneFile :=
  mkZoneFile None 0 0 WLTH_MEDIUM 4096 "A" 1 1 0 false [0%nat].

Definition gc_file_B : ZoneFile :=
  mkZoneFile None 0 0 WLTH_MEDIUM 8192 "B" 2 1 0 false [1%nat].

Definition gc_world : World :=
  mkWorld [gc_full_zone 65536 4096; gc_full_zone 81920 8192;
           gc_empty_zone 98304; gc_empty_zone 114688]
          [Some (mkZoneExtent 65536 4096 (Some 0%nat));
           Some (mkZoneExtent 81920 8192 (Some 1%nat))]
          [Some 0%nat; Some 1%nat; Some 2%nat; Some 3%nat]
          [None; None; None; None] 0 0 0 10 16384 4096 []
          [Ret 0;                              (* posix_memalign *)
           Ret 8192; Ret 8192;                 (* B: pread, pwrite *)
           Ret 4096; Ret 4096].                (* A: pread, pwrite *)

Definition gc_worker : ZenFSGCWorker :=
  mkZenFSGCWorker [] [2%nat; 3%nat] [0%nat; 1%nat] ∅ 0 [].

(** The scan followed by the relocation. *)
Definition gc_scan_and_move (IOStatus_eq : IOStatus -> IOStatus -> bool)
  : M (IOStatus * ZenFSGCWorker) :=
  gc <- CheckZoneValidResidualData [gc_file_A; gc_file_B] gc_worker ;;
  MoveValidDataToNewDestZone IOStatus_eq 4 gc.

(** A file of 10 bytes opened for sequential reading, at its start. *)
Definition skip_file : ZoneFile :=
  mkZoneFile None 0 0 WLTH_NOT_SET 10 "S" 3 0 0 false [].

Definition skip_reader : ZonedSequentialFile :=
  mkZonedSequentialFile skip_file 0 false.

(** A file that already holds 4096 bytes. *)
Definition written_file : ZoneFile :=
  mkZoneFile None 0 0 WLTH_NOT_SET 4096 "W" 4 1 0 false [0%nat].

(** A zone written up to 4096 bytes whose data is all dead: not in use,
    not open.  The device accepts the reset and reports the zone with a
    capacity of 8192. *)
Definition reset_zone : Zone :=
  mkZone 32768 8192 4096 36864 WLTH_LONG 0 false false 0 0.

Definition reset_world : World :=
  mkWorld [reset_zone] [] [Some 0%nat] [None; None; Some 0%nat; None] 1 0 0 10
          8192 4096 [] [Ret 0; Report 0 1 false 8192].

(** An open zone with 4096 bytes written and one asynchronous write of
    4096 bytes in flight; the device reports the write as complete. *)
Definition inflight_zone : Zone :=
  mkZone 32768 8192 0 40960 WLTH_SHORT 0 true false 4096 4096.

Definition inflight_world : World :=
  mkWorld [inflight_zone] [] [Some 0%nat] [None; None; Some 0%nat; None] 1 0 0 10
          8192 4096 [] [Ret 1; Ret 4096].

(** An open, half-written zone with nothing in flight; the device
    accepts what it is asked. *)
Definition open_zone : Zone :=
  mkZone 32768 8192 4096 36864 WLTH_SHORT 0 true false 0 0.

Definition open_world : World :=
  mkWorld [open_zone] [] [Some 0%nat] [None; None; Some 0%nat; None] 1 0 0 10
          8192 4096 [] [Ret 0; Ret 0].

(** A file that has written 4096 bytes to the open zone of
    [open_world] and has not pushed them yet. *)
Definition push_file : ZoneFile :=
  mkZoneFile (Some 0%nat) 32768 0 WLTH_SHORT 4096 "P" 7 0 0 true [].

(** The metadata update for file A of the GC scenario: one more extent,
    which is the second extent of the store. *)
Definition update_file : ZoneFile :=
  mkZoneFile None 0 0 WLTH_LONG 12288 "A2" 1 0 7 false [1%nat].

(** A device with blocks of 16 bytes and three empty zones of 8192
    bytes; it takes every write whole.  The replies are, in order: the
    [pwrite] of the flushed buffer, [posix_memalign], and the [pwrite] of
    the blocks written directly. *)
Definition buffer_world : World :=
  mkWorld [empty_zone 32768; empty_zone 40960; empty_zone 49152] []
          [Some 0%nat; Some 1%nat; Some 2%nat]
          [None; None; None; None] 0 0 0 10 8192 16 []
          [Ret 4096; Ret 0; Ret 4096].

(** A buffered writable file over a new file, with 4000 of the 4096
    bytes of its buffer filled. *)
Definition buffered_file : ZonedWritableFile :=
  mkZonedWritableFile 0 true 16 4096 4000 (ZoneFile_OpenWR cross_file).

(** A file of 12288 bytes over both extents of the GC scenario, and a
    reader of it at position 8000. *)
Definition read_file : ZoneFile :=
  mkZoneFile None 0 0 WLTH_MEDIUM 12288 "R" 3 2 0 false [0%nat; 1%nat].

Definition read_reader : ZonedSequentialFile :=
  mkZonedSequentialFile read_file 8000 false.

(** The device returns the first extent in two parts, with an
    interrupted call in between, and then 1000 bytes of the second. *)
Definition read_world : World :=
  set_syscalls [Ret 2000; Fail EINTR; Ret 2096; Ret 1000] gc_world.

(** Three zones: one with live data, one empty, and one written to but
    without live data, which the device resets when asked. *)
Definition unused_world : World :=
  mkWorld [gc_full_zone 65536 4096; gc_empty_zone 81920; reset_zone]
          [Some (mkZoneExtent 65536 4096 (Some 0%nat))]
          [Some 0%nat; Some 1%nat; Some 2%nat]
          [None; None; Some 2%nat; None] 1 0 0 10 16384 4096 []
          [Ret 0; Report 0 1 false 8192].

(** Equality of status codes, for the runs of the relocation. *)
Definition IOStatus_same (a b : IOStatus) : bool :=
  match a, b with
  | OK, OK | NoSpace, NoSpace | IOError, IOError
  | InvalidArgument, InvalidArgument | Corruption, Corruption
  | NotSupported, NotSupported => true
  | _, _ => false
  end.

(** A file with one extent of 4096 bytes in zone 0 of [pushed_world]
    and 4096 more bytes written behind it, not yet pushed. *)
Definition pushed_world : World :=
  mkWorld [mkZone 32768 8192 0 40960 WLTH_SHORT 4096 true false 0 0]
          [Some (mkZoneExtent 32768 4096 (Some 0%nat))]
          [Some 0%nat] [None; None; Some 0%nat; None] 1 0 0 10 8192 4096 [] [].

Definition pushed_file : ZoneFile :=
  mkZoneFile (Some 0%nat) 36864 4096 WLTH_SHORT 8192 "P" 7 1 0 true [0%nat].

(** * Properties *)

Section Codec.

Lemma le_combine_split_small (n : nat) (v : Z) :
  0 <= v < 2 ^ (Z.of_nat n * 8) -> le_combine (le_split n v) = v.
Proof.
  intros Hv. rewrite le_combine_split. apply Z.mod_small. exact Hv.
Qed.

Lemma firstn_le_split_app (n : nat) (v : Z) (rest : list byte) :
  firstn n (le_split n v ++ rest) = le_split n v.
Proof.
  rewrite firstn_app, length_le_split, Nat.sub_diag.
  rewrite firstn_all2 by (rewrite length_le_split; lia).
  simpl. apply app_nil_r.
Qed.

Lemma skipn_le_split_app (n : nat) (v : Z) (rest : list byte) :
  skipn n (le_split n v ++ rest) = rest.
Proof.
  rewrite skipn_app, length_le_split, Nat.sub_diag.
  rewrite skipn_all2 by (rewrite length_le_split; lia).
  reflexivity.
Qed.

Lemma ZoneExtent_EncodeTo_app (e : ZoneExtent) (output : list byte) :
  ZoneExtent_EncodeTo e output
  = output ++ le_split 8 (ZoneExtent_start_ e) ++ le_split 4 (ZoneExtent_length_ e).
Proof.
  unfold ZoneExtent_EncodeTo, PutFixed32, PutFixed64.
  rewrite <- app_assoc. reflexivity.
Qed.

End Codec.

(** C5. [ZoneExtent::EncodeTo] appends exactly 12 bytes to its output,
    the 8 bytes of [start_] least significant first and then the 4 bytes
    of [length_]; [ZoneExtent::DecodeFrom] on those 12 bytes returns OK,
    consumes them all and yields the same [start_] and [length_]
    (whatever the extent held before; [zone_] is not encoded and is left
    alone); and on any input whose size is not 12 it returns Corruption
    and changes nothing. *)
Theorem C5_extent_codec_roundtrip (e old : ZoneExtent) (output input : list byte) :
  ZoneExtent_wf e ->
  ZoneExtent_EncodeTo e output
  = output ++ le_split 8 (ZoneExtent_start_ e) ++ le_split 4 (ZoneExtent_length_ e)
  /\ length (ZoneExtent_EncodeTo e output) = (length output + 12)%nat
  /\ ZoneExtent_DecodeFrom old (ZoneExtent_EncodeTo e [])
     = (OK, [],
        mkZoneExtent (ZoneExtent_start_ e) (ZoneExtent_length_ e)
                     (ZoneExtent_zone_ old))
  /\ (length input <> 12%nat ->
      ZoneExtent_DecodeFrom old input = (Corruption, input, old)).
Proof.
  intros [Hs Hl].
  split; [apply ZoneExtent_EncodeTo_app|].
  split.
  { rewrite ZoneExtent_EncodeTo_app, !length_app, !length_le_split. reflexivity. }
  split.
  - rewrite ZoneExtent_EncodeTo_app, app_nil_l.
    unfold ZoneExtent_DecodeFrom.
    rewrite length_app, !length_le_split. simpl negb. cbv iota.
    unfold GetFixed64. rewrite length_app, !length_le_split.
    change (8 + 4 <? 8)%nat with false. cbv iota.
    rewrite firstn_le_split_app, skipn_le_split_app.
    unfold GetFixed32. rewrite length_le_split.
    change (4 <? 4)%nat with false. cbv iota.
    rewrite <- (app_nil_r (le_split 4 _)).
    rewrite firstn_le_split_app, skipn_le_split_app.
    rewrite !le_combine_split_small by (simpl; lia).
    reflexivity.
  - intros Hlen. unfold ZoneExtent_DecodeFrom.
    destruct (Nat.eqb_spec (length input) (8 + 4)) as [E|E]; [simpl in E; lia|].
    reflexivity.
Qed.

(** The round trip of C5 at the extent [(4096, 8192)] of zone 0. *)
Lemma C5_extent_codec_roundtrip_witness :
  ZoneExtent_wf (mkZoneExtent 4096 8192 (Some 0%nat))
  /\ ZoneExtent_DecodeFrom (mkZoneExtent 0 0 None)
       (ZoneExtent_EncodeTo (mkZoneExtent 4096 8192 (Some 0%nat)) [])
     = (OK, [], mkZoneExtent 4096 8192 None).
Proof.
  assert (Hwf : ZoneExtent_wf (mkZoneExtent 4096 8192 (Some 0%nat))).
  { unfold ZoneExtent_wf. simpl. lia. }
  split; [exact Hwf|].
  exact (proj1 (proj2 (proj2 (C5_extent_codec_roundtrip
                                (mkZoneExtent 4096 8192 (Some 0%nat))
                                (mkZoneExtent 0 0 None) [] [] Hwf)))).
Defined.

(** C6. [GetLifeTimeDiff] never trips its assertion and returns, for
    every pair of life time hints, what the specification's [diff]
    function gives: for a file hint of NOT_SET or NONE, 0 when the zone
    hint equals it and NOT_GOOD (100) otherwise; else MEH (2) when the two
    are equal; else their difference when the zone's is the larger; else
    NOT_GOOD. *)
Theorem C6_GetLifeTimeDiff_refines_spec (zone_lifetime file_lifetime : WriteLifeTimeHint) :
  GetLifeTimeDiff zone_lifetime file_lifetime
  = Some (spec_diff zone_lifetime file_lifetime).
Proof.
  destruct zone_lifetime, file_lifetime; reflexivity.
Qed.

(** ** Stepping through computations *)

Create HintDb zen discriminated.
#[local] Hint Unfold bind ret gets modify assert undefined blocked getZone modZone
  syscall syscall_int syscall_report : zen.

Ltac bool_clean :=
  repeat match goal with
  | H : negb _ = true |- _ => apply negb_true_iff in H
  | H : negb _ = false |- _ => apply negb_false_iff in H
  | H : (_ || _) = false |- _ => apply orb_false_iff in H; destruct H
  | H : (_ && _) = true |- _ => apply andb_true_iff in H; destruct H
  | H : (_ =? _) = true |- _ => apply Z.eqb_eq in H
  | H : (_ =? _) = false |- _ => apply Z.eqb_neq in H
  | H : (_ <? _) = true |- _ => apply Z.ltb_lt in H
  | H : (_ <? _) = false |- _ => apply Z.ltb_ge in H
  | H : (_ >? _) = true |- _ => apply Z.gtb_gt in H
  end.

(** Inverts a hypothesis [m w = Val a w']: unfolds the plumbing, splits
    on every test and drops the branches that do not return. *)
Ltac run_inv H :=
  autounfold with zen in H; repeat case_match; simplify_eq; bool_clean.

Section Stepping.

Context {A B : Type}.

Lemma bind_Val_inv (m : M A) (k : A -> M B) (w w' : World) (b : B) :
  bind m k w = Val b w' ->
  exists a w1, m w = Val a w1 /\ k a w1 = Val b w'.
Proof.
  unfold bind. destruct (m w) as [a w1| | |]; try discriminate.
  intros H. exists a, w1. split; [reflexivity|exact H].
Qed.

Lemma bind_Val (m : M A) (k : A -> M B) (w w1 : World) (a : A) :
  m w = Val a w1 -> bind m k w = k a w1.
Proof. unfold bind. intros ->. reflexivity. Qed.

End Stepping.

Lemma getZone_Val (z : nat) (w : World) (zn : Zone) :
  zones w !! z = Some zn -> getZone z w = Val zn w.
Proof. unfold getZone. intros ->. reflexivity. Qed.

Lemma modZone_Val (z : nat) (f : Zone -> Zone) (w : World) (zn : Zone) :
  zones w !! z = Some zn ->
  modZone z f w = Val tt (set_zones (<[z := f zn]> (zones w)) w).
Proof.
  intros H. unfold modZone. rewrite (bind_Val _ _ _ _ _ (getZone_Val _ _ _ H)).
  reflexivity.
Qed.

Lemma lookup_set_zones_same (z : nat) (zn zn' : Zone) (w : World) :
  zones w !! z = Some zn ->
  zones (set_zones (<[z := zn']> (zones w)) w) !! z = Some zn'.
Proof.
  intros H. simpl. apply list_lookup_insert_eq.
  apply lookup_lt_Some in H. exact H.
Qed.

Lemma lookup_set_zones_other (z z' : nat) (zn' : Zone) (w : World) :
  z <> z' ->
  zones (set_zones (<[z := zn']> (zones w)) w) !! z' = zones w !! z'.
Proof. intros H. simpl. apply list_lookup_insert_ne. exact H. Qed.

(** ** [Zone::Finish] *)

Lemma Zone_Finish_OK_inv (z : nat) (w w' : World) :
  Zone_Finish z w = Val OK w' ->
  exists zn rest,
    zones w !! z = Some zn
    /\ Zone_open_for_write_ zn = false
    /\ syscalls w = Ret 0 :: rest
    /\ w' = set_zones
              (<[z := Zone_set_wp_ (u64 (Zone_start_ zn + zone_sz_ w))
                        (Zone_set_capacity_ 0 zn)]> (zones w))
              (set_syscalls rest w).
Proof.
  unfold Zone_Finish. intros H. run_inv H.
  match goal with Hz : zones (set_syscalls _ _) !! _ = _ |- _ => simpl in Hz end.
  simplify_eq. eauto 10.
Qed.


(** C9, as stated, fails: [finish_zone] is not open for write, has
    capacity 4096 and lies in a device zone of size 8192.
    [Zone::Finish] succeeds and leaves [capacity_ = 0], but
    [wp_ = start_ + 8192], which is not [start_ + max_capacity_ = 4096]. *)
Lemma C9_Finish_wp_not_max_capacity :
  exists w' zn',
    Zone_open_for_write_ finish_zone = false
    /\ Zone_Finish 0 finish_world = Val OK w'
    /\ zones w' !! 0%nat = Some zn'
    /\ Zone_capacity_ zn' = 0
    /\ Zone_wp_ zn' = 8192
    /\ Zone_start_ zn' + Zone_max_capacity_ zn' = 4096
    /\ Zone_wp_ zn' <> Zone_start_ zn' + Zone_max_capacity_ zn'.
Proof.
  eexists _, _. split; [reflexivity|].
  split; [vm_compute; reflexivity|].
  split; [reflexivity|].
  repeat split; vm_compute; congruence.
Qed.

(** C9, amended.  After a successful [Zone::Finish] the zone (which was
    not open for write, or the assertion would have fired) has
    [capacity_ = 0] and [wp_ = start_ + zone_sz_], the end of the device
    zone (in 64-bit arithmetic), whatever [max_capacity_] is; no other
    field of the zone changes. *)
Theorem C9_Finish_sets_wp_to_zone_end (z : nat) (w w' : World) (zn : Zone) :
  zones w !! z = Some zn ->
  Zone_Finish z w = Val OK w' ->
  Zone_open_for_write_ zn = false
  /\ exists zn',
      zones w' !! z = Some zn'
      /\ Zone_capacity_ zn' = 0
      /\ Zone_wp_ zn' = u64 (Zone_start_ zn + zone_sz_ w)
      /\ zn' = Zone_set_wp_ (Zone_wp_ zn') (Zone_set_capacity_ 0 zn).
Proof.
  intros Hz H.
  apply Zone_Finish_OK_inv in H as (zn0 & rest & Hz0 & Hopen & Hs & ->).
  rewrite Hz in Hz0. injection Hz0 as <-.
  split; [exact Hopen|].
  eexists. split.
  - apply (lookup_set_zones_same z zn _ (set_syscalls rest w)). exact Hz.
  - repeat split; reflexivity.
Qed.

(** The amended C9 at [finish_world]. *)
Lemma C9_Finish_sets_wp_to_zone_end_witness :
  zones finish_world !! 0%nat = Some finish_zone
  /\ Zone_Finish 0 finish_world
     = Val OK (set_zones [Zone_set_wp_ 8192 (Zone_set_capacity_ 0 finish_zone)]
                 (set_syscalls [] finish_world))
  /\ exists zn',
      zones (set_zones [Zone_set_wp_ 8192 (Zone_set_capacity_ 0 finish_zone)]
               (set_syscalls [] finish_world)) !! 0%nat = Some zn'
      /\ Zone_capacity_ zn' = 0
      /\ Zone_wp_ zn' = u64 (Zone_start_ finish_zone + zone_sz_ finish_world)
      /\ zn' = Zone_set_wp_ (Zone_wp_ zn') (Zone_set_capacity_ 0 finish_zone).
Proof.
  split; [reflexivity|]. split; [reflexivity|].
  exact (proj2 (C9_Finish_sets_wp_to_zone_end 0 finish_world _ finish_zone
                  eq_refl eq_refl)).
Defined.

(** ** [Zone::Append] *)

Lemma bind_gets {A B : Type} (f : World -> A) (k : A -> M B) (w : World) :
  bind (gets f) k w = k (f w) w.
Proof. reflexivity. Qed.

(** Not enough capacity: NoSpace, and nothing changes (no system call is
    made either). *)
Lemma Zone_Append_NoSpace (z : nat) (size : Z) (w : World) (zn : Zone) :
  zones w !! z = Some zn ->
  Zone_capacity_ zn < size ->
  Zone_Append z size w = Val NoSpace w.
Proof.
  intros Hz Hc. unfold Zone_Append. autounfold with zen. rewrite Hz.
  destruct (Z.ltb_spec (Zone_capacity_ zn) size); [reflexivity|lia].
Qed.

Lemma Zone_written_written (n m : Z) (zn : Zone) :
  Zone_written m (Zone_written n zn) = Zone_written (n + m) zn.
Proof.
  unfold Zone_written, Zone_set_capacity_, Zone_set_wp_, u64. simpl.
  rewrite Zminus_mod_idemp_l, Zplus_mod_idemp_l.
  f_equal; f_equal; lia.
Qed.

(** As long as no [pwrite] reports more than was left to write, a run
    of the loop that returns OK has written exactly [left] bytes. *)
Lemma Zone_Append_loop_within (fuel : nat) :
  forall (z : nat) (size left : Z) (w w' : World) (zn : Zone),
    0 <= left < 2 ^ 32 ->
    zones w !! z = Some zn ->
    writes_within left (syscalls w) = true ->
    Zone_Append_loop fuel z size left w = Val OK w' ->
    (left = 0 /\ w' = w)
    \/ zones w' !! z = Some (Zone_written left zn).
Proof.
  induction fuel as [|fuel IH]; intros z size n w w' zn Hl Hz Hw H;
    simpl in H; destruct (Z.eqb_spec n 0) as [->|Hne];
    try (left; unfold ret in H; injection H as <-; split; reflexivity);
    try discriminate.
  right.
  apply bind_Val_inv in H as ([r e] & w1 & H1 & H).
  run_inv H1.
  match goal with Hs : syscalls _ = Ret _ :: ?l |- _ => rename l into rest end.
  simpl in Hw.
  destruct (Z.ltb_spec r 0) as [Hneg|Hpos]; [lia|].
  destruct (Z.eqb_spec n 0) as [?|_]; [lia|]. simpl in Hw.
  apply andb_true_iff in Hw as [Hle Hw]. apply Z.leb_le in Hle.
  apply bind_Val_inv in H as ([] & w2 & H2 & H).
  assert (Hz1 : zones (set_syscalls rest w) !! z = Some zn) by exact Hz.
  rewrite (modZone_Val _ _ _ _ Hz1) in H2. injection H2 as <-.
  pose proof (lookup_set_zones_same z zn (Zone_written r zn)
                (set_syscalls rest w) Hz1) as Hz2.
  assert (Heq : u32 (n - r) = n - r) by (apply Z.mod_small; lia).
  rewrite Heq in H.
  eapply IH in H; [| lia | exact Hz2 | exact Hw].
  destruct H as [[Hn0 ->]|H].
  - assert (r = n) by lia. subst r. exact Hz2.
  - rewrite H, Zone_written_written. do 2 f_equal. lia.
Qed.

(** Under the same proviso, a successful [Zone::Append] on a zone with
    no write in flight advances [wp_] by [size] and lowers [capacity_] by
    [size]. *)
Lemma Zone_Append_within (z : nat) (size : Z) (w w' : World) (zn : Zone) :
  zones w !! z = Some zn ->
  Zone_inflight zn = 0 ->
  0 <= size < 2 ^ 32 ->
  writes_within size (syscalls w) = true ->
  Zone_Append z size w = Val OK w' ->
  (size = 0 /\ w' = w) \/ zones w' !! z = Some (Zone_written size zn).
Proof.
  intros Hz Hin Hsz Hw H. unfold Zone_Append in H.
  rewrite (bind_Val _ _ _ _ _ (getZone_Val _ _ _ Hz)) in H.
  destruct (Zone_capacity_ zn <? size); [discriminate|].
  rewrite bind_gets in H.
  apply bind_Val_inv in H as ([] & w0 & H0 & H).
  assert (w0 = w) as ->.
  { destruct (block_sz_ w =? 0); [discriminate|].
    unfold assert in H0. destruct (size mod block_sz_ w =? 0); congruence. }
  clear H0.
  assert (Hsync : Zone_Sync z w = Val OK w).
  { unfold Zone_Sync. autounfold with zen. rewrite Hz, Hin. reflexivity. }
  rewrite (bind_Val _ _ _ _ _ Hsync) in H. simpl in H.
  rewrite bind_gets in H.
  eapply Zone_Append_loop_within; eauto.
Qed.

(** When the first [pwrite] writes everything, [Zone::Append] returns OK
    after that one call. *)
Lemma Zone_Append_whole_write (z : nat) (size : Z) (w : World) (zn : Zone)
      (rest : list SysReply) :
  zones w !! z = Some zn ->
  Zone_inflight zn = 0 ->
  0 < size < 2 ^ 32 ->
  size <= Zone_capacity_ zn ->
  block_sz_ w <> 0 ->
  size mod block_sz_ w = 0 ->
  syscalls w = Ret size :: rest ->
  Zone_Append z size w
  = Val OK (set_zones (<[z := Zone_written size zn]> (zones w))
              (set_syscalls rest w)).
Proof.
  intros Hz Hin Hsz Hc Hb Hal Hs. unfold Zone_Append.
  rewrite (bind_Val _ _ _ _ _ (getZone_Val _ _ _ Hz)).
  destruct (Z.ltb_spec (Zone_capacity_ zn) size) as [?|_]; [lia|].
  rewrite bind_gets.
  destruct (Z.eqb_spec (block_sz_ w) 0) as [?|_]; [contradiction|].
  unfold assert. rewrite Hal. simpl.
  rewrite (bind_Val _ _ w w tt eq_refl).
  assert (Hsync : Zone_Sync z w = Val OK w).
  { unfold Zone_Sync. autounfold with zen. rewrite Hz, Hin. reflexivity. }
  rewrite (bind_Val _ _ _ _ _ Hsync). simpl.
  rewrite bind_gets.
  rewrite Hs. simpl.
  destruct (Z.eqb_spec size 0) as [?|_]; [lia|].
  autounfold with zen. rewrite Hs. simpl.
  destruct (Z.ltb_spec size 0) as [?|_]; [lia|].
  change (zones (set_syscalls rest w)) with (zones w).
  rewrite Hz. rewrite Z.sub_diag.
  change (u32 0) with 0.
  destruct (length rest); reflexivity.
Qed.

(** C4 on the code: [append_zone] has room for the 1 GiB asked for,
    the size is a multiple of the block size and every reply is a legal
    result of the [pwrite] issued.  After the first, short, write the
    loop asks for [size] bytes again instead of the bytes still left, so
    [left] wraps around in its 32 bits; [Zone::Append] returns OK having
    moved [wp_] forward by 5 GiB and [capacity_] down by 5 GiB, not by
    the 1 GiB of [size]. *)
Theorem C4_Append_short_write_overshoots :
  append_size <= Zone_capacity_ append_zone
  /\ append_size mod block_sz_ append_world = 0
  /\ forallb (pwrite_reply_ok append_size) append_replies = true
  /\ Zone_Append 0 append_size append_world
     = Val OK (set_zones [Zone_written (5 * append_size) append_zone]
                 (set_syscalls [] append_world))
  /\ Zone_wp_ (Zone_written (5 * append_size) append_zone)
     = Zone_wp_ append_zone + 5 * append_size
  /\ Zone_capacity_ (Zone_written (5 * append_size) append_zone)
     = Zone_capacity_ append_zone - 5 * append_size
  /\ Zone_wp_ (Zone_written (5 * append_size) append_zone)
     <> Zone_wp_ append_zone + append_size.
Proof.
  repeat split; try (vm_compute; congruence).
Qed.

(** ** The allocator *)

(** C7 on the code: in [alloc_world] the search by life time hint finds
    no zone, and the allocation for a file with hint MEDIUM falls back on
    the empty zones.  It selects zone 2, the last empty one, and puts it
    into slot 2; but the loop over the empty zones has no [break] and
    writes the hint to every empty zone on its way: zones 0 and 1, which
    are not selected, not open and in no slot, change their life time
    from NOT_SET to MEDIUM too. *)
Theorem C7_fallback_stamps_every_empty_zone :
  exists w',
    GetActiveZone 2 WLTH_MEDIUM None None alloc_world = Val (true, Some 2%nat) w'
    /\ active_zones_ w' = [None; None; Some 2%nat; None]
    /\ lifetimes alloc_world = [WLTH_NOT_SET; WLTH_NOT_SET; WLTH_NOT_SET]
    /\ lifetimes w' = [WLTH_MEDIUM; WLTH_MEDIUM; WLTH_MEDIUM]
    /\ map Zone_open_for_write_ (zones w') = [false; false; true].
Proof.
  eexists. split; [vm_compute; reflexivity|].
  repeat split.
Qed.

Lemma Zone_set_lifetime_idem (lt : WriteLifeTimeHint) (zn : Zone) :
  Zone_set_lifetime_ lt (Zone_set_lifetime_ lt zn) = Zone_set_lifetime_ lt zn.
Proof. reflexivity. Qed.

(** What the search for an empty zone does to the zone [z]. *)
Lemma GetActiveZone_empty_zone (zs : list (option nat)) :
  forall (lt : WriteLifeTimeHint) (acc r : option nat) (w w' : World)
         (z : nat) (zn : Zone),
    GetActiveZone_empty zs lt acc w = Val r w' ->
    zones w !! z = Some zn ->
    zones w' !! z
    = Some (if existsb (fun o => bool_decide (o = Some z)) zs
               && negb (Zone_open_for_write_ zn) && Zone_IsEmpty zn
            then Zone_set_lifetime_ lt zn else zn).
Proof.
  induction zs as [|oz zs IH]; intros lt acc r w w' z zn H Hz.
  - simpl in H. unfold ret in H. injection H as _ <-. exact Hz.
  - simpl in H. destruct oz as [z0|].
    + apply bind_Val_inv in H as (zn0 & w0 & H0 & H).
      unfold getZone in H0. destruct (zones w !! z0) as [zn0'|] eqn:Hz0; [|discriminate].
      injection H0 as -> <-.
      simpl existsb.
      destruct (negb (Zone_open_for_write_ zn0) && Zone_IsEmpty zn0) eqn:Hc.
      * apply bind_Val_inv in H as ([] & w1 & H1 & H).
        rewrite (modZone_Val _ _ _ _ Hz0) in H1. injection H1 as <-.
        destruct (decide (z0 = z)) as [->|Hne].
        -- rewrite Hz in Hz0. injection Hz0 as <-.
           pose proof (lookup_set_zones_same z zn (Zone_set_lifetime_ lt zn) w Hz) as Hz1.
           rewrite (IH _ _ _ _ _ _ _ H Hz1).
           rewrite bool_decide_true by reflexivity. simpl orb.
           change (Zone_open_for_write_ (Zone_set_lifetime_ lt zn))
             with (Zone_open_for_write_ zn).
           change (Zone_IsEmpty (Zone_set_lifetime_ lt zn)) with (Zone_IsEmpty zn).
           apply andb_true_iff in Hc as [Hc1 Hc2]. rewrite Hc1, Hc2.
           destruct (existsb _ zs); reflexivity.
        -- assert (Hz1 : zones (set_zones (<[z0 := Zone_set_lifetime_ lt zn0]> (zones w)) w)
                         !! z = Some zn).
           { rewrite lookup_set_zones_other by exact Hne. exact Hz. }
           rewrite (IH _ _ _ _ _ _ _ H Hz1).
           rewrite bool_decide_false by congruence. reflexivity.
      * destruct (decide (z0 = z)) as [->|Hne].
        -- rewrite Hz in Hz0. injection Hz0 as <-.
           rewrite (IH _ _ _ _ _ _ _ H Hz).
           rewrite <- !andb_assoc, Hc, !andb_false_r. reflexivity.
        -- rewrite (IH _ _ _ _ _ _ _ H Hz).
           rewrite bool_decide_false by congruence. reflexivity.
    + rewrite (IH _ _ _ _ _ _ _ H Hz). reflexivity.
Qed.

(** The defect behind C7 in general: the search for an empty zone
    leaves the file's hint on every zone of [io_zones_] that is empty and
    not open for write, selected or not. *)
Lemma GetActiveZone_empty_stamps (zs : list (option nat)) (lt : WriteLifeTimeHint)
      (acc r : option nat) (w w' : World) (z : nat) (zn : Zone) :
  GetActiveZone_empty zs lt acc w = Val r w' ->
  In (Some z) zs ->
  zones w !! z = Some zn ->
  Zone_open_for_write_ zn = false ->
  Zone_IsEmpty zn = true ->
  zones w' !! z = Some (Zone_set_lifetime_ lt zn).
Proof.
  intros H Hin Hz Hopen Hempty.
  rewrite (GetActiveZone_empty_zone _ _ _ _ _ _ _ _ H Hz), Hopen, Hempty.
  assert (He : existsb (fun o => bool_decide (o = Some z)) zs = true).
  { apply existsb_exists. exists (Some z). split; [exact Hin|].
    apply bool_decide_eq_true. reflexivity. }
  rewrite He. reflexivity.
Qed.

(** ** [ZoneFile::Append] across zones *)

(** C3 on the code.  A file writes 8192 bytes and fills its zone (zone
    2 of [alloc_world]).  When it then runs the block that [Append]
    runs on a full zone, the pending extent (49152, 8192, zone 2) is
    pushed and the zone is closed, but [AllocateZone(lifetime_)] is
    called without the full zone ([full_zone] is null): the allocator
    does not set [bg_processing], queues no Finish, and hands the same
    full zone back as the next zone to write to.  This holds whichever
    default [is_wal] has. *)
Theorem C3_next_zone_is_not_told_the_full_zone (default_is_wal : bool) :
  exists f1 w1 f2 w2 zn1 zn2,
    ZoneFile_Append default_is_wal None 1 1 cross_file 8192 8192 cross_world
    = Val (OK, f1) w1
    /\ ZoneFile_active_zone_ f1 = Some 2%nat
    /\ zones w1 !! 2%nat = Some zn1
    /\ Zone_capacity_ zn1 = 0
    /\ extents w1 = []
    /\ ZoneFile_Append_next_zone default_is_wal None 1 f1 w1 = Val (true, f2) w2
    /\ extents w2 = [Some (mkZoneExtent 49152 8192 (Some 2%nat))]
    /\ ZoneFile_extents_ f2 = [0%nat]
    /\ ZoneFile_active_zone_ f2 = Some 2%nat
    /\ zones w2 !! 2%nat = Some zn2
    /\ Zone_capacity_ zn2 = 0
    /\ Zone_open_for_write_ zn2 = true
    /\ Zone_bg_processing zn2 = false
    /\ data_worker_ w2 = [].
Proof.
  destruct default_is_wal.
  - do 6 eexists.
    split; [vm_compute; reflexivity|].
    split; [reflexivity|]. split; [reflexivity|]. split; [reflexivity|].
    split; [reflexivity|].
    split; [vm_compute; reflexivity|].
    repeat split.
  - do 6 eexists.
    split; [vm_compute; reflexivity|].
    split; [reflexivity|]. split; [reflexivity|]. split; [reflexivity|].
    split; [reflexivity|].
    split; [vm_compute; reflexivity|].
    repeat split.
Qed.

(** What the allocator would have done had it been given the full
    zone: with [full_zone] set to zone 2 it marks the zone, queues the
    Finish and opens another zone. *)
Lemma AllocateZone_with_full_zone :
  exists f1 w1 w2 zn2,
    ZoneFile_Append false None 1 1 cross_file 8192 8192 cross_world = Val (OK, f1) w1
    /\ (f <- ZoneFile_PushExtent f1 ;;
        Zone_CloseWR 2 ;;
        AllocateZone 1 WLTH_MEDIUM false (Some 2%nat)) w1 = Val (Some 1%nat) w2
    /\ zones w2 !! 2%nat = Some zn2
    /\ Zone_open_for_write_ zn2 = false
    /\ Zone_bg_processing zn2 = true
    /\ data_worker_ w2 = [FinishJob 2 2].
Proof.
  do 4 eexists.
  split; [vm_compute; reflexivity|].
  split; [vm_compute; reflexivity|].
  repeat split.
Qed.

(** ** The GC worker *)

(** C1 on the code.  In [gc_world] every zone's [used_capacity_] is the
    sum of the live extents that point at it.  The worker scans the two
    files and relocates both extents to zone 2; the relocation returns
    OK (whatever the comparison of statuses is).  Afterwards no extent
    points at the source zones 0 and 1, but their [used_capacity_] is
    still 4096 and 8192, not 0, and zone 2, which now holds 12288 live
    bytes, still has [used_capacity_ = 0]: relocation re-targets the
    extents and never touches the counters. *)
Theorem C1_relocation_leaves_used_capacity_behind
        (IOStatus_eq : IOStatus -> IOStatus -> bool) :
  used_capacity_invariantb gc_world = true
  /\ exists gc w',
      gc_scan_and_move IOStatus_eq gc_world = Val (OK, gc) w'
      /\ ZenFSGCWorker_extent_list gc = [1%nat; 0%nat]
      /\ extents w' = [Some (mkZoneExtent 106496 4096 (Some 2%nat));
                       Some (mkZoneExtent 98304 8192 (Some 2%nat))]
      /\ map (extents_in_zone w') [0%nat; 1%nat; 2%nat; 3%nat] = [0; 0; 12288; 0]
      /\ map Zone_used_capacity_ (zones w') = [4096; 8192; 0; 0]
      /\ used_capacity_invariantb w' = false.
Proof.
  split; [vm_compute; reflexivity|].
  do 2 eexists. split; [vm_compute; reflexivity|].
  repeat split.
Qed.

(** *** Relocation and [used_capacity_] *)

Section KeepsUsedCapacity.

Lemma keeps_ret {A : Type} (a : A) : keeps_used_capacity (ret a).
Proof. intros w w' b H. unfold ret in H. injection H as _ <-. reflexivity. Qed.

Lemma keeps_bind {A B : Type} (m : M A) (k : A -> M B) :
  keeps_used_capacity m ->
  (forall a, keeps_used_capacity (k a)) ->
  keeps_used_capacity (bind m k).
Proof.
  intros Hm Hk w w' b H.
  apply bind_Val_inv in H as (a & w1 & H1 & H2).
  rewrite (Hk _ _ _ _ H2). exact (Hm _ _ _ H1).
Qed.

Lemma keeps_gets {A : Type} (f : World -> A) : keeps_used_capacity (gets f).
Proof. intros w w' b H. unfold gets in H. injection H as _ <-. reflexivity. Qed.

Lemma keeps_assert (b : bool) : keeps_used_capacity (assert b).
Proof.
  intros w w' [] H. unfold assert in H. destruct b; [|discriminate].
  injection H as <-. reflexivity.
Qed.

Lemma keeps_undefined {A : Type} : keeps_used_capacity (@undefined A).
Proof. intros w w' b H. discriminate. Qed.

Lemma keeps_blocked {A : Type} : keeps_used_capacity (@blocked A).
Proof. intros w w' b H. discriminate. Qed.

Lemma keeps_getZone (z : nat) : keeps_used_capacity (getZone z).
Proof.
  intros w w' b H. unfold getZone in H. destruct (zones w !! z); [|discriminate].
  injection H as _ <-. reflexivity.
Qed.

Lemma keeps_modZone (z : nat) (f : Zone -> Zone) :
  (forall zn, Zone_used_capacity_ (f zn) = Zone_used_capacity_ zn) ->
  keeps_used_capacity (modZone z f).
Proof.
  intros Hf w w' [] H. unfold modZone in H.
  apply bind_Val_inv in H as (zn & w1 & H1 & H).
  unfold getZone in H1. destruct (zones w !! z) as [zn'|] eqn:Hz; [|discriminate].
  injection H1 as -> <-. unfold modify in H. injection H as <-.
  unfold used_capacities. simpl.
  rewrite list_fmap_insert, Hf.
  apply list_insert_id. rewrite list_lookup_fmap, Hz. reflexivity.
Qed.

Lemma keeps_syscall : keeps_used_capacity syscall.
Proof.
  intros w w' r H. unfold syscall in H. destruct (syscalls w); [discriminate|].
  injection H as _ <-. reflexivity.
Qed.

Lemma keeps_syscall_int : keeps_used_capacity syscall_int.
Proof.
  apply keeps_bind; [apply keeps_syscall|].
  intros [v|e|? ? ? ?]; first [apply keeps_ret | apply keeps_blocked].
Qed.

Lemma keeps_getExtent (e : nat) : keeps_used_capacity (getExtent e).
Proof.
  intros w w' x H. unfold getExtent in H.
  destruct (extents w !! e) as [[x'|]|]; try discriminate.
  injection H as _ <-. reflexivity.
Qed.

Lemma keeps_putExtent (e : nat) (x : ZoneExtent) : keeps_used_capacity (putExtent e x).
Proof. intros w w' [] H. unfold putExtent, modify in H. injection H as <-. reflexivity. Qed.

End KeepsUsedCapacity.

(** Proves [keeps_used_capacity] of a computation built from pieces
    that keep it. *)
Ltac keeps :=
  repeat first
    [ apply keeps_ret | apply keeps_gets | apply keeps_assert | apply keeps_undefined
    | apply keeps_blocked | apply keeps_getZone | apply keeps_syscall_int
    | apply keeps_getExtent | apply keeps_putExtent
    | apply keeps_modZone; intros ?; reflexivity
    | assumption
    | apply keeps_bind; [|intros ?]
    | match goal with
      | |- keeps_used_capacity (match ?x with _ => _ end) => destruct x
      end ].

Lemma keeps_Zone_Sync (z : nat) : keeps_used_capacity (Zone_Sync z).
Proof. unfold Zone_Sync. keeps. Qed.

Lemma keeps_Zone_Append_loop (fuel : nat) :
  forall (z : nat) (size left : Z), keeps_used_capacity (Zone_Append_loop fuel z size left).
Proof.
  induction fuel as [|fuel IH]; intros z size n; simpl; keeps. apply IH.
Qed.

Lemma keeps_Zone_Append (z : nat) (size : Z) : keeps_used_capacity (Zone_Append z size).
Proof.
  unfold Zone_Append. keeps; first [apply keeps_Zone_Sync | apply keeps_Zone_Append_loop].
Qed.

Lemma keeps_ReadExtent_loop (fuel : nat) :
  forall (read to_read : Z), keeps_used_capacity (ReadExtent_loop fuel read to_read).
Proof.
  induction fuel as [|fuel IH]; intros rd to_read; simpl; keeps; apply IH.
Qed.

Lemma keeps_ReadExtent (to_read read_pos : Z) (zone_src : option nat) :
  keeps_used_capacity (ReadExtent to_read read_pos zone_src).
Proof. unfold ReadExtent. keeps. apply keeps_ReadExtent_loop. Qed.

Lemma keeps_extent_lengths (es : list nat) : keeps_used_capacity (extent_lengths es).
Proof. induction es as [|e es IH]; simpl; keeps. Qed.

Lemma keeps_MoveValidDataToNewDestZone_loop
      (IOStatus_eq : IOStatus -> IOStatus -> bool) (fuel : nat) :
  forall (dst : list nat) (es : list nat) (zone_it : nat) (dont_read : bool),
    keeps_used_capacity
      (MoveValidDataToNewDestZone_loop IOStatus_eq fuel dst es zone_it dont_read).
Proof.
  induction fuel as [|fuel IH]; intros dst es zone_it dont_read;
    destruct es as [|ext rest]; simpl; keeps;
    first [apply keeps_ReadExtent | apply keeps_Zone_Append
          | apply keeps_Zone_Append_loop | apply keeps_Zone_Sync | apply IH].
Qed.

(** Whatever the extents, the destination zones and the replies of the
    device: when [MoveValidDataToNewDestZone] returns, [used_capacity_]
    of every zone, source or destination, is what it was before. *)
Lemma MoveValidDataToNewDestZone_keeps_used_capacity
      (IOStatus_eq : IOStatus -> IOStatus -> bool) (fuel : nat) (gc : ZenFSGCWorker) :
  keeps_used_capacity (MoveValidDataToNewDestZone IOStatus_eq fuel gc).
Proof.
  unfold MoveValidDataToNewDestZone. keeps.
  - apply keeps_extent_lengths.
  - apply keeps_MoveValidDataToNewDestZone_loop.
Qed.

(** ** Resetting zones *)

(** C2 on the code.  After the scan and the relocation of the GC
    scenario no extent is left in the source zone 0, yet its
    [used_capacity_] is still 4096, so the zone counts as used.
    [ZoneResetToReclaim] calls [Reset] on every zone of its list without
    looking at the zone: on the relocated zone 0 the assertion
    [!IsUsed()] of [Zone::Reset] fails. *)
Theorem C2_ZoneResetToReclaim_resets_used_zone
        (IOStatus_eq : IOStatus -> IOStatus -> bool) :
  exists gc w' zn,
    gc_scan_and_move IOStatus_eq gc_world = Val (OK, gc) w'
    /\ ZenFSGCWorker_merge_zone_list gc = [0%nat; 1%nat]
    /\ extents_in_zone w' 0 = 0
    /\ zones w' !! 0%nat = Some zn
    /\ Zone_used_capacity_ zn = 4096
    /\ Zone_open_for_write_ zn = false
    /\ Zone_IsUsed zn = true
    /\ ZoneResetToReclaim gc w' = AssertFail.
Proof.
  do 3 eexists. split; [vm_compute; reflexivity|].
  repeat split.
Qed.

(** [ZoneResetToReclaim] has no guard of its own: whenever the first
    zone of its list is in use, the assertion of [Zone::Reset] fails. *)
Lemma ZoneResetToReclaim_unguarded (gc : ZenFSGCWorker) (w : World)
      (z : nat) (rest : list nat) (zn : Zone) :
  ZenFSGCWorker_merge_zone_list gc = z :: rest ->
  zones w !! z = Some zn ->
  Zone_IsUsed zn = true ->
  ZoneResetToReclaim gc w = AssertFail.
Proof.
  intros Hl Hz Hu. unfold ZoneResetToReclaim. rewrite Hl. simpl.
  unfold Zone_Reset. autounfold with zen. rewrite Hz, Hu. reflexivity.
Qed.

Lemma bind_AssertFail_inv {A B : Type} (m : M A) (k : A -> M B) (w : World) :
  bind m k w = AssertFail ->
  m w = AssertFail \/ exists a w1, m w = Val a w1 /\ k a w1 = AssertFail.
Proof.
  unfold bind. destruct (m w) as [a w1| | |]; try discriminate.
  - intros H. right. exists a, w1. split; [reflexivity|exact H].
  - intros _. left. reflexivity.
Qed.

(** The two other callers of [Zone::Reset] test [IsUsed()] themselves.
    On a zone that is not in use, [Zone::Reset] does not trip its
    assertion. *)
Lemma Zone_Reset_unused_no_AssertFail (z : nat) (w : World) (zn : Zone) :
  zones w !! z = Some zn ->
  Zone_IsUsed zn = false ->
  Zone_Reset z w <> AssertFail.
Proof.
  intros Hz Hu. unfold Zone_Reset.
  rewrite (bind_Val _ _ _ _ _ (getZone_Val _ _ _ Hz)).
  unfold assert at 1. rewrite Hu. simpl negb.
  rewrite (bind_Val _ _ w w tt eq_refl).
  intros H. apply bind_AssertFail_inv in H as [H|(p & w1 & H1 & H)].
  { unfold syscall_int, syscall, bind in H.
    destruct (syscalls w) as [|[r|e|? ? ? ?] rest]; discriminate. }
  destruct p as [r e]. destruct (negb (r =? 0)); [discriminate|].
  apply bind_AssertFail_inv in H as [H|(p & w2 & H2 & H)].
  { unfold syscall_report, syscall, bind in H.
    destruct (syscalls w1) as [|[?|?|? ? ? ?] rest]; discriminate. }
  destruct p as [[[rt n] off] cap].
  destruct (negb (rt =? 0) || negb (n =? 1)); [discriminate|].
  apply bind_AssertFail_inv in H as [H|([] & w3 & H3 & H)]; [|discriminate].
  unfold modZone, bind, getZone, modify in H.
  destruct (zones w2 !! z); discriminate.
Qed.

(** [ResetUnusedIOZones] never trips the assertion. *)
Lemma ResetUnusedIOZones_zone_no_AssertFail (z : nat) (w : World) :
  (zn <- getZone z ;;
   if negb (Zone_IsUsed zn) && negb (Zone_IsEmpty zn) then
     (if negb (Zone_IsFull zn)
      then modify (fun w => set_active_io_zones_ (active_io_zones_ w - 1) w)
      else ret tt) ;;
     Zone_Reset z ;;
     ret tt
   else ret tt) w <> AssertFail.
Proof.
  unfold bind at 1, getZone.
  destruct (zones w !! z) as [zn|] eqn:Hz; [|discriminate].
  destruct (Zone_IsUsed zn) eqn:Hu; [discriminate|].
  destruct (negb (Zone_IsEmpty zn)); [|discriminate]. simpl andb. cbv iota.
  assert (Hstep : forall w1, zones w1 !! z = Some zn ->
            bind (Zone_Reset z) (fun _ => ret tt) w1 <> AssertFail).
  { intros w1 Hz1. unfold bind.
    pose proof (Zone_Reset_unused_no_AssertFail z w1 zn Hz1 Hu) as Hr.
    destruct (Zone_Reset z w1); try discriminate. contradiction. }
  destruct (negb (Zone_IsFull zn)).
  - unfold bind at 1, modify. apply Hstep. exact Hz.
  - unfold bind at 1, ret at 1. apply Hstep. exact Hz.
Qed.

Lemma forM__no_AssertFail {A : Type} (f : A -> M unit) (l : list A) :
  (forall x w, f x w <> AssertFail) ->
  forall w, forM_ l f w <> AssertFail.
Proof.
  intros Hf. induction l as [|x l IH]; intros w; simpl.
  - discriminate.
  - unfold bind. pose proof (Hf x w) as Hx.
    destruct (f x w) as [[] w1| | |]; try discriminate; [apply IH|contradiction].
Qed.

Lemma ResetUnusedIOZones_no_AssertFail (w : World) :
  ResetUnusedIOZones w <> AssertFail.
Proof.
  unfold ResetUnusedIOZones. rewrite bind_gets.
  apply forM__no_AssertFail. intros [z|] w0.
  - apply ResetUnusedIOZones_zone_no_AssertFail.
  - discriminate.
Qed.

(** [TriggerBgFinishAndReset] queues a reset only for a zone that is
    not in use when it is queued. *)
Lemma TriggerBgFinishAndReset_slot_queues_unused (i : nat) (w w' : World)
      (z slot : nat) :
  TriggerBgFinishAndReset_slot i w = Val tt w' ->
  data_worker_ w' = data_worker_ w ++ [ResetJob z slot] ->
  exists zn, zones w !! z = Some zn /\ Zone_IsUsed zn = false.
Proof.
  intros H Hq. unfold TriggerBgFinishAndReset_slot, BgResetDataZone,
    BgFinishDataZone, SubmitJob in H.
  run_inv H; simpl in Hq;
    try (exfalso; revert Hq; clear; intros Hq;
         apply (f_equal (@length Job)) in Hq; rewrite length_app in Hq;
         simpl in Hq; lia).
  - apply app_inv_head in Hq. injection Hq as <- <-. eauto.
  - apply app_inv_head in Hq. discriminate.
Qed.

(** ** The file adapters *)

(** What [ZonedSequentialFile::Skip] does, for every position and every
    [n]: it refuses when [rp + n], computed in 64 bits, is at or beyond
    the file size, and otherwise moves [rp] there. *)
Lemma ZonedSequentialFile_Skip_spec (sf : ZonedSequentialFile) (n : Z) :
  let size := ZoneFile_GetFileSize (ZonedSequentialFile_zoneFile_ sf) in
  let target := u64 (ZonedSequentialFile_rp sf + n) in
  (size <= target /\ ZonedSequentialFile_Skip sf n = (InvalidArgument, sf))
  \/ (target < size
      /\ ZonedSequentialFile_Skip sf n
         = (OK, mkZonedSequentialFile (ZonedSequentialFile_zoneFile_ sf) target
                  (ZonedSequentialFile_direct_ sf))).
Proof.
  intros size target. unfold ZonedSequentialFile_Skip. fold size target.
  destruct (Z.geb_spec target size); [left|right]; split; (lia || reflexivity).
Qed.

(** C8 on the code: with [rp = 0] in a file of 10 bytes, [Skip(10)]
    goes to the end of the file and not past it ([rp + n = file_size]),
    yet it is refused with InvalidArgument and [rp] stays 0; [Skip(9)] is
    accepted.  So is [Skip(0)] refused on an empty file. *)
Theorem C8_Skip_to_end_of_file_is_refused :
  ZonedSequentialFile_rp skip_reader + 10
  = ZoneFile_GetFileSize (ZonedSequentialFile_zoneFile_ skip_reader)
  /\ ZonedSequentialFile_Skip skip_reader 10 = (InvalidArgument, skip_reader)
  /\ ZonedSequentialFile_Skip skip_reader 9
     = (OK, mkZonedSequentialFile skip_file 9 false)
  /\ ZonedSequentialFile_Skip
       (mkZonedSequentialFile (ZoneFile_new "E" 5) 0 false) 0
     = (InvalidArgument, mkZonedSequentialFile (ZoneFile_new "E" 5) 0 false).
Proof. repeat split. Qed.

(** C10.  The constructor of [ZonedWritableFile] asserts that the file
    it is given is empty: over a file whose size is not 0 the assertion
    fails, buffered or not and whatever the world; and whenever the
    constructor returns, the file size was 0, the adapter's [wp] is 0 and
    the file is open for writing. *)
Theorem C10_writable_file_only_over_empty_file
        (buffered : bool) (zoneFile : ZoneFile) (w : World) :
  (ZoneFile_GetFileSize zoneFile <> 0 ->
   ZonedWritableFile_new buffered zoneFile w = AssertFail)
  /\ (forall (wf : ZonedWritableFile) (w' : World),
        ZonedWritableFile_new buffered zoneFile w = Val wf w' ->
        ZoneFile_GetFileSize zoneFile = 0
        /\ ZonedWritableFile_wp wf = 0
        /\ ZonedWritableFile_zoneFile_ wf = ZoneFile_OpenWR zoneFile).
Proof.
  split.
  - intros Hne. unfold ZonedWritableFile_new, bind, assert.
    destruct (Z.eqb_spec (ZoneFile_GetFileSize zoneFile) 0); [contradiction|].
    reflexivity.
  - intros wf w' H. unfold ZonedWritableFile_new in H.
    destruct buffered; run_inv H; repeat split; try assumption;
      simpl; congruence.
Qed.

(** C10 at a file of 4096 bytes, and the constructor over an empty file
    for comparison. *)
Lemma C10_writable_file_only_over_empty_file_witness :
  ZoneFile_GetFileSize written_file <> 0
  /\ ZonedWritableFile_new false written_file alloc_world = AssertFail
  /\ ZonedWritableFile_new false (ZoneFile_new "N" 6) alloc_world
     = Val (mkZonedWritableFile 0 false 4096 1048576 0
              (ZoneFile_OpenWR (ZoneFile_new "N" 6))) alloc_world.
Proof.
  assert (Hne : ZoneFile_GetFileSize written_file <> 0) by (vm_compute; congruence).
  split; [exact Hne|]. split.
  - exact (proj1 (C10_writable_file_only_over_empty_file false written_file
                    alloc_world) Hne).
  - reflexivity.
Defined.

(** * Further properties of the code *)

(** ** Inversion of the primitive steps *)

Lemma getZone_Val_inv (z : nat) (w w' : World) (zn : Zone) :
  getZone z w = Val zn w' -> zones w !! z = Some zn /\ w' = w.
Proof.
  unfold getZone. destruct (zones w !! z); [|discriminate].
  intros H. injection H as -> <-. split; reflexivity.
Qed.

Lemma modZone_Val_inv (z : nat) (f : Zone -> Zone) (w w' : World) (u : unit) :
  modZone z f w = Val u w' ->
  exists zn, zones w !! z = Some zn
             /\ w' = set_zones (<[z := f zn]> (zones w)) w.
Proof.
  unfold modZone. intros H.
  apply bind_Val_inv in H as (zn & w1 & H1 & H).
  apply getZone_Val_inv in H1 as [Hz ->].
  unfold modify in H. injection H as _ <-. eauto.
Qed.

Lemma assert_Val_inv (b : bool) (w w' : World) (u : unit) :
  assert b w = Val u w' -> b = true /\ w' = w.
Proof.
  unfold assert. destruct b; [|discriminate].
  intros H. injection H as _ <-. split; reflexivity.
Qed.

Lemma syscall_int_Val_inv (w w' : World) (r e : Z) :
  syscall_int w = Val (r, e) w' ->
  exists rest,
    w' = set_syscalls rest w
    /\ (syscalls w = Ret r :: rest /\ e = 0
        \/ syscalls w = Fail e :: rest /\ r = -1).
Proof.
  unfold syscall_int, syscall, bind.
  destruct (syscalls w) as [|[v|v|r0 n0 off0 cap0] rest]; try discriminate;
    unfold ret; intros H; injection H as <- <- <-; exists rest; auto.
Qed.

Lemma syscall_report_Val_inv (w w' : World) (r n cap : Z) (off : bool) :
  syscall_report w = Val (r, n, off, cap) w' ->
  exists rest, w' = set_syscalls rest w
               /\ syscalls w = Report r n off cap :: rest.
Proof.
  unfold syscall_report, syscall, bind.
  destruct (syscalls w) as [|[v|v|r0 n0 off0 cap0] rest]; try discriminate.
  unfold ret. intros H. injection H as <- <- <- <- <-. eauto.
Qed.

(** ** [Zone::Reset] *)

Lemma Zone_Reset_cases (z : nat) (w w' : World) (s : IOStatus) :
  Zone_Reset z w = Val s w' ->
  exists zn,
    zones w !! z = Some zn
    /\ Zone_IsUsed zn = false
    /\ ((s = OK
         /\ exists zn',
             zones w' = <[z := zn']> (zones w)
             /\ Zone_start_ zn' = Zone_start_ zn
             /\ Zone_wp_ zn' = Zone_start_ zn
             /\ Zone_IsEmpty zn' = true
             /\ Zone_lifetime_ zn' = WLTH_NOT_SET
             /\ Zone_IsUsed zn' = false
             /\ (Zone_capacity_ zn' = 0
                 /\ Zone_max_capacity_ zn' = Zone_max_capacity_ zn
                 \/ Zone_capacity_ zn' = Zone_max_capacity_ zn'))
        \/ (s = IOError /\ zones w' = zones w)).
Proof.
  unfold Zone_Reset. intros H.
  apply bind_Val_inv in H as (zn & w1 & H1 & H).
  apply getZone_Val_inv in H1 as [Hz ->].
  apply bind_Val_inv in H as (u & w1 & H1 & H).
  apply assert_Val_inv in H1 as [Hu ->]. apply negb_true_iff in Hu.
  exists zn. split; [exact Hz|]. split; [exact Hu|].
  apply bind_Val_inv in H as ([r e] & w1 & H1 & H).
  apply syscall_int_Val_inv in H1 as (rest & -> & _).
  destruct (negb (r =? 0)).
  { right. unfold ret in H. injection H as <- <-. split; reflexivity. }
  apply bind_Val_inv in H as ([[[r' n] off] cap] & w1 & H1 & H).
  apply syscall_report_Val_inv in H1 as (rest' & -> & _).
  destruct (negb (r' =? 0) || negb (n =? 1)).
  { right. unfold ret in H. injection H as <- <-. split; reflexivity. }
  apply bind_Val_inv in H as (u' & w1 & H1 & H).
  apply modZone_Val_inv in H1 as (zn0 & Hz0 & ->).
  simpl in Hz0. rewrite Hz in Hz0. injection Hz0 as <-.
  unfold ret in H. injection H as <- <-.
  left. split; [reflexivity|].
  eexists. split; [reflexivity|].
  unfold Zone_IsUsed in *. unfold Zone_IsEmpty.
  destruct off; simpl; rewrite ?Z.eqb_refl; repeat split; auto.
Qed.



(** ** [Zone::Sync], [Zone::Append_async], [Zone::CloseWR] *)

(** What [Zone::Sync] can return, and the world after. *)
Lemma Zone_Sync_inv (z : nat) (w w' : World) (s : IOStatus) :
  Zone_Sync z w = Val s w' ->
  exists zn,
    zones w !! z = Some zn
    /\ ((Zone_inflight zn = 0 /\ s = OK /\ w' = w)
        \/ (Zone_inflight zn <> 0 /\ s = OK
            /\ exists rest,
                w' = set_zones (<[z := Zone_set_inflight 0 zn]> (zones w))
                       (set_syscalls rest w))
        \/ (Zone_inflight zn <> 0 /\ s = IOError
            /\ exists rest, w' = set_syscalls rest w)).
Proof.
  unfold Zone_Sync. intros H.
  apply bind_Val_inv in H as (zn & w1 & H1 & H).
  apply getZone_Val_inv in H1 as [Hz ->].
  exists zn. split; [exact Hz|].
  destruct (Z.eqb_spec (Zone_inflight zn) 0) as [Hi|Hi].
  { unfold ret in H. injection H as <- <-. left. auto. }
  right.
  apply bind_Val_inv in H as ([r e] & w1 & H1 & H).
  apply syscall_int_Val_inv in H1 as (rest & -> & Hs).
  destruct (Z.eqb_spec r 1) as [->|Hr]; cbn [negb] in H.
  2:{ unfold ret in H. injection H as <- <-. right. eauto. }
  destruct Hs as [[Hs _]|[_ ?]]; [|discriminate].
  apply bind_Val_inv in H as ([r' e'] & w1 & H1 & H).
  apply syscall_int_Val_inv in H1 as (rest' & -> & Hs').
  simpl in Hs'.
  destruct (Z.eqb_spec r' (to_int (Zone_nbytes zn))) as [->|Hr']; cbn [negb] in H.
  2:{ unfold ret in H. injection H as <- <-. right. split; [exact Hi|].
      split; [reflexivity|]. exists rest'. reflexivity. }
  apply bind_Val_inv in H as (u & w1 & H1 & H).
  apply modZone_Val_inv in H1 as (zn0 & Hz0 & ->).
  simpl in Hz0. rewrite Hz in Hz0. injection Hz0 as <-.
  unfold ret in H. injection H as <- <-.
  left. split; [exact Hi|]. split; [reflexivity|].
  exists rest'. reflexivity.
Qed.

Lemma Zone_Sync_cases (z : nat) (w w' : World) (s : IOStatus) (zn : Zone) :
  zones w !! z = Some zn ->
  Zone_Sync z w = Val s w' ->
  (s = OK /\ zones w' = <[z := Zone_set_inflight 0 zn]> (zones w))
  \/ (s = IOError /\ Zone_inflight zn <> 0 /\ zones w' = zones w).
Proof.
  intros Hz H. apply Zone_Sync_inv in H as (zn0 & Hz0 & H).
  rewrite Hz in Hz0. injection Hz0 as <-.
  destruct H as [(Hi & -> & ->)|[(Hi & -> & rest & ->)|(Hi & -> & rest & ->)]].
  - left. split; [reflexivity|]. symmetry. apply list_insert_id.
    rewrite Hz. f_equal. destruct zn. simpl in Hi. subst. reflexivity.
  - left. split; reflexivity.
  - right. repeat split. exact Hi.
Qed.

(** X2.  [Zone::Sync] returns OK or IOError.  After OK nothing is in
    flight on the zone; after IOError the write is still recorded as in
    flight.  Either way [Sync] changes nothing else: [wp_], [capacity_]
    and every other zone stay as they were. *)
Theorem Zone_Sync_result (z : nat) (w w' : World) (s : IOStatus) (zn : Zone) :
  zones w !! z = Some zn ->
  Zone_Sync z w = Val s w' ->
  (s = OK /\ zones w' = <[z := Zone_set_inflight 0 zn]> (zones w))
  \/ (s = IOError /\ Zone_inflight zn <> 0 /\ zones w' = zones w).
Proof. exact (Zone_Sync_cases z w w' s zn). Qed.

(** [Zone_Sync_result] at [inflight_world]: the completion arrives and
    the write is no longer in flight. *)
Lemma Zone_Sync_result_witness :
  zones inflight_world !! 0%nat = Some inflight_zone
  /\ Zone_Sync 0 inflight_world
     = Val OK (set_zones [Zone_set_inflight 0 inflight_zone]
                 (set_syscalls [] inflight_world))
  /\ (OK = OK /\ zones (set_zones [Zone_set_inflight 0 inflight_zone]
                         (set_syscalls [] inflight_world))
                = <[0%nat := Zone_set_inflight 0 inflight_zone]> (zones inflight_world)
      \/ OK = IOError /\ Zone_inflight inflight_zone <> 0
         /\ zones (set_zones [Zone_set_inflight 0 inflight_zone]
                     (set_syscalls [] inflight_world)) = zones inflight_world).
Proof.
  split; [reflexivity|]. split; [reflexivity|].
  exact (Zone_Sync_result 0 inflight_world _ OK inflight_zone eq_refl eq_refl).
Defined.

(** X3.  [Zone::Append_async] first waits for the write in flight.  When
    it returns OK, exactly one write of [size] bytes is in flight, [wp_]
    has moved forward by [size] and [capacity_] down by [size], and there
    was room for it.  When it returns anything else, [wp_] and
    [capacity_] are what they were. *)
Theorem Zone_Append_async_result (z : nat) (size : Z) (w w' : World)
        (s : IOStatus) (zn : Zone) :
  zones w !! z = Some zn ->
  Zone_Append_async z size w = Val s w' ->
  (s = OK /\ size <= Zone_capacity_ zn
   /\ zones w'
      = <[z := Zone_written size
                 (Zone_set_inflight size (Zone_set_nbytes size zn))]> (zones w))
  \/ (s <> OK
      /\ exists zn', zones w' !! z = Some zn'
                     /\ Zone_wp_ zn' = Zone_wp_ zn
                     /\ Zone_capacity_ zn' = Zone_capacity_ zn).
Proof.
  intros Hz H. unfold Zone_Append_async in H.
  rewrite bind_gets in H.
  apply bind_Val_inv in H as (u & w1 & H1 & H).
  assert (w1 = w) as ->.
  { destruct (block_sz_ w =? 0); [discriminate|].
    apply assert_Val_inv in H1 as [_ ->]. reflexivity. }
  clear H1.
  apply bind_Val_inv in H as (s1 & w1 & H1 & H).
  destruct (Zone_Sync_cases _ _ _ _ _ Hz H1) as [[-> Hz1]|(-> & Hi & Hz1)].
  2:{ cbn in H. unfold ret in H. injection H as <- <-. right.
      split; [discriminate|]. exists zn. rewrite Hz1. auto. }
  cbn [IOStatus_ok negb] in H.
  assert (Hl1 : zones w1 !! z = Some (Zone_set_inflight 0 zn)).
  { rewrite Hz1. apply list_lookup_insert_eq. eapply lookup_lt_Some, Hz. }
  rewrite (bind_Val _ _ _ _ _ (getZone_Val _ _ _ Hl1)) in H.
  change (Zone_capacity_ (Zone_set_inflight 0 zn)) with (Zone_capacity_ zn) in H.
  destruct (Z.ltb_spec (Zone_capacity_ zn) size) as [Hlt|Hge].
  { unfold ret in H. injection H as <- <-. right.
    split; [discriminate|]. eexists. split; [exact Hl1|]. auto. }
  apply bind_Val_inv in H as (u1 & w2 & H2 & H).
  apply modZone_Val_inv in H2 as (zn2 & Hz2 & ->).
  rewrite Hl1 in Hz2. injection Hz2 as <-.
  apply bind_Val_inv in H as ([r e] & w3 & H3 & H).
  apply syscall_int_Val_inv in H3 as (rest & -> & _).
  destruct (r <? 0).
  { unfold ret in H. injection H as <- <-. right.
    split; [discriminate|]. eexists. split.
    - simpl. apply list_lookup_insert_eq. rewrite Hz1, length_insert.
      eapply lookup_lt_Some, Hz.
    - auto. }
  apply bind_Val_inv in H as (u3 & w4 & H4 & H).
  apply modZone_Val_inv in H4 as (zn4 & Hz4 & ->).
  simpl in Hz4. rewrite list_lookup_insert_eq in Hz4
    by (rewrite Hz1, length_insert; eapply lookup_lt_Some, Hz).
  injection Hz4 as <-.
  unfold ret in H. injection H as <- <-.
  left. split; [reflexivity|]. split; [lia|].
  simpl. rewrite Hz1, !list_insert_insert_eq. reflexivity.
Qed.

(** [Zone_Append_async_result] at [open_world]: 4096 bytes are
    submitted to a zone with 4096 bytes left. *)
Lemma Zone_Append_async_result_witness :
  zones open_world !! 0%nat = Some open_zone
  /\ Zone_Append_async 0 4096 open_world
     = Val OK (set_zones [mkZone 32768 8192 0 40960 WLTH_SHORT 0 true false 4096 4096]
                 (set_syscalls [Ret 0] open_world))
  /\ 4096 <= Zone_capacity_ open_zone.
Proof.
  split; [reflexivity|]. split; [reflexivity|].
  destruct (Zone_Append_async_result 0 4096 open_world _ OK open_zone eq_refl eq_refl)
    as [(_ & Hc & _)|(Hne & _)]; [exact Hc|congruence].
Defined.

(** X4.  [Zone::CloseWR] returns only on a zone that was open for write,
    and leaves it closed, with nothing in flight; the position of the
    write pointer, the capacity and the accounting of live data are
    untouched, and so is every other zone. *)
Theorem Zone_CloseWR_result (z : nat) (w w' : World) (zn : Zone) :
  zones w !! z = Some zn ->
  Zone_CloseWR z w = Val tt w' ->
  Zone_open_for_write_ zn = true
  /\ exists zn',
      zones w' = <[z := zn']> (zones w)
      /\ Zone_open_for_write_ zn' = false
      /\ Zone_wp_ zn' = Zone_wp_ zn
      /\ Zone_capacity_ zn' = Zone_capacity_ zn
      /\ Zone_used_capacity_ zn' = Zone_used_capacity_ zn
      /\ Zone_lifetime_ zn' = Zone_lifetime_ zn
      /\ Zone_bg_processing zn' = Zone_bg_processing zn.
Proof.
  intros Hz H. unfold Zone_CloseWR in H.
  rewrite (bind_Val _ _ _ _ _ (getZone_Val _ _ _ Hz)) in H.
  apply bind_Val_inv in H as (u & w1 & H1 & H).
  apply assert_Val_inv in H1 as [Hopen ->].
  split; [exact Hopen|].
  apply bind_Val_inv in H as (s1 & w1 & H1 & H).
  assert (Hz1 : exists zn1, zones w1 = <[z := zn1]> (zones w)
            /\ (zn1 = zn \/ zn1 = Zone_set_inflight 0 zn)).
  { destruct (Zone_Sync_cases _ _ _ _ _ Hz H1) as [[_ E]|(_ & _ & E)].
    - eexists. split; [exact E|]. right. reflexivity.
    - exists zn. split; [|left; reflexivity].
      rewrite E. symmetry. apply list_insert_id. exact Hz. }
  destruct Hz1 as (zn1 & E1 & Hzn1).
  assert (Hl1 : zones w1 !! z = Some zn1).
  { rewrite E1. apply list_lookup_insert_eq. eapply lookup_lt_Some, Hz. }
  apply bind_Val_inv in H as (s2 & w2 & H2 & H).
  unfold Zone_Close in H2.
  apply bind_Val_inv in H2 as (u2 & w3 & H3 & H2).
  apply modZone_Val_inv in H3 as (zn3 & Hz3 & ->).
  rewrite Hl1 in Hz3. injection Hz3 as <-.
  assert (Hw2 : zones w2 = <[z := Zone_set_open_for_write_ false zn1]> (zones w)
                /\ (s2 = OK \/ s2 = IOError)).
  { apply bind_Val_inv in H2 as (zn4 & w4 & H4 & H2).
    apply getZone_Val_inv in H4 as [_ ->].
    destruct (negb (Zone_IsEmpty zn4 || Zone_IsFull zn4)).
    - apply bind_Val_inv in H2 as ([r e] & w5 & H5 & H2).
      apply syscall_int_Val_inv in H5 as (rest & -> & _).
      destruct (negb (r =? 0)); unfold ret in H2; injection H2 as <- <-;
        simpl; rewrite E1, list_insert_insert_eq; auto.
    - unfold ret in H2. injection H2 as <- <-.
      simpl. rewrite E1, list_insert_insert_eq. auto. }
  destruct Hw2 as [E2 Hs2].
  destruct Hs2 as [-> | ->]; cbn [IOStatus_ok negb] in H.
  2:{ unfold assert in H. discriminate. }
  unfold ret in H. injection H as <-.
  exists (Zone_set_open_for_write_ false zn1). split; [exact E2|].
  destruct Hzn1 as [-> | ->]; repeat split.
Qed.

(** [Zone_CloseWR_result] at [open_world]; the half-written zone is
    closed at the device too. *)
Lemma Zone_CloseWR_result_witness :
  zones open_world !! 0%nat = Some open_zone
  /\ Zone_CloseWR 0 open_world
     = Val tt (set_zones [Zone_set_open_for_write_ false open_zone]
                 (set_syscalls [Ret 0] open_world))
  /\ Zone_open_for_write_ open_zone = true.
Proof.
  split; [reflexivity|]. split; [reflexivity|].
  exact (proj1 (Zone_CloseWR_result 0 open_world _ open_zone eq_refl eq_refl)).
Defined.

(** ** [ZonedBlockDevice::GetIOZone] *)

Lemma GetIOZone_scan_inv (zs : list (option nat)) :
  forall (offset : Z) (w w' : World) (r : option nat),
    GetIOZone_scan zs offset w = Val r w' ->
    w' = w
    /\ match r with
       | Some z =>
           exists pre post zn,
             zs = pre ++ Some z :: post
             /\ zones w !! z = Some zn
             /\ zone_holds (zone_sz_ w) zn offset
             /\ forall z0 zn0, In (Some z0) pre -> zones w !! z0 = Some zn0 ->
                               ~ zone_holds (zone_sz_ w) zn0 offset
       | None =>
           forall z0 zn0, In (Some z0) zs -> zones w !! z0 = Some zn0 ->
                          ~ zone_holds (zone_sz_ w) zn0 offset
       end.
Proof.
  induction zs as [|oz zs IH]; intros offset w w' r H; simpl in H.
  - unfold ret in H. injection H as <- <-. split; [reflexivity|].
    intros z0 zn0 [].
  - destruct oz as [z|]; [|discriminate].
    apply bind_Val_inv in H as (zn & w1 & H1 & H).
    apply getZone_Val_inv in H1 as [Hz ->].
    rewrite bind_gets in H.
    destruct ((Zone_start_ zn <=? offset)
              && (offset <? u64 (Zone_start_ zn + zone_sz_ w))) eqn:Hc.
    + unfold ret in H. injection H as <- <-. split; [reflexivity|].
      exists [], zs, zn. split; [reflexivity|]. split; [exact Hz|].
      apply andb_true_iff in Hc as [Hc1 Hc2].
      apply Z.leb_le in Hc1. apply Z.ltb_lt in Hc2.
      split; [split; assumption|]. intros z0 zn0 [].
    + apply IH in H as [-> H]. split; [reflexivity|].
      assert (Hno : ~ zone_holds (zone_sz_ w) zn offset).
      { unfold zone_holds. apply andb_false_iff in Hc as [Hc|Hc].
        - apply Z.leb_gt in Hc. lia.
        - apply Z.ltb_ge in Hc. lia. }
      destruct r as [z1|].
      * destruct H as (pre & post & zn1 & -> & Hz1 & Hh & Hpre).
        exists (Some z :: pre), post, zn1. split; [reflexivity|].
        split; [exact Hz1|]. split; [exact Hh|].
        intros z0 zn0 [E|Hin] Hz0.
        -- injection E as <-. rewrite Hz in Hz0. injection Hz0 as <-. exact Hno.
        -- eapply Hpre; eassumption.
      * intros z0 zn0 [E|Hin] Hz0.
        -- injection E as <-. rewrite Hz in Hz0. injection Hz0 as <-. exact Hno.
        -- eapply H; eassumption.
Qed.

(** X5.  [GetIOZone] changes nothing.  The zone it returns is the first
    zone of [io_zones_] that holds the offset, and it returns null only
    when no zone of [io_zones_] holds it. *)
Theorem GetIOZone_result (offset : Z) (w w' : World) (r : option nat) :
  GetIOZone offset w = Val r w' ->
  w' = w
  /\ match r with
     | Some z =>
         exists pre post zn,
           io_zones_ w = pre ++ Some z :: post
           /\ zones w !! z = Some zn
           /\ zone_holds (zone_sz_ w) zn offset
           /\ forall z0 zn0, In (Some z0) pre -> zones w !! z0 = Some zn0 ->
                             ~ zone_holds (zone_sz_ w) zn0 offset
     | None =>
         forall z0 zn0, In (Some z0) (io_zones_ w) -> zones w !! z0 = Some zn0 ->
                        ~ zone_holds (zone_sz_ w) zn0 offset
     end.
Proof.
  unfold GetIOZone. rewrite bind_gets. apply GetIOZone_scan_inv.
Qed.

(** [GetIOZone_result] in the GC scenario: an offset inside the second
    data zone, and an offset below all data zones. *)
Lemma GetIOZone_result_witness :
  GetIOZone 90000 gc_world = Val (Some 1%nat) gc_world
  /\ GetIOZone 100 gc_world = Val None gc_world
  /\ exists pre post zn,
      io_zones_ gc_world = pre ++ Some 1%nat :: post
      /\ zones gc_world !! 1%nat = Some zn
      /\ zone_holds (zone_sz_ gc_world) zn 90000.
Proof.
  split; [reflexivity|]. split; [reflexivity|].
  destruct (GetIOZone_result 90000 gc_world _ (Some 1%nat) eq_refl)
    as (_ & pre & post & zn & E & Hz & Hh & _).
  exists pre, post, zn. split; [exact E|]. split; [exact Hz|]. exact Hh.
Defined.

(** ** [ZoneFile::GetExtent] *)

Lemma ZoneFile_GetExtent_scan_inv (es : list nat) :
  forall (off : Z) (w w' : World) (r : option (nat * Z)),
    0 <= off < 2 ^ 64 ->
    extents_wf w ->
    ZoneFile_GetExtent_scan es off w = Val r w' ->
    w' = w
    /\ match r with
       | Some (e, dev) =>
           exists pre post x,
             es = pre ++ e :: post
             /\ extents w !! e = Some (Some x)
             /\ lengths_sum w pre <= off < lengths_sum w pre + ZoneExtent_length_ x
             /\ dev = u64 (ZoneExtent_start_ x + (off - lengths_sum w pre))
       | None => lengths_sum w es <= off
       end.
Proof.
  induction es as [|e es IH]; intros off w w' r Hoff Hwf H; simpl in H.
  - unfold ret in H. injection H as <- <-. split; [reflexivity|].
    unfold lengths_sum. simpl. lia.
  - apply bind_Val_inv in H as (x & w1 & H1 & H).
    unfold getExtent in H1.
    destruct (extents w !! e) as [[x'|]|] eqn:He; try discriminate.
    injection H1 as -> <-.
    pose proof (Hwf _ _ He) as [_ Hlen].
    assert (Hel : extent_length w e = ZoneExtent_length_ x).
    { unfold extent_length. rewrite He. reflexivity. }
    destruct (Z.ltb_spec off (ZoneExtent_length_ x)) as [Hlt|Hge].
    + unfold ret in H. injection H as <- <-. split; [reflexivity|].
      exists [], es, x. split; [reflexivity|]. split; [exact He|].
      unfold lengths_sum. simpl. split; [lia|]. f_equal. lia.
    + assert (Hu : u64 (off - ZoneExtent_length_ x) = off - ZoneExtent_length_ x).
      { apply Z.mod_small. lia. }
      rewrite Hu in H.
      apply IH in H as [-> H]; [|lia|exact Hwf]. split; [reflexivity|].
      destruct r as [[e1 dev]|].
      * destruct H as (pre & post & x1 & -> & He1 & Hr & ->).
        exists (e :: pre), post, x1. split; [reflexivity|]. split; [exact He1|].
        unfold lengths_sum in *. simpl. rewrite Hel. split; [lia|].
        f_equal. lia.
      * unfold lengths_sum in *. simpl. rewrite Hel. lia.
Qed.

(** X6.  [ZoneFile::GetExtent] changes nothing and finds the extent that
    covers a file offset: the lengths of the extents before it add up to
    at most the offset, the offset lies within the extent, and the device
    offset returned is the extent's start plus the distance into it.  It
    returns null exactly when the offset is at or beyond the sum of all
    extent lengths. *)
Theorem ZoneFile_GetExtent_result (f : ZoneFile) (off : Z) (w w' : World)
        (r : option (nat * Z)) :
  0 <= off < 2 ^ 64 ->
  extents_wf w ->
  ZoneFile_GetExtent f off w = Val r w' ->
  w' = w
  /\ match r with
     | Some (e, dev) =>
         exists pre post x,
           ZoneFile_extents_ f = pre ++ e :: post
           /\ extents w !! e = Some (Some x)
           /\ lengths_sum w pre <= off < lengths_sum w pre + ZoneExtent_length_ x
           /\ dev = u64 (ZoneExtent_start_ x + (off - lengths_sum w pre))
     | None => lengths_sum w (ZoneFile_extents_ f) <= off
     end.
Proof. apply ZoneFile_GetExtent_scan_inv. Qed.

(** [ZoneFile_GetExtent_result] in the GC scenario, with a file of two
    extents: offset 5000 lies 904 bytes into the second. *)
Lemma ZoneFile_GetExtent_result_witness :
  0 <= 5000 < 2 ^ 64
  /\ extents_wf gc_world
  /\ ZoneFile_GetExtent (ZoneFile_set_extents_ [0%nat; 1%nat] gc_file_A) 5000 gc_world
     = Val (Some (1%nat, 82824)) gc_world
  /\ ZoneFile_GetExtent (ZoneFile_set_extents_ [0%nat; 1%nat] gc_file_A) 12288 gc_world
     = Val None gc_world
  /\ lengths_sum gc_world [0%nat; 1%nat] <= 12288.
Proof.
  assert (Hwf : extents_wf gc_world).
  { intros e x He. destruct e as [|[|e]]; simpl in He.
    - injection He as <-. unfold ZoneExtent_wf. simpl. lia.
    - injection He as <-. unfold ZoneExtent_wf. simpl. lia.
    - discriminate. }
  split; [lia|]. split; [exact Hwf|]. split; [reflexivity|]. split; [reflexivity|].
  exact (proj2 (ZoneFile_GetExtent_result
                  (ZoneFile_set_extents_ [0%nat; 1%nat] gc_file_A) 12288
                  gc_world gc_world None ltac:(lia) Hwf eq_refl)).
Defined.

(** ** Frames: what a computation leaves alone *)

Section Frame.

Context {T : Type} (proj : World -> T).

Lemma keeps_ret' {A : Type} (a : A) : keeps proj (ret a).
Proof. intros w w' b H. unfold ret in H. injection H as _ <-. reflexivity. Qed.

Lemma keeps_bind' {A B : Type} (m : M A) (k : A -> M B) :
  keeps proj m -> (forall a, keeps proj (k a)) -> keeps proj (bind m k).
Proof.
  intros Hm Hk w w' b H.
  apply bind_Val_inv in H as (a & w1 & H1 & H2).
  rewrite (Hk _ _ _ _ H2). exact (Hm _ _ _ H1).
Qed.

Lemma keeps_gets' {A : Type} (f : World -> A) : keeps proj (gets f).
Proof. intros w w' b H. unfold gets in H. injection H as _ <-. reflexivity. Qed.

Lemma keeps_assert' (b : bool) : keeps proj (assert b).
Proof. intros w w' u H. apply assert_Val_inv in H as [_ ->]. reflexivity. Qed.

Lemma keeps_undefined' {A : Type} : keeps proj (@undefined A).
Proof. intros w w' b H. discriminate. Qed.

Lemma keeps_blocked' {A : Type} : keeps proj (@blocked A).
Proof. intros w w' b H. discriminate. Qed.

Lemma keeps_AssertFail' {A : Type} : keeps proj (fun _ : World => @AssertFail A).
Proof. intros w w' b H. discriminate. Qed.

Lemma keeps_getZone' (z : nat) : keeps proj (getZone z).
Proof. intros w w' b H. apply getZone_Val_inv in H as [_ ->]. reflexivity. Qed.

Lemma keeps_getExtent' (e : nat) : keeps proj (getExtent e).
Proof.
  intros w w' x H. unfold getExtent in H.
  destruct (extents w !! e) as [[x'|]|]; try discriminate.
  injection H as _ <-. reflexivity.
Qed.

Lemma keeps_modify' (f : World -> World) :
  (forall w, proj (f w) = proj w) -> keeps proj (modify f).
Proof. intros Hf w w' u H. unfold modify in H. injection H as _ <-. apply Hf. Qed.

Lemma keeps_modZone' (z : nat) (f : Zone -> Zone) :
  (forall w zn, zones w !! z = Some zn ->
                proj (set_zones (<[z := f zn]> (zones w)) w) = proj w) ->
  keeps proj (modZone z f).
Proof.
  intros Hf w w' u H. apply modZone_Val_inv in H as (zn & Hz & ->).
  apply Hf. exact Hz.
Qed.

Hypothesis proj_syscalls : forall v w, proj (set_syscalls v w) = proj w.

Lemma keeps_syscall' : keeps proj syscall.
Proof.
  intros w w' r H. unfold syscall in H. destruct (syscalls w); [discriminate|].
  injection H as _ <-. apply proj_syscalls.
Qed.

Lemma keeps_syscall_int' : keeps proj syscall_int.
Proof.
  apply keeps_bind'; [apply keeps_syscall'|].
  intros [v|e|r0 n0 off0 cap0]; first [apply keeps_ret' | apply keeps_blocked'].
Qed.

Lemma keeps_syscall_report' : keeps proj syscall_report.
Proof.
  apply keeps_bind'; [apply keeps_syscall'|].
  intros [v|e|r0 n0 off0 cap0]; first [apply keeps_ret' | apply keeps_blocked'].
Qed.

Lemma keeps_forM_' {A : Type} (l : list A) (f : A -> M unit) :
  (forall x, keeps proj (f x)) -> keeps proj (forM_ l f).
Proof.
  intros Hf. induction l as [|x l IH]; simpl.
  - apply keeps_ret'.
  - apply keeps_bind'; [apply Hf|]. intros _. exact IH.
Qed.

End Frame.

(** Splits a frame goal along the structure of the computation; what is
    left are the calls of other functions and the side conditions of the
    updates. *)
Ltac frame_step :=
  lazymatch goal with
  | |- keeps _ (ret _) => apply keeps_ret'
  | |- keeps _ (gets _) => apply keeps_gets'
  | |- keeps _ (assert _) => apply keeps_assert'
  | |- keeps _ undefined => apply keeps_undefined'
  | |- keeps _ blocked => apply keeps_blocked'
  | |- keeps _ (fun _ => AssertFail) => apply keeps_AssertFail'
  | |- keeps _ (getZone _) => apply keeps_getZone'
  | |- keeps _ (getExtent _) => apply keeps_getExtent'
  | |- keeps _ syscall_int => apply keeps_syscall_int'; intros; reflexivity
  | |- keeps _ syscall_report => apply keeps_syscall_report'; intros; reflexivity
  | |- keeps _ (bind _ _) => apply keeps_bind'; [|intros ?]
  | |- keeps _ (match ?x with _ => _ end) => destruct x
  end.

Ltac frame := repeat frame_step.

(** *** The extent store *)

Lemma keeps_extents_modZone (z : nat) (f : Zone -> Zone) : keeps extents (modZone z f).
Proof. apply keeps_modZone'. reflexivity. Qed.

Lemma keeps_extents_Zone_Sync (z : nat) : keeps extents (Zone_Sync z).
Proof. unfold Zone_Sync. frame. apply keeps_extents_modZone. Qed.

Lemma keeps_extents_Zone_Close (z : nat) : keeps extents (Zone_Close z).
Proof. unfold Zone_Close. frame. apply keeps_extents_modZone. Qed.

Lemma keeps_extents_Zone_CloseWR (z : nat) : keeps extents (Zone_CloseWR z).
Proof.
  unfold Zone_CloseWR. frame;
    first [apply keeps_extents_Zone_Sync | apply keeps_extents_Zone_Close].
Qed.

Lemma keeps_extents_Zone_Append_loop (fuel : nat) :
  forall z size left, keeps extents (Zone_Append_loop fuel z size left).
Proof.
  induction fuel as [|fuel IH]; intros z size n; simpl; frame.
  - apply keeps_extents_modZone.
  - apply IH.
Qed.

Lemma keeps_extents_Zone_Append (z : nat) (size : Z) : keeps extents (Zone_Append z size).
Proof.
  unfold Zone_Append. frame;
    first [apply keeps_extents_Zone_Sync | apply keeps_extents_Zone_Append_loop].
Qed.

(** *** [used_capacity_] again *)

Lemma keeps_used_modZone (z : nat) (f : Zone -> Zone) :
  (forall zn, Zone_used_capacity_ (f zn) = Zone_used_capacity_ zn) ->
  keeps used_capacities (modZone z f).
Proof.
  intros Hf. apply keeps_modZone'. intros w zn Hz.
  unfold used_capacities. simpl.
  rewrite list_fmap_insert, Hf.
  apply list_insert_id. rewrite list_lookup_fmap, Hz. reflexivity.
Qed.

Lemma keeps_used_Zone_Sync (z : nat) : keeps used_capacities (Zone_Sync z).
Proof. unfold Zone_Sync. frame. apply keeps_used_modZone. reflexivity. Qed.

Lemma keeps_used_Zone_Close (z : nat) : keeps used_capacities (Zone_Close z).
Proof. unfold Zone_Close. frame. apply keeps_used_modZone. reflexivity. Qed.

Lemma keeps_used_Zone_CloseWR (z : nat) : keeps used_capacities (Zone_CloseWR z).
Proof.
  unfold Zone_CloseWR. frame;
    first [apply keeps_used_Zone_Sync | apply keeps_used_Zone_Close].
Qed.

(** ** Accounting of live data: the paths that keep it *)

Lemma extents_in_zone_sum (w : World) (z : nat) :
  extents_in_zone w z = sumZ (map (extent_weight z) (extents w)).
Proof. reflexivity. Qed.

Lemma sumZ_app (l1 l2 : list Z) : sumZ (l1 ++ l2) = sumZ l1 + sumZ l2.
Proof.
  unfold sumZ. induction l1 as [|a l1 IH]; simpl; [reflexivity|]. rewrite IH. lia.
Qed.

Lemma sumZ_map_insert {A : Type} (f : A -> Z) (l : list A) :
  forall (i : nat) (a b : A),
    l !! i = Some a ->
    sumZ (map f (<[i := b]> l)) = sumZ (map f l) - f a + f b.
Proof.
  induction l as [|x l IH]; intros i a b Hi; [discriminate|].
  destruct i as [|i]; simpl in *.
  - injection Hi as ->. unfold sumZ. simpl. lia.
  - unfold sumZ in *. simpl. rewrite (IH i a b Hi). lia.
Qed.

(** The invariant looks at [used_capacity_] and at the extent store
    only. *)
Lemma used_capacity_invariant_ext (w w' : World) :
  used_capacities w' = used_capacities w ->
  extents w' = extents w ->
  used_capacity_invariant w -> used_capacity_invariant w'.
Proof.
  intros Hu He Hinv z zn' Hz'.
  assert (Hl : used_capacities w' !! z = Some (Zone_used_capacity_ zn')).
  { unfold used_capacities. rewrite list_lookup_fmap, Hz'. reflexivity. }
  rewrite Hu in Hl. unfold used_capacities in Hl.
  rewrite list_lookup_fmap in Hl.
  destruct (zones w !! z) as [zn|] eqn:Hz; [|discriminate].
  simpl in Hl. injection Hl as <-.
  rewrite (Hinv z zn Hz). unfold extents_in_zone. rewrite He. reflexivity.
Qed.

(** A new extent in zone [z] together with its bytes on the zone's
    counter. *)
Lemma used_capacity_invariant_add (w : World) (z : nat) (zn : Zone)
      (start len : Z) :
  used_capacity_invariant w ->
  zones w !! z = Some zn ->
  used_capacity_invariant
    (set_zones
       (<[z := Zone_set_used_capacity_ (u64 (Zone_used_capacity_ zn + len)) zn]>
          (zones w))
       (set_extents (extents w ++ [Some (mkZoneExtent start len (Some z))]) w)).
Proof.
  intros Hinv Hz z0 zn0 Hz0. simpl in Hz0.
  rewrite extents_in_zone_sum. simpl extents.
  rewrite map_app, sumZ_app. simpl map. unfold sumZ at 2. simpl fold_right.
  destruct (decide (z = z0)) as [<-|Hne].
  - rewrite list_lookup_insert_eq in Hz0 by (eapply lookup_lt_Some, Hz).
    injection Hz0 as <-. simpl.
    rewrite bool_decide_true by reflexivity.
    rewrite (Hinv z zn Hz), extents_in_zone_sum. unfold u64.
    rewrite Zplus_mod_idemp_l. f_equal. lia.
  - rewrite list_lookup_insert_ne in Hz0 by exact Hne.
    rewrite bool_decide_false by congruence.
    rewrite (Hinv z0 zn0 Hz0), extents_in_zone_sum. f_equal. lia.
Qed.

(** An entry that points at no zone adds nothing. *)
Lemma used_capacity_invariant_add_loose (w : World) (oe : option ZoneExtent) :
  used_capacity_invariant w ->
  (forall z, extent_weight z oe = 0) ->
  used_capacity_invariant (set_extents (extents w ++ [oe]) w).
Proof.
  intros Hinv Hoe z zn Hz. simpl in Hz.
  rewrite extents_in_zone_sum. simpl extents.
  rewrite map_app, sumZ_app. simpl map. unfold sumZ at 2. simpl fold_right.
  rewrite Hoe, (Hinv z zn Hz), extents_in_zone_sum. f_equal. lia.
Qed.

(** An extent taken out of zone [z] together with its bytes off the
    zone's counter. *)
Lemma used_capacity_invariant_remove (w : World) (e z : nat) (x : ZoneExtent)
      (zn : Zone) :
  used_capacity_invariant w ->
  extents w !! e = Some (Some x) ->
  ZoneExtent_zone_ x = Some z ->
  zones w !! z = Some zn ->
  used_capacity_invariant
    (set_extents (<[e := None]> (extents w))
       (set_zones
          (<[z := Zone_set_used_capacity_
                    (u64 (Zone_used_capacity_ zn - ZoneExtent_length_ x)) zn]>
             (zones w)) w)).
Proof.
  intros Hinv He Hxz Hz z0 zn0 Hz0. simpl in Hz0.
  rewrite extents_in_zone_sum. simpl extents.
  rewrite (sumZ_map_insert _ _ _ _ _ He). simpl.
  destruct (decide (z = z0)) as [<-|Hne].
  - rewrite list_lookup_insert_eq in Hz0 by (eapply lookup_lt_Some, Hz).
    injection Hz0 as <-. simpl.
    rewrite bool_decide_true by exact Hxz.
    rewrite (Hinv z zn Hz), extents_in_zone_sum. unfold u64.
    rewrite Zminus_mod_idemp_l. f_equal. lia.
  - rewrite list_lookup_insert_ne in Hz0 by exact Hne.
    rewrite bool_decide_false by congruence.
    rewrite (Hinv z0 zn0 Hz0), extents_in_zone_sum. f_equal. lia.
Qed.

(** *** [ZoneFile::PushExtent] *)

(** What [ZoneFile::PushExtent] does when it returns: nothing, when
    there is no active zone or nothing is pending, or else one new
    extent. *)
Lemma ZoneFile_PushExtent_inv (f f' : ZoneFile) (w w' : World) :
  ZoneFile_PushExtent f w = Val f' w' ->
  ZoneFile_extent_filepos_ f <= ZoneFile_fileSize f
  /\ ((f' = f /\ w' = w
       /\ (ZoneFile_active_zone_ f = None
           \/ u64 (ZoneFile_fileSize f - ZoneFile_extent_filepos_ f) = 0))
      \/ exists az zn,
          let len := u64 (ZoneFile_fileSize f - ZoneFile_extent_filepos_ f) in
          ZoneFile_active_zone_ f = Some az
          /\ zones w !! az = Some zn
          /\ len <> 0
          /\ len <= u64 (Zone_wp_ zn - ZoneFile_extent_start_ f)
          /\ w' = set_zones
                    (<[az := Zone_set_used_capacity_
                               (u64 (Zone_used_capacity_ zn + len)) zn]> (zones w))
                    (set_extents
                       (extents w
                        ++ [Some (mkZoneExtent (ZoneFile_extent_start_ f)
                                               (u32 len) (Some az))]) w)
          /\ f' = ZoneFile_set_extent_filepos_ (ZoneFile_fileSize f)
                    (ZoneFile_set_extent_start_ (Zone_wp_ zn)
                       (ZoneFile_set_extents_
                          (ZoneFile_extents_ f ++ [length (extents w)]) f))).
Proof.
  unfold ZoneFile_PushExtent. intros H.
  apply bind_Val_inv in H as (u & w1 & H1 & H).
  apply assert_Val_inv in H1 as [Hge ->].
  apply Z.geb_le in Hge. split; [exact Hge|].
  destruct (ZoneFile_active_zone_ f) as [az|] eqn:Haz.
  2:{ unfold ret in H. injection H as <- <-. left. auto. }
  destruct (Z.eqb_spec (u64 (ZoneFile_fileSize f - ZoneFile_extent_filepos_ f)) 0)
    as [E|E].
  { unfold ret in H. injection H as <- <-. left. auto. }
  right.
  apply bind_Val_inv in H as (zn & w1 & H1 & H).
  apply getZone_Val_inv in H1 as [Hz ->].
  apply bind_Val_inv in H as (u1 & w1 & H1 & H).
  apply assert_Val_inv in H1 as [Hle ->]. apply Z.leb_le in Hle.
  apply bind_Val_inv in H as (e & w1 & H1 & H).
  unfold new_ZoneExtent in H1. injection H1 as <- <-.
  apply bind_Val_inv in H as (u2 & w2 & H2 & H).
  apply modZone_Val_inv in H2 as (zn2 & Hz2 & ->).
  simpl in Hz2. rewrite Hz in Hz2. injection Hz2 as <-.
  apply bind_Val_inv in H as (zn3 & w3 & H3 & H).
  apply getZone_Val_inv in H3 as [Hz3 ->].
  simpl in Hz3. rewrite list_lookup_insert_eq in Hz3 by (eapply lookup_lt_Some, Hz).
  injection Hz3 as <-.
  unfold ret in H. injection H as <- <-.
  exists az, zn. repeat split; auto.
Qed.

(** X7.  [ZoneFile::PushExtent] is idempotent: called again right after
    it returned, it returns the same file and changes nothing. *)
Theorem ZoneFile_PushExtent_idempotent (f f' : ZoneFile) (w w' : World) :
  ZoneFile_PushExtent f w = Val f' w' ->
  ZoneFile_PushExtent f' w' = Val f' w'.
Proof.
  intros H. pose proof H as H0.
  apply ZoneFile_PushExtent_inv in H
    as [Hge [(-> & -> & _)|(az & zn & Haz & Hz & Hne & Hle & -> & ->)]].
  - exact H0.
  - unfold ZoneFile_PushExtent. simpl.
    unfold bind, assert.
    destruct (Z.geb_spec (ZoneFile_fileSize f) (ZoneFile_fileSize f)) as [_|?]; [|lia].
    rewrite Haz, Z.sub_diag. reflexivity.
Qed.

(** X8.  [ZoneFile::PushExtent] keeps the accounting of live data: if
    every zone's [used_capacity_] was the sum of the extents pointing at
    it, it is so afterwards, as long as the pending bytes fit the 32 bits
    of an extent's length. *)
Theorem ZoneFile_PushExtent_keeps_accounting (f f' : ZoneFile) (w w' : World) :
  used_capacity_invariant w ->
  u64 (ZoneFile_fileSize f - ZoneFile_extent_filepos_ f) < 2 ^ 32 ->
  ZoneFile_PushExtent f w = Val f' w' ->
  used_capacity_invariant w'.
Proof.
  intros Hinv Hlen H.
  apply ZoneFile_PushExtent_inv in H
    as [Hge [(-> & -> & _)|(az & zn & Haz & Hz & Hne & Hle & -> & ->)]].
  - exact Hinv.
  - assert (Hu : u32 (u64 (ZoneFile_fileSize f - ZoneFile_extent_filepos_ f))
                 = u64 (ZoneFile_fileSize f - ZoneFile_extent_filepos_ f)).
    { apply Z.mod_small. split; [|exact Hlen].
      apply Z.mod_pos_bound. lia. }
    rewrite Hu. apply used_capacity_invariant_add; assumption.
Qed.
Lemma used_capacity_invariantb_sound (w : World) :
  used_capacity_invariantb w = true -> used_capacity_invariant w.
Proof.
  unfold used_capacity_invariantb. intros H z zn Hz.
  rewrite forallb_forall in H.
  assert (Hin : In z (seq 0 (length (zones w)))).
  { apply in_seq. apply lookup_lt_Some in Hz. lia. }
  specialize (H z Hin). rewrite Hz in H. apply Z.eqb_eq in H. exact H.
Qed.

(** [ZoneFile_PushExtent_idempotent] at [push_file]: the first call
    pushes the extent (32768, 4096), the second changes nothing. *)
Lemma ZoneFile_PushExtent_idempotent_witness :
  exists f' w',
    ZoneFile_PushExtent push_file open_world = Val f' w'
    /\ extents w' = [Some (mkZoneExtent 32768 4096 (Some 0%nat))]
    /\ ZoneFile_PushExtent f' w' = Val f' w'.
Proof.
  eexists _, _. split; [vm_compute; reflexivity|]. split; [reflexivity|].
  eapply (ZoneFile_PushExtent_idempotent push_file _ open_world).
  vm_compute. reflexivity.
Defined.

(** [ZoneFile_PushExtent_keeps_accounting] at [push_file]. *)
Lemma ZoneFile_PushExtent_keeps_accounting_witness :
  used_capacity_invariant open_world
  /\ exists f' w',
      ZoneFile_PushExtent push_file open_world = Val f' w'
      /\ used_capacities w' = [4096]
      /\ used_capacity_invariant w'.
Proof.
  assert (Hinv : used_capacity_invariant open_world)
    by (apply used_capacity_invariantb_sound; reflexivity).
  split; [exact Hinv|].
  eexists _, _. split; [vm_compute; reflexivity|]. split; [reflexivity|].
  eapply (ZoneFile_PushExtent_keeps_accounting push_file _ open_world _ Hinv).
  - vm_compute. reflexivity.
  - vm_compute. reflexivity.
Defined.

(** *** [ZoneFile::MergeUpdate] *)

Lemma extents_wf_add (w : World) (x : ZoneExtent) (zs : list Zone) :
  extents_wf w -> ZoneExtent_wf x ->
  extents_wf (set_zones zs (set_extents (extents w ++ [Some x]) w)).
Proof.
  intros Hwf Hx e y He. simpl in He.
  apply lookup_app_Some in He as [He|[_ He]].
  - exact (Hwf e y He).
  - destruct (e - length (extents w))%nat as [|n]; simpl in He; [|discriminate].
    injection He as <-. exact Hx.
Qed.

Lemma ZoneExtent_wf_copy (x : ZoneExtent) (z : nat) :
  ZoneExtent_wf x -> ZoneExtent_zone_ x = Some z ->
  mkZoneExtent (ZoneExtent_start_ x) (u32 (ZoneExtent_length_ x)) (Some z) = x.
Proof.
  intros [_ Hl] Hz. destruct x as [s l oz]. simpl in *. subst oz.
  f_equal. apply Z.mod_small. exact Hl.
Qed.

(** The loop of [MergeUpdate]: every extent of the update is copied
    into a new extent object, at the end of the store, and its length is
    added to its zone. *)
Lemma ZoneFile_MergeUpdate_extents_inv (es : list nat) :
  forall (f f' : ZoneFile) (w w' : World),
    extents_wf w ->
    used_capacity_invariant w ->
    ZoneFile_MergeUpdate_extents es f w = Val f' w' ->
    extents_wf w'
    /\ used_capacity_invariant w'
    /\ f' = ZoneFile_set_extents_
              (ZoneFile_extents_ f ++ seq (length (extents w)) (length es)) f
    /\ extents w'
       = extents w ++ map (fun e => default None (extents w' !! e)) es.
Proof.
  induction es as [|e es IH]; intros f f' w w' Hwf Hinv H; simpl in H.
  - unfold ret in H. injection H as <- <-.
    split; [exact Hwf|]. split; [exact Hinv|]. simpl.
    rewrite !app_nil_r. split; [destruct f; reflexivity|reflexivity].
  - apply bind_Val_inv in H as (x & w1 & H1 & H).
    unfold getExtent in H1.
    destruct (extents w !! e) as [[x'|]|] eqn:He; try discriminate.
    injection H1 as -> <-.
    destruct (ZoneExtent_zone_ x) as [z|] eqn:Hxz; [|discriminate].
    apply bind_Val_inv in H as (u & w1 & H1 & H).
    apply modZone_Val_inv in H1 as (zn & Hz & ->).
    apply bind_Val_inv in H as (e' & w2 & H2 & H).
    unfold new_ZoneExtent in H2. injection H2 as <- <-.
    rewrite (ZoneExtent_wf_copy x z (Hwf _ _ He) Hxz) in H.
    simpl extents in H.
    apply IH in H as (Hwf' & Hinv' & -> & Hext).
    + split; [exact Hwf'|]. split; [exact Hinv'|].
      simpl ZoneFile_extents_. simpl extents in *. simpl length.
      rewrite length_app in *. simpl length in *.
      split.
      * unfold ZoneFile_set_extents_. simpl. f_equal.
        rewrite <- app_assoc. simpl. do 2 f_equal. f_equal. lia.
      * rewrite Hext at 1. rewrite <- app_assoc. simpl. do 2 f_equal.
        assert (Hl : extents w' !! e = Some (Some x)).
        { rewrite Hext. apply lookup_app_l_Some, lookup_app_l_Some. exact He. }
        rewrite Hl. reflexivity.
    + exact (extents_wf_add w x _ Hwf (Hwf _ _ He)).
    + pose proof (used_capacity_invariant_add w z zn (ZoneExtent_start_ x)
                    (ZoneExtent_length_ x) Hinv Hz) as Ha.
      destruct x as [s l oz]. simpl in *. subst oz. exact Ha.
Qed.

(** X9.  [ZoneFile::MergeUpdate] keeps the accounting of live data: the
    copies it makes of the update's extents are added to their zones. *)
Theorem ZoneFile_MergeUpdate_keeps_accounting (f update f' : ZoneFile)
        (w w' : World) (s : IOStatus) :
  extents_wf w ->
  used_capacity_invariant w ->
  ZoneFile_MergeUpdate f update w = Val (s, f') w' ->
  extents_wf w' /\ used_capacity_invariant w'.
Proof.
  intros Hwf Hinv H. unfold ZoneFile_MergeUpdate in H.
  destruct (negb (ZoneFile_file_id_ f =? ZoneFile_file_id_ update)).
  { unfold ret in H. injection H as _ _ <-. split; assumption. }
  apply bind_Val_inv in H as (f1 & w1 & H1 & H).
  apply ZoneFile_MergeUpdate_extents_inv in H1 as (Hwf' & Hinv' & _); try assumption.
  unfold ret in H. injection H as _ _ <-. split; assumption.
Qed.

Lemma gc_world_wf : extents_wf gc_world.
Proof.
  intros e x He. destruct e as [|[|e]]; simpl in He.
  - injection He as <-. unfold ZoneExtent_wf. simpl. lia.
  - injection He as <-. unfold ZoneExtent_wf. simpl. lia.
  - discriminate.
Qed.

Lemma gc_world_accounting : used_capacity_invariant gc_world.
Proof. apply used_capacity_invariantb_sound. reflexivity. Qed.

(** [ZoneFile_MergeUpdate_keeps_accounting] in the GC scenario: file A
    gets a copy of the extent in zone 1, which then holds 16384 live
    bytes. *)
Lemma ZoneFile_MergeUpdate_keeps_accounting_witness :
  extents_wf gc_world
  /\ used_capacity_invariant gc_world
  /\ exists f' w',
      ZoneFile_MergeUpdate gc_file_A update_file gc_world = Val (OK, f') w'
      /\ used_capacities w' = [4096; 16384; 0; 0]
      /\ extents_wf w' /\ used_capacity_invariant w'.
Proof.
  split; [exact gc_world_wf|]. split; [exact gc_world_accounting|].
  eexists _, _. split; [vm_compute; reflexivity|]. split; [reflexivity|].
  eapply (ZoneFile_MergeUpdate_keeps_accounting gc_file_A update_file _ gc_world
            _ OK gc_world_wf gc_world_accounting).
  vm_compute. reflexivity.
Defined.


(** *** [ZoneFile::~ZoneFile] *)

Lemma ZoneFile_destroy_unfold (f : ZoneFile) :
  ZoneFile_destroy f
  = (forM_ (ZoneFile_extents_ f) ZoneFile_destroy_extent ;;
     ZoneFile_CloseWR f ;;
     ret tt).
Proof. reflexivity. Qed.

Lemma ZoneFile_destroy_extent_inv (e : nat) (w w' : World) (u : unit) :
  ZoneFile_destroy_extent e w = Val u w' ->
  exists x z zn,
    extents w !! e = Some (Some x)
    /\ ZoneExtent_zone_ x = Some z
    /\ zones w !! z = Some zn
    /\ ZoneExtent_length_ x <= Zone_used_capacity_ zn
    /\ w' = set_extents (<[e := None]> (extents w))
              (set_zones
                 (<[z := Zone_set_used_capacity_
                           (u64 (Zone_used_capacity_ zn - ZoneExtent_length_ x)) zn]>
                    (zones w)) w).
Proof.
  unfold ZoneFile_destroy_extent. intros H.
  apply bind_Val_inv in H as (x & w1 & H1 & H).
  unfold getExtent in H1.
  destruct (extents w !! e) as [[x'|]|] eqn:He; try discriminate.
  injection H1 as -> <-.
  destruct (ZoneExtent_zone_ x) as [z|] eqn:Hxz; [|discriminate].
  apply bind_Val_inv in H as (zn & w1 & H1 & H).
  apply getZone_Val_inv in H1 as [Hz ->].
  apply bind_Val_inv in H as (u1 & w1 & H1 & H).
  apply assert_Val_inv in H1 as [Hge ->].
  apply bind_Val_inv in H as (u2 & w1 & H1 & H).
  apply modZone_Val_inv in H1 as (zn' & Hz' & ->).
  rewrite Hz in Hz'. injection Hz' as <-.
  unfold delete_ZoneExtent in H.
  apply bind_Val_inv in H as (x2 & w1 & H1 & H).
  unfold getExtent in H1. simpl extents in H1. rewrite He in H1.
  injection H1 as _ <-.
  unfold modify in H. injection H as _ <-.
  exists x, z, zn. repeat split; try assumption. lia.
Qed.

Lemma ZoneFile_destroy_loop (es : list nat) :
  forall (w w' : World) (u : unit),
    used_capacity_invariant w ->
    forM_ es ZoneFile_destroy_extent w = Val u w' ->
    used_capacity_invariant w'
    /\ length (extents w') = length (extents w)
    /\ (forall e, extents w !! e = Some None -> extents w' !! e = Some None)
    /\ (forall e, In e es -> extents w' !! e = Some None)
    /\ (forall e, ~ In e es -> extents w' !! e = extents w !! e).
Proof.
  induction es as [|e es IH]; intros w w' u Hinv H; simpl in H.
  - unfold ret in H. injection H as _ <-.
    split; [exact Hinv|]. split; [reflexivity|]. split; [auto|].
    split; [intros e []|reflexivity].
  - apply bind_Val_inv in H as (u1 & w1 & H1 & H).
    apply ZoneFile_destroy_extent_inv in H1 as (x & z & zn & He & Hxz & Hz & Hle & ->).
    apply IH in H as (Hinv' & Hlen & Hdead & Hin & Hout).
    2:{ exact (used_capacity_invariant_remove w e z x zn Hinv He Hxz Hz). }
    simpl extents in *.
    assert (Hlt : (e < length (extents w))%nat) by (eapply lookup_lt_Some, He).
    split; [exact Hinv'|].
    split; [rewrite Hlen; apply length_insert|].
    split.
    { intros e0 He0. apply Hdead.
      destruct (decide (e = e0)) as [<-|Hne].
      - rewrite list_lookup_insert_eq by exact Hlt. reflexivity.
      - rewrite list_lookup_insert_ne by exact Hne. exact He0. }
    split.
    { intros e0 [<-|Hin0]; [|exact (Hin e0 Hin0)].
      apply Hdead. rewrite list_lookup_insert_eq by exact Hlt. reflexivity. }
    intros e0 Hnot. simpl in Hnot.
    rewrite Hout by tauto.
    apply list_lookup_insert_ne. tauto.
Qed.

Lemma ZoneFile_CloseWR_keeps_extents (f : ZoneFile) :
  keeps extents (ZoneFile_CloseWR f).
Proof.
  unfold ZoneFile_CloseWR. frame. apply keeps_extents_Zone_CloseWR.
Qed.

Lemma ZoneFile_CloseWR_keeps_used (f : ZoneFile) :
  keeps used_capacities (ZoneFile_CloseWR f).
Proof.
  unfold ZoneFile_CloseWR. frame. apply keeps_used_Zone_CloseWR.
Qed.

(** X11.  The destructor of a zone file deletes every extent of the file,
    and no other, and takes the bytes of each off the live data counter
    of its zone: the accounting of live data is kept. *)
Theorem ZoneFile_destroy_releases_extents (f : ZoneFile) (w w' : World) (u : unit) :
  used_capacity_invariant w ->
  ZoneFile_destroy f w = Val u w' ->
  used_capacity_invariant w'
  /\ (forall e, In e (ZoneFile_extents_ f) -> extents w' !! e = Some None)
  /\ (forall e, ~ In e (ZoneFile_extents_ f) -> extents w' !! e = extents w !! e).
Proof.
  intros Hinv H. rewrite ZoneFile_destroy_unfold in H.
  apply bind_Val_inv in H as (u1 & w1 & H1 & H).
  apply ZoneFile_destroy_loop in H1 as (Hinv1 & _ & _ & Hin & Hout); [|exact Hinv].
  apply bind_Val_inv in H as (f1 & w2 & H2 & H).
  unfold ret in H. injection H as _ <-.
  pose proof (ZoneFile_CloseWR_keeps_extents f _ _ _ H2) as He.
  pose proof (ZoneFile_CloseWR_keeps_used f _ _ _ H2) as Hu.
  split; [exact (used_capacity_invariant_ext _ _ Hu He Hinv1)|].
  rewrite He. split; assumption.
Qed.

(** [ZoneFile_destroy_releases_extents] in the GC scenario: destroying
    file B empties zone 1 and leaves the extent of file A alone. *)
Lemma ZoneFile_destroy_releases_extents_witness :
  used_capacity_invariant gc_world
  /\ exists w',
      ZoneFile_destroy gc_file_B gc_world = Val tt w'
      /\ used_capacities w' = [4096; 0; 0; 0]
      /\ extents w' = [Some (mkZoneExtent 65536 4096 (Some 0%nat)); None]
      /\ used_capacity_invariant w'.
Proof.
  split; [exact gc_world_accounting|].
  eexists. split; [vm_compute; reflexivity|]. split; [reflexivity|].
  split; [reflexivity|].
  eapply (proj1 (ZoneFile_destroy_releases_extents gc_file_B gc_world _ tt
                   gc_world_accounting _)).
  Unshelve. vm_compute. reflexivity.
Defined.

(** *** Decoding an extent *)

Lemma insert_app_last {A : Type} (l : list A) (a b : A) :
  <[length l := b]> (l ++ [a]) = l ++ [b].
Proof. induction l as [|x l IH]; simpl; [reflexivity|]. rewrite IH. reflexivity. Qed.

Lemma ZoneExtent_DecodeFrom_inv (old x : ZoneExtent) (input rest : list byte)
      (s : IOStatus) :
  ZoneExtent_DecodeFrom old input = (s, rest, x) ->
  (s = Corruption /\ length input <> 12%nat /\ rest = input /\ x = old)
  \/ (s = OK /\ length input = 12%nat /\ rest = []
      /\ ZoneExtent_wf x
      /\ ZoneExtent_zone_ x = ZoneExtent_zone_ old
      /\ ZoneExtent_EncodeTo x [] = input).
Proof.
  unfold ZoneExtent_DecodeFrom.
  destruct (Nat.eqb_spec (length input) (8 + 4)) as [E|E]; cbn [negb].
  2:{ intros H. injection H as <- <- <-. left. simpl in E. auto. }
  unfold GetFixed64.
  destruct (Nat.ltb_spec (length input) 8) as [L|_]; [simpl in E; lia|].
  unfold GetFixed32. rewrite length_skipn.
  destruct (Nat.ltb_spec (length input - 8) 4) as [L|_]; [simpl in E; lia|].
  intros H. injection H as <- <- <-. right.
  assert (L8 : length (firstn 8 input) = 8%nat) by (rewrite length_firstn; simpl in E; lia).
  assert (L4 : length (firstn 4 (skipn 8 input)) = 4%nat)
    by (rewrite length_firstn, length_skipn; simpl in E; lia).
  split; [reflexivity|]. split; [exact E|].
  split.
  { apply length_zero_iff_nil. rewrite !length_skipn. simpl in E. lia. }
  split.
  { unfold ZoneExtent_wf. simpl.
    pose proof (le_combine_bound (firstn 8 input)) as B8.
    pose proof (le_combine_bound (firstn 4 (skipn 8 input))) as B4.
    rewrite L8 in B8. rewrite L4 in B4. simpl in B8, B4. lia. }
  split; [reflexivity|].
  unfold ZoneExtent_EncodeTo, PutFixed64, PutFixed32.
  cbn [ZoneExtent_start_ ZoneExtent_length_]. rewrite app_nil_l.
  rewrite (split_le_combine' _ 8 L8), (split_le_combine' _ 4 L4).
  rewrite <- (firstn_skipn 8 input) at 3. f_equal.
  rewrite <- (firstn_skipn 4 (skipn 8 input)) at 2.
  assert (Hnil : skipn 4 (skipn 8 input) = []).
  { apply length_zero_iff_nil. rewrite !length_skipn. simpl in E. lia. }
  rewrite Hnil, app_nil_r. reflexivity.
Qed.

(** X12.  Decoding is the inverse of encoding on every input it accepts.
    [ZoneExtent::DecodeFrom] accepts exactly the inputs of 12 bytes; it
    consumes them, gives a start below 2^64 and a length below 2^32, leaves
    [zone_] alone, and [EncodeTo] of the result is the input again. *)
Theorem ZoneExtent_DecodeFrom_then_EncodeTo (old x : ZoneExtent)
        (input rest : list byte) :
  ZoneExtent_DecodeFrom old input = (OK, rest, x) ->
  length input = 12%nat /\ rest = []
  /\ ZoneExtent_wf x
  /\ ZoneExtent_zone_ x = ZoneExtent_zone_ old
  /\ ZoneExtent_EncodeTo x [] = input.
Proof.
  intros H. apply ZoneExtent_DecodeFrom_inv in H as [(Hs & _)|(_ & H)].
  - discriminate Hs.
  - exact H.
Qed.

(** [ZoneExtent_DecodeFrom_then_EncodeTo] at the encoding of the extent
    (4096, 8192). *)
Lemma ZoneExtent_DecodeFrom_then_EncodeTo_witness :
  ZoneExtent_DecodeFrom (mkZoneExtent 0 0 None)
    (le_split 8 4096 ++ le_split 4 8192)
  = (OK, [], mkZoneExtent 4096 8192 None)
  /\ ZoneExtent_EncodeTo (mkZoneExtent 4096 8192 None) []
     = le_split 8 4096 ++ le_split 4 8192.
Proof.
  split; [reflexivity|].
  exact (proj2 (proj2 (proj2 (proj2
           (ZoneExtent_DecodeFrom_then_EncodeTo (mkZoneExtent 0 0 None)
              (mkZoneExtent 4096 8192 None)
              (le_split 8 4096 ++ le_split 4 8192) [] eq_refl))))).
Defined.

(** *** The [kExtent] case of [ZoneFile::DecodeFrom] *)

Lemma GetIOZone_set_extents (offset : Z) (es : list (option ZoneExtent))
      (w w2 : World) (r : option nat) :
  GetIOZone offset (set_extents es w) = Val r w2 ->
  GetIOZone offset w = Val r w /\ w2 = set_extents es w.
Proof.
  unfold GetIOZone. rewrite !bind_gets. simpl io_zones_.
  generalize (io_zones_ w) as zs.
  induction zs as [|[z|] zs IH]; simpl; intros H2.
  - unfold ret in *. inversion H2; subst. split; reflexivity.
  - unfold bind at 1, getZone in H2. simpl zones in H2.
    unfold bind at 1, getZone.
    destruct (zones w !! z) as [zn|]; [|discriminate].
    rewrite bind_gets in *.
    change (zone_sz_ (set_extents es w)) with (zone_sz_ w) in H2.
    destruct ((Zone_start_ zn <=? offset)
              && (offset <? u64 (Zone_start_ zn + zone_sz_ w))).
    + unfold ret in *. inversion H2; subst. split; reflexivity.
    + exact (IH H2).
  - discriminate.
Qed.

Lemma ZoneFile_DecodeFrom_kExtent_inv (slice : list byte) (f f' : ZoneFile)
      (w w' : World) (r : option IOStatus) :
  ZoneFile_DecodeFrom_kExtent slice f w = Val (r, f') w' ->
  (r = Some Corruption /\ f' = f /\ zones w' = zones w
   /\ length slice <> 12%nat
   /\ extents w' = extents w ++ [None])
  \/ (exists x,
        r = Some Corruption /\ f' = f /\ zones w' = zones w
        /\ length slice = 12%nat
        /\ GetIOZone (ZoneExtent_start_ x) w = Val None w
        /\ ZoneExtent_EncodeTo x [] = slice
        /\ ZoneExtent_zone_ x = None
        /\ extents w' = extents w ++ [Some x])
  \/ (exists x z zn,
        r = None
        /\ f' = ZoneFile_set_extents_
                  (ZoneFile_extents_ f ++ [length (extents w)]) f
        /\ length slice = 12%nat
        /\ GetIOZone (ZoneExtent_start_ x) w = Val (Some z) w
        /\ ZoneExtent_EncodeTo x [] = slice
        /\ ZoneExtent_zone_ x = Some z
        /\ zones w !! z = Some zn
        /\ zones w' = <[z := Zone_set_used_capacity_
                            (u64 (Zone_used_capacity_ zn + ZoneExtent_length_ x)) zn]>
                        (zones w)
        /\ extents w' = extents w ++ [Some x]).
Proof.
  unfold ZoneFile_DecodeFrom_kExtent. intros H.
  apply bind_Val_inv in H as (e & w1 & H1 & H).
  unfold new_ZoneExtent in H1. injection H1 as <- <-.
  apply bind_Val_inv in H as (x0 & w1 & H1 & H).
  unfold getExtent in H1. simpl extents in H1.
  rewrite lookup_app_r in H1 by lia. rewrite Nat.sub_diag in H1. simpl in H1.
  injection H1 as <- <-.
  destruct (ZoneExtent_DecodeFrom _ slice) as [[s rest] x] eqn:Hd.
  apply ZoneExtent_DecodeFrom_inv in Hd
    as [(-> & Hlen & _ & ->)|(-> & Hlen & _ & Hwf & Hxz & Henc)].
  - apply bind_Val_inv in H as (u & w1 & H1 & H).
    unfold putExtent, modify in H1. injection H1 as _ <-.
    cbn [IOStatus_ok negb] in H.
    apply bind_Val_inv in H as (u2 & w2 & H2 & H).
    unfold delete_ZoneExtent in H2.
    apply bind_Val_inv in H2 as (x2 & w3 & H3 & H2).
    unfold getExtent in H3. simpl extents in H3.
    rewrite !insert_app_last in H3.
    rewrite lookup_app_r in H3 by lia. rewrite Nat.sub_diag in H3. simpl in H3.
    injection H3 as _ <-.
    unfold modify in H2. injection H2 as _ <-.
    unfold ret in H. injection H as <- <- <-.
    left. repeat split; try assumption.
    simpl. rewrite !insert_app_last. reflexivity.
  - apply bind_Val_inv in H as (u & w1 & H1 & H).
    unfold putExtent, modify in H1. injection H1 as _ <-.
    cbn [IOStatus_ok negb] in H.
    apply bind_Val_inv in H as (oz & w2 & H2 & H).
    apply GetIOZone_set_extents in H2 as [Hg ->].
    apply GetIOZone_set_extents in Hg as [Hg _].
    apply bind_Val_inv in H as (u3 & w3 & H3 & H).
    unfold putExtent, modify in H3. injection H3 as _ <-.
    destruct oz as [z|].
    + apply bind_Val_inv in H as (u4 & w4 & H4 & H).
      apply modZone_Val_inv in H4 as (zn & Hz & ->).
      unfold ret in H. injection H as <- <- <-.
      right. right.
      exists (mkZoneExtent (ZoneExtent_start_ x) (ZoneExtent_length_ x) (Some z)), z, zn.
      split; [reflexivity|]. split; [reflexivity|]. split; [exact Hlen|].
      split; [exact Hg|]. split; [exact Henc|]. split; [reflexivity|].
      split; [exact Hz|]. split; [reflexivity|].
      simpl. rewrite !insert_app_last. reflexivity.
    + unfold ret in H. injection H as <- <- <-.
      right. left.
      exists (mkZoneExtent (ZoneExtent_start_ x) (ZoneExtent_length_ x) None).
      split; [reflexivity|]. split; [reflexivity|]. split; [reflexivity|].
      split; [exact Hlen|].
      split; [exact Hg|]. split; [exact Henc|]. split; [reflexivity|].
      simpl. rewrite !insert_app_last. reflexivity.
Qed.

(** X13.  The [kExtent] case of [ZoneFile::DecodeFrom] keeps the accounting
    of live data.  When decoding goes on, the slice had 12 bytes, the file
    has one more extent, which encodes to the slice and belongs to the zone
    of [io_zones_] that holds its start, and the bytes of the extent were
    added to that zone.  In every other case Corruption is returned and the
    file is as before. *)
Theorem ZoneFile_DecodeFrom_kExtent_result (slice : list byte) (f f' : ZoneFile)
        (w w' : World) (r : option IOStatus) :
  used_capacity_invariant w ->
  ZoneFile_DecodeFrom_kExtent slice f w = Val (r, f') w' ->
  used_capacity_invariant w'
  /\ match r with
     | None =>
         exists x z,
           length slice = 12%nat
           /\ ZoneFile_extents_ f' = ZoneFile_extents_ f ++ [length (extents w)]
           /\ extents w' = extents w ++ [Some x]
           /\ ZoneExtent_EncodeTo x [] = slice
           /\ ZoneExtent_zone_ x = Some z
           /\ GetIOZone (ZoneExtent_start_ x) w = Val (Some z) w
     | Some s => s = Corruption /\ f' = f
     end.
Proof.
  intros Hinv H.
  apply ZoneFile_DecodeFrom_kExtent_inv in H
    as [(-> & -> & Hzs & Hlen & Hext)
       |[(x & -> & -> & Hzs & Hlen & Hg & Henc & Hxz & Hext)
        |(x & z & zn & -> & -> & Hlen & Hg & Henc & Hxz & Hz & Hzs & Hext)]].
  - split; [|split; reflexivity].
    apply (used_capacity_invariant_ext (set_extents (extents w ++ [None]) w)).
    + unfold used_capacities. rewrite Hzs. reflexivity.
    + rewrite Hext. reflexivity.
    + apply used_capacity_invariant_add_loose; [exact Hinv|reflexivity].
  - split; [|split; reflexivity].
    apply (used_capacity_invariant_ext (set_extents (extents w ++ [Some x]) w)).
    + unfold used_capacities. rewrite Hzs. reflexivity.
    + rewrite Hext. reflexivity.
    + apply used_capacity_invariant_add_loose; [exact Hinv|].
      intros z. unfold extent_weight. rewrite Hxz.
      rewrite bool_decide_eq_false_2 by discriminate. reflexivity.
  - split.
    + eapply used_capacity_invariant_ext;
        [| |exact (used_capacity_invariant_add w z zn (ZoneExtent_start_ x)
                     (ZoneExtent_length_ x) Hinv Hz)].
      * unfold used_capacities. rewrite Hzs. reflexivity.
      * rewrite Hext. simpl. destruct x as [xs xl xz]. simpl in *. subst xz.
        reflexivity.
    + exists x, z. repeat split; assumption.
Qed.

(** [ZoneFile_DecodeFrom_kExtent_result] in the GC scenario: the
    extent (98304, 4096) read back for file A lands in zone 2. *)
Lemma ZoneFile_DecodeFrom_kExtent_result_witness :
  used_capacity_invariant gc_world
  /\ exists f' w',
      ZoneFile_DecodeFrom_kExtent (le_split 8 98304 ++ le_split 4 4096)
        gc_file_A gc_world = Val (None, f') w'
      /\ ZoneFile_extents_ f' = [0%nat; 2%nat]
      /\ used_capacities w' = [4096; 8192; 4096; 0]
      /\ used_capacity_invariant w'.
Proof.
  split; [exact gc_world_accounting|].
  eexists _, _. split; [vm_compute; reflexivity|].
  split; [reflexivity|]. split; [reflexivity|].
  match goal with
  | |- used_capacity_invariant ?w' =>
      refine (proj1 (ZoneFile_DecodeFrom_kExtent_result
                       (le_split 8 98304 ++ le_split 4 4096) gc_file_A _ gc_world
                       w' None gc_world_accounting _))
  end.
  vm_compute. reflexivity.
Defined.

(** ** The allocator hands out zones nobody is writing *)

Lemma keeps_field_modZone {T : Type} (g : Zone -> T) (z : nat) (f : Zone -> Zone) :
  (forall zn, g (f zn) = g zn) ->
  keeps (zone_fields g) (modZone z f).
Proof.
  intros Hf. apply keeps_modZone'. intros w zn Hz.
  unfold zone_fields. simpl.
  rewrite list_fmap_insert, Hf.
  apply list_insert_id. rewrite list_lookup_fmap, Hz. reflexivity.
Qed.

Lemma zone_fields_modZone {T : Type} (g : Zone -> T) (z : nat) (f : Zone -> Zone)
      (w w' : World) (u : unit) :
  modZone z f w = Val u w' ->
  exists zn, zones w !! z = Some zn
             /\ zone_fields g w' = <[z := g (f zn)]> (zone_fields g w).
Proof.
  intros H. apply modZone_Val_inv in H as (zn & Hz & ->).
  exists zn. split; [exact Hz|]. unfold zone_fields. simpl.
  apply list_fmap_insert.
Qed.

Lemma zone_fields_lookup {T : Type} (g : Zone -> T) (w : World) (z : nat) (zn : Zone) :
  zones w !! z = Some zn -> zone_fields g w !! z = Some (g zn).
Proof. intros Hz. unfold zone_fields. rewrite list_lookup_fmap, Hz. reflexivity. Qed.

Lemma open_flags_lookup (w : World) (z : nat) (zn : Zone) :
  zones w !! z = Some zn -> open_flags w !! z = Some (Zone_open_for_write_ zn).
Proof. apply zone_fields_lookup. Qed.

Lemma keeps_fields_SubmitJob {T : Type} (g : Zone -> T) (j : Job) :
  keeps (zone_fields g) (SubmitJob j).
Proof. apply keeps_modify'. reflexivity. Qed.

Lemma keeps_open_TriggerBgFinishAndReset_slot (i : nat) :
  keeps open_flags (TriggerBgFinishAndReset_slot i).
Proof.
  unfold TriggerBgFinishAndReset_slot, BgResetDataZone, BgFinishDataZone.
  frame;
    first [apply keeps_fields_SubmitJob
          | apply keeps_field_modZone; reflexivity].
Qed.

Lemma keeps_open_TriggerBgFinishAndReset : keeps open_flags TriggerBgFinishAndReset.
Proof.
  unfold TriggerBgFinishAndReset. frame.
  - apply keeps_modify'. reflexivity.
  - apply keeps_forM_'. apply keeps_open_TriggerBgFinishAndReset_slot.
  - apply keeps_modify'. reflexivity.
Qed.

Lemma GetActiveZone_best_inv (zs : list (option nat)) (lt : WriteLifeTimeHint) :
  forall (acc r : option nat * Z) (w w' : World),
    GetActiveZone_best zs lt acc w = Val r w' ->
    w' = w
    /\ (fst r = fst acc \/ exists z, fst r = Some z /\ open_flags w !! z = Some false).
Proof.
  induction zs as [|[z|] zs IH]; intros acc r w w' H; simpl in H.
  - unfold ret in H. injection H as <- <-. auto.
  - apply bind_Val_inv in H as (zn & w1 & H1 & H).
    apply getZone_Val_inv in H1 as [Hz ->].
    destruct (Zone_open_for_write_ zn) eqn:Hopen; cbn [negb andb] in H.
    { exact (IH _ _ _ _ H). }
    destruct ((Zone_used_capacity_ zn >? 0) && negb (Zone_IsFull zn)).
    2:{ exact (IH _ _ _ _ H). }
    destruct (GetLifeTimeDiff (Zone_lifetime_ zn) lt) as [diff|]; [|discriminate].
    destruct (diff <=? snd acc).
    + apply IH in H as [-> [Hr|Hr]]; split; try reflexivity; [|right; exact Hr].
      right. exists z. split; [exact Hr|].
      rewrite (open_flags_lookup _ _ _ Hz), Hopen. reflexivity.
    + exact (IH _ _ _ _ H).
  - exact (IH _ _ _ _ H).
Qed.

Lemma GetActiveZone_empty_inv (zs : list (option nat)) (lt : WriteLifeTimeHint) :
  forall (a r : option nat) (w w' : World),
    GetActiveZone_empty zs lt a w = Val r w' ->
    open_flags w' = open_flags w
    /\ (r = a \/ exists z, r = Some z /\ open_flags w !! z = Some false).
Proof.
  induction zs as [|[z|] zs IH]; intros a r w w' H; simpl in H.
  - unfold ret in H. injection H as <- <-. auto.
  - apply bind_Val_inv in H as (zn & w1 & H1 & H).
    apply getZone_Val_inv in H1 as [Hz ->].
    destruct (Zone_open_for_write_ zn) eqn:Hopen; cbn [negb andb] in H.
    { exact (IH _ _ _ _ H). }
    destruct (Zone_IsEmpty zn).
    2:{ exact (IH _ _ _ _ H). }
    apply bind_Val_inv in H as (u & w1 & H1 & H).
    pose proof (keeps_field_modZone Zone_open_for_write_ z
                  (Zone_set_lifetime_ lt) (fun _ => eq_refl) _ _ _ H1) as Hk.
    fold open_flags in Hk.
    apply IH in H as [Hf Hr]. rewrite Hk in Hf, Hr.
    split; [exact Hf|]. right.
    destruct Hr as [->|Hr]; [|exact Hr].
    exists z. split; [reflexivity|].
    rewrite (open_flags_lookup _ _ _ Hz), Hopen. reflexivity.
  - exact (IH _ _ _ _ H).
Qed.

Lemma GetActiveZone_new_inv (start : Z) (lt : WriteLifeTimeHint) (i : nat)
      (w w' : World) (r : option nat) :
  GetActiveZone_new start lt i w = Val r w' ->
  match r with
  | Some a => open_flags w !! a = Some false
              /\ open_flags w' = <[a := true]> (open_flags w)
  | None => open_flags w' = open_flags w
  end.
Proof.
  unfold GetActiveZone_new. intros H.
  rewrite bind_gets in H.
  apply bind_Val_inv in H as ([a0 d] & w1 & H1 & H).
  apply GetActiveZone_best_inv in H1 as [-> Ha0]. simpl in Ha0.
  apply bind_Val_inv in H as (a & w1 & H1 & H).
  assert (Ha : open_flags w1 = open_flags w
               /\ (a = None \/ exists z, a = Some z /\ open_flags w !! z = Some false)).
  { destruct (d >=? LIFETIME_DIFF_NOT_GOOD).
    - apply GetActiveZone_empty_inv in H1 as [Hf [->|Hr]].
      + split; [exact Hf|]. destruct Ha0 as [->|Hr]; [left; reflexivity|right; exact Hr].
      + split; [exact Hf|]. right. exact Hr.
    - unfold ret in H1. injection H1 as <- <-. split; [reflexivity|].
      destruct Ha0 as [->|Hr]; [left; reflexivity|right; exact Hr]. }
  clear H1 Ha0. destruct Ha as [Hf Ha].
  apply bind_Val_inv in H as (u & w2 & H2 & H).
  apply bind_Val_inv in H as (u' & w3 & H3 & H).
  unfold ret in H. injection H as <- <-.
  assert (Hk : open_flags w3 = open_flags w2).
  { destruct (negb (start =? 0)).
    - exact (keeps_open_TriggerBgFinishAndReset _ _ _ H3).
    - unfold ret in H3. injection H3 as _ <-. reflexivity. }
  rewrite Hk. clear Hk H3.
  destruct a as [a|].
  - destruct Ha as [Ha|(z & Hz & Ha)]; [discriminate|]. injection Hz as ->.
    split; [exact Ha|].
    apply bind_Val_inv in H2 as (u1 & w4 & H4 & H2).
    apply (zone_fields_modZone Zone_open_for_write_) in H4 as (zn & Hz & Hm).
    apply bind_Val_inv in H2 as (u2 & w5 & H5 & H2).
    unfold modify in H5, H2. injection H5 as _ <-. injection H2 as _ <-.
    change (open_flags w4 = <[z := true]> (open_flags w)).
    rewrite <- Hf. exact Hm.
  - unfold ret in H2. injection H2 as _ <-. exact Hf.
Qed.

Lemma GetActiveZone_slots_inv (slots : list nat) (start : Z) (lt : WriteLifeTimeHint)
      (out : option nat) :
  forall (w w' : World) (b : bool) (r : option nat),
    GetActiveZone_slots slots start lt out w = Val (b, r) w' ->
    if b then
      exists z, r = Some z
                /\ open_flags w !! z = Some false
                /\ open_flags w' = <[z := true]> (open_flags w)
    else r = out /\ open_flags w' = open_flags w.
Proof.
  induction slots as [|i slots IH]; intros w w' b r H; simpl in H.
  - unfold ret in H. injection H as <- <- <-. split; reflexivity.
  - rewrite bind_gets in H.
    destruct (active_zones_ w !! i) as [[z|]|]; [| |discriminate].
    + apply bind_Val_inv in H as (zn & w1 & H1 & H).
      apply getZone_Val_inv in H1 as [Hz ->].
      destruct (Zone_bg_processing zn); [exact (IH _ _ _ _ H)|].
      destruct (Zone_open_for_write_ zn) eqn:Hopen; cbn [negb] in H;
        [exact (IH _ _ _ _ H)|].
      apply bind_Val_inv in H as (u & w1 & H1 & H).
      apply (zone_fields_modZone Zone_open_for_write_) in H1 as (zn' & Hz' & Hm).
      unfold ret in H. injection H as <- <- <-.
      exists z. split; [reflexivity|].
      split; [rewrite (open_flags_lookup _ _ _ Hz), Hopen; reflexivity|exact Hm].
    + apply bind_Val_inv in H as (a & w1 & H1 & H).
      apply GetActiveZone_new_inv in H1.
      destruct a as [a|].
      * unfold ret in H. injection H as <- <- <-.
        exists a. split; [reflexivity|exact H1].
      * apply IH in H. rewrite H1 in H. exact H.
Qed.

Lemma GetActiveZone_inv (start : Z) (lt : WriteLifeTimeHint) (out : option nat)
      (w w' : World) (b : bool) (r : option nat) :
  GetActiveZone start lt None out w = Val (b, r) w' ->
  if b then
    exists z, r = Some z
              /\ open_flags w !! z = Some false
              /\ open_flags w' = <[z := true]> (open_flags w)
  else r = out /\ open_flags w' = open_flags w.
Proof.
  unfold GetActiveZone. intros H.
  apply bind_Val_inv in H as (u & w1 & H1 & H).
  unfold GetActiveZone_full_zone, ret in H1. injection H1 as _ <-.
  rewrite bind_gets in H.
  exact (GetActiveZone_slots_inv _ _ _ _ _ _ _ _ H).
Qed.

Lemma AllocateZone_loop_inv (fuel : nat) (lt : WriteLifeTimeHint) (is_wal : bool) :
  forall (z0 r : option nat) (w w' : World),
    AllocateZone_loop fuel lt is_wal None z0 w = Val r w' ->
    exists z, r = Some z
              /\ open_flags w !! z = Some false
              /\ open_flags w' = <[z := true]> (open_flags w).
Proof.
  induction fuel as [|fuel IH]; intros z0 r w w' H; simpl in H; [discriminate|].
  apply bind_Val_inv in H as ([b z1] & w1 & H1 & H).
  assert (Hg : if b then
                 exists z, z1 = Some z
                           /\ open_flags w !! z = Some false
                           /\ open_flags w1 = <[z := true]> (open_flags w)
               else open_flags w1 = open_flags w).
  { destruct is_wal.
    - apply bind_Val_inv in H1 as (u & w2 & H2 & H1).
      unfold modify in H2. injection H2 as _ <-.
      apply bind_Val_inv in H1 as ([b' z'] & w3 & H3 & H1).
      apply GetActiveZone_inv in H3.
      apply bind_Val_inv in H1 as (u' & w4 & H4 & H1).
      unfold modify in H4. injection H4 as _ <-.
      unfold ret in H1. injection H1 as <- <- <-.
      destruct b'; [exact H3|exact (proj2 H3)].
    - rewrite bind_gets in H1.
      destruct (negb (wal_zone_allocating_ w =? 0)); [discriminate|].
      apply GetActiveZone_inv in H1.
      destruct b; [exact H1|exact (proj2 H1)]. }
  destruct b.
  - unfold ret in H. injection H as <- <-. exact Hg.
  - apply IH in H. rewrite Hg in H. exact H.
Qed.

(** X14.  [AllocateZone] called without a full zone never returns null:
    when it returns, it returns a zone that was not open for writing, and
    it has marked that zone, and no other, as open for writing.  Two
    writers are never given the same zone. *)
Theorem AllocateZone_hands_out_closed_zone (fuel : nat) (lt : WriteLifeTimeHint)
        (is_wal : bool) (r : option nat) (w w' : World) :
  AllocateZone fuel lt is_wal None w = Val r w' ->
  exists z, r = Some z
            /\ open_flags w !! z = Some false
            /\ open_flags w' = <[z := true]> (open_flags w).
Proof. apply AllocateZone_loop_inv. Qed.

(** [AllocateZone_hands_out_closed_zone] with three empty zones: the
    last one is handed out and opened. *)
Lemma AllocateZone_hands_out_closed_zone_witness :
  AllocateZone 3 WLTH_SHORT false None alloc_world
  = Val (Some 2%nat)
        (set_active_io_zones_ 1
           (set_active_zones_ [None; None; Some 2%nat; None]
              (set_zones
                 [Zone_set_lifetime_ WLTH_SHORT (empty_zone 32768);
                  Zone_set_lifetime_ WLTH_SHORT (empty_zone 40960);
                  Zone_set_open_for_write_ true
                    (Zone_set_lifetime_ WLTH_SHORT (empty_zone 49152))]
                 alloc_world)))
  /\ exists z, Some 2%nat = Some z
               /\ open_flags alloc_world !! z = Some false.
Proof.
  match goal with
  | |- ?run = ?res /\ _ => assert (H : run = res) by (vm_compute; reflexivity)
  end.
  split; [exact H|].
  destruct (AllocateZone_hands_out_closed_zone 3 WLTH_SHORT false (Some 2%nat)
              alloc_world _ H) as (z & Hz & Hc & _).
  exists z. split; assumption.
Defined.

(** ** [TriggerBgFinishAndReset] *)

Lemma TriggerBgFinishAndReset_slot_inv (i : nat) (w w' : World) (u : unit) :
  TriggerBgFinishAndReset_slot i w = Val u w' ->
  (i < length (active_zones_ w))%nat
  /\ (w' = w
      \/ exists z zn j,
          active_zones_ w !! i = Some (Some z)
          /\ zones w !! z = Some zn
          /\ Zone_bg_processing zn = false
          /\ Zone_open_for_write_ zn = false
          /\ Zone_IsEmpty zn = false
          /\ ((j = ResetJob z i /\ Zone_IsUsed zn = false)
              \/ (j = FinishJob z i
                  /\ Zone_used_capacity_ zn > 0
                  /\ Zone_IsFull zn = false
                  /\ Zone_capacity_ zn
                     < u64 (Zone_max_capacity_ zn * finish_threshold_ w) / 100))
          /\ w' = set_data_worker_ (data_worker_ w ++ [j])
                    (set_zones (<[z := Zone_set_bg_processing true zn]> (zones w)) w)).
Proof.
  unfold TriggerBgFinishAndReset_slot. intros H.
  rewrite bind_gets in H.
  destruct (active_zones_ w !! i) as [[z|]|] eqn:Hi; [| |discriminate].
  2:{ unfold ret in H. injection H as _ <-.
      split; [eapply lookup_lt_Some, Hi|]. left. reflexivity. }
  split; [eapply lookup_lt_Some, Hi|].
  apply bind_Val_inv in H as (zn & w1 & H1 & H).
  apply getZone_Val_inv in H1 as [Hz ->].
  destruct (Zone_bg_processing zn) eqn:Hbg.
  { unfold ret in H. injection H as _ <-. left. reflexivity. }
  destruct (Zone_open_for_write_ zn) eqn:Hopen; cbn [orb] in H.
  { unfold ret in H. injection H as _ <-. left. reflexivity. }
  destruct (Zone_IsEmpty zn) eqn:Hempty; cbn [orb] in H.
  { unfold ret in H. injection H as _ <-. left. reflexivity. }
  destruct (Zone_IsFull zn) eqn:Hfull; destruct (Zone_IsUsed zn) eqn:Hused;
    cbn [andb negb] in H.
  - unfold ret in H. injection H as _ <-. left. reflexivity.
  - apply bind_Val_inv in H as (u1 & w1 & H1 & H).
    apply modZone_Val_inv in H1 as (zn' & Hz' & ->).
    rewrite Hz in Hz'. injection Hz' as <-.
    unfold BgResetDataZone, SubmitJob, modify in H. injection H as _ <-.
    right. exists z, zn, (ResetJob z i). simpl. auto 10.
  - rewrite bind_gets in H.
    destruct (Z.ltb_spec (Zone_capacity_ zn)
                (u64 (Zone_max_capacity_ zn * finish_threshold_ w) / 100)) as [Hlt|_].
    2:{ unfold ret in H. injection H as _ <-. left. reflexivity. }
    apply bind_Val_inv in H as (u1 & w1 & H1 & H).
    apply modZone_Val_inv in H1 as (zn' & Hz' & ->).
    rewrite Hz in Hz'. injection Hz' as <-.
    unfold BgFinishDataZone, SubmitJob, modify in H. injection H as _ <-.
    right. exists z, zn, (FinishJob z i). simpl.
    assert (Hu : Zone_used_capacity_ zn > 0).
    { unfold Zone_IsUsed in Hused. rewrite Hopen, orb_false_r in Hused. lia. }
    auto 12.
  - apply bind_Val_inv in H as (u1 & w1 & H1 & H).
    apply modZone_Val_inv in H1 as (zn' & Hz' & ->).
    rewrite Hz in Hz'. injection Hz' as <-.
    unfold BgResetDataZone, SubmitJob, modify in H. injection H as _ <-.
    right. exists z, zn, (ResetJob z i). simpl. auto 10.
Qed.

Lemma bg_marked_refl (l : list Zone) : Forall2 bg_marked l l.
Proof. apply Forall2_same_length_lookup_2; [reflexivity|].
  intros i x y Hx Hy. rewrite Hx in Hy. injection Hy as <-. left. reflexivity. Qed.

Lemma bg_marked_trans (x y z : Zone) : bg_marked x y -> bg_marked y z -> bg_marked x z.
Proof.
  intros [->|[Hx ->]] [->|[Hy ->]].
  - left. reflexivity.
  - right. auto.
  - right. auto.
  - discriminate Hy.
Qed.

Lemma bg_marked_trans_list (l k m : list Zone) :
  Forall2 bg_marked l k -> Forall2 bg_marked k m -> Forall2 bg_marked l m.
Proof.
  intros H. revert m. induction H as [|x y l k Hxy _ IH]; intros m Hm.
  - inversion Hm. constructor.
  - inversion Hm as [|y' z k' m' Hyz Hkm]; subst. constructor.
    + exact (bg_marked_trans _ _ _ Hxy Hyz).
    + exact (IH _ Hkm).
Qed.

Lemma bg_marked_insert (l : list Zone) (z : nat) (zn : Zone) :
  l !! z = Some zn -> Zone_bg_processing zn = false ->
  Forall2 bg_marked l (<[z := Zone_set_bg_processing true zn]> l).
Proof.
  intros Hz Hbg. rewrite <- (list_insert_id l z zn Hz) at 1.
  apply Forall2_insert; [apply bg_marked_refl|]. right. auto.
Qed.

Lemma TriggerBgFinishAndReset_loop (slots : list nat) :
  forall (w w' : World) (u : unit),
    forM_ slots TriggerBgFinishAndReset_slot w = Val u w' ->
    exists js zs',
      w' = set_data_worker_ (data_worker_ w ++ js) (set_zones zs' w)
      /\ Forall (rightly_queued w w') js
      /\ Forall2 bg_marked (zones w) zs'
      /\ Forall (fun i => (i < length (active_zones_ w))%nat) slots.
Proof.
  induction slots as [|i slots IH]; intros w w' u H; simpl in H.
  - unfold ret in H. injection H as _ <-. exists [], (zones w).
    split; [rewrite app_nil_r; destruct w; reflexivity|].
    split; [constructor|]. split; [apply bg_marked_refl|constructor].
  - apply bind_Val_inv in H as (u1 & w1 & H1 & H).
    apply TriggerBgFinishAndReset_slot_inv in H1 as [Hi H1].
    apply IH in H as (js & zs' & -> & Hjs & Hzs & Hsl).
    destruct H1 as [->|(z & zn & j & Haz & Hz & Hbg & Hopen & Hempty & Hj & ->)].
    { exists js, zs'. repeat split; try assumption. constructor; assumption. }
    exists (j :: js), zs'. simpl in Hzs, Hsl.
    split; [simpl; rewrite <- app_assoc; reflexivity|].
    assert (Hm : Forall2 bg_marked (zones w) zs').
    { eapply bg_marked_trans_list; [|exact Hzs].
      exact (bg_marked_insert _ _ _ Hz Hbg). }
    split; [|split; [exact Hm|constructor; assumption]].
    constructor.
    + exists zn.
      assert (Hjz : Job_zone j = z /\ Job_slot j = i)
        by (destruct Hj as [[-> _]|[-> _]]; split; reflexivity).
      destruct Hjz as [-> ->].
      split; [exact Haz|]. split; [exact Hz|]. split; [exact Hbg|].
      split; [exact Hopen|]. split; [exact Hempty|].
      split.
      * simpl.
        assert (Hl : (<[z := Zone_set_bg_processing true zn]> (zones w)) !! z
                     = Some (Zone_set_bg_processing true zn))
          by (apply list_lookup_insert_eq; eapply lookup_lt_Some, Hz).
        destruct (Forall2_lookup_l _ _ _ _ _ Hzs Hl) as (y & Hy & [->|[Hc _]]).
        -- exact Hy.
        -- discriminate Hc.
      * destruct Hj as [[-> Hu]|[-> Hf]]; assumption.
    + eapply Forall_impl; [exact Hjs|].
      intros j' (zn' & Haz' & Hz' & Hbg' & Hopen' & Hempty' & Hw' & Hj').
      exists zn'. simpl in Haz', Hz', Hw', Hj'.
      split; [exact Haz'|].
      split.
      { destruct (decide (Job_zone j' = z)) as [E|E].
        - rewrite E in Hz'. rewrite list_lookup_insert_eq in Hz'
            by (eapply lookup_lt_Some, Hz).
          injection Hz' as <-. discriminate Hbg'.
        - rewrite list_lookup_insert_ne in Hz' by auto. exact Hz'. }
      repeat split; assumption.
Qed.

Lemma TriggerBgFinishAndReset_inv (w w' : World) (u : unit) :
  TriggerBgFinishAndReset w = Val u w' ->
  (bg_io_zone_recycling_ w <> 0 /\ w' = w)
  \/ (bg_io_zone_recycling_ w = 0
      /\ exists js zs',
          w' = set_data_worker_ (data_worker_ w ++ js) (set_zones zs' w)
          /\ Forall (rightly_queued w w') js
          /\ Forall2 bg_marked (zones w) zs').
Proof.
  unfold TriggerBgFinishAndReset. intros H.
  rewrite bind_gets in H.
  destruct (Z.eqb_spec (bg_io_zone_recycling_ w) 0) as [E|E]; cbn [negb] in H.
  2:{ unfold ret in H. injection H as _ <-. left. auto. }
  right. split; [exact E|].
  apply bind_Val_inv in H as (u1 & w1 & H1 & H).
  unfold modify in H1. injection H1 as _ <-.
  rewrite bind_gets in H.
  apply bind_Val_inv in H as (u2 & w2 & H2 & H).
  apply TriggerBgFinishAndReset_loop in H2 as (js & zs' & -> & Hjs & Hzs & _).
  unfold modify in H. injection H as _ <-.
  exists js, zs'. simpl in Hzs.
  split; [destruct w; simpl in *; subst; reflexivity|].
  split; [|exact Hzs].
  eapply Forall_impl; [exact Hjs|].
  intros j (zn & Hj). exists zn. exact Hj.
Qed.

(** X15.  [TriggerBgFinishAndReset] only queues background jobs that are
    due.  Every job it queues is for a zone that sat in the job's slot of
    [active_zones_], was not open for writing, not empty and not already
    being processed; a reset is queued only for a zone without live data, a
    finish only for a zone with live data that is not full and has less
    capacity left than the threshold.  The zones queued are marked as being
    processed; nothing else changes.  When another scan is under way, the
    call does nothing. *)
Theorem TriggerBgFinishAndReset_queues_due_jobs (w w' : World) (u : unit) :
  TriggerBgFinishAndReset w = Val u w' ->
  (bg_io_zone_recycling_ w <> 0 /\ w' = w)
  \/ (bg_io_zone_recycling_ w = 0
      /\ exists js zs',
          w' = set_data_worker_ (data_worker_ w ++ js) (set_zones zs' w)
          /\ Forall (rightly_queued w w') js
          /\ Forall2 bg_marked (zones w) zs').
Proof. apply TriggerBgFinishAndReset_inv. Qed.

(** [TriggerBgFinishAndReset_queues_due_jobs] at [reset_world]: the
    closed, half-written zone without live data in slot 2 is queued for a
    reset. *)
Lemma TriggerBgFinishAndReset_queues_due_jobs_witness :
  exists w',
    TriggerBgFinishAndReset reset_world = Val tt w'
    /\ data_worker_ w' = [ResetJob 0 2]
    /\ zones w' = [Zone_set_bg_processing true reset_zone]
    /\ exists js zs',
        w' = set_data_worker_ (data_worker_ reset_world ++ js)
               (set_zones zs' reset_world)
        /\ Forall (rightly_queued reset_world w') js.
Proof.
  eexists. split; [vm_compute; reflexivity|].
  split; [reflexivity|]. split; [reflexivity|].
  match goal with
  | |- exists js zs', ?w' = _ /\ _ =>
      destruct (TriggerBgFinishAndReset_queues_due_jobs reset_world w' tt)
        as [[Hne _]|(_ & js & zs' & Hw & Hjs & _)]
  end.
  - vm_compute. reflexivity.
  - exfalso. apply Hne. reflexivity.
  - exists js, zs'. split; assumption.
Defined.

(** ** The background jobs *)

Lemma Zone_Reset_OK_inv (z : nat) (w w' : World) :
  Zone_Reset z w = Val OK w' ->
  exists zn offline cap rest,
    zones w !! z = Some zn
    /\ Zone_IsUsed zn = false
    /\ syscalls w = Ret 0 :: Report 0 1 offline cap :: rest
    /\ w' = set_zones (<[z := Zone_after_Reset offline cap zn]> (zones w))
              (set_syscalls rest w).
Proof.
  unfold Zone_Reset. intros H.
  apply bind_Val_inv in H as (zn & w1 & H1 & H).
  apply getZone_Val_inv in H1 as [Hz ->].
  apply bind_Val_inv in H as (u & w1 & H1 & H).
  apply assert_Val_inv in H1 as [Hu ->]. apply negb_true_iff in Hu.
  apply bind_Val_inv in H as ([r e] & w1 & H1 & H).
  unfold syscall_int, syscall, bind in H1.
  destruct (syscalls w) as [|[v|v|r0 n0 off0 cap0] rest] eqn:Hs; try discriminate;
    unfold ret in H1; injection H1 as <- <- <-; [|discriminate].
  destruct (Z.eqb_spec v 0) as [->|]; cbn [negb] in H; [|discriminate].
  apply bind_Val_inv in H as ([[[r' n] off] cap] & w1 & H1 & H).
  unfold syscall_report, syscall, bind in H1. simpl syscalls in H1.
  destruct rest as [|[v|v|r0 n0 off0 cap0] rest]; try discriminate.
  unfold ret in H1. injection H1 as <- <- <- <- <-.
  destruct (Z.eqb_spec r0 0) as [->|]; cbn [negb orb] in H; [|discriminate].
  destruct (Z.eqb_spec n0 1) as [->|]; cbn [negb] in H; [|discriminate].
  apply bind_Val_inv in H as (u' & w1 & H1 & H).
  apply modZone_Val_inv in H1 as (zn0 & Hz0 & ->).
  simpl in Hz0. rewrite Hz in Hz0. injection Hz0 as <-.
  unfold ret in H. injection H as <-.
  exists zn, off0, cap0, rest. repeat split; assumption.
Qed.


Lemma RunJob_inv (j : Job) (w w' : World) (u : unit) :
  RunJob j w = Val u w' ->
  exists zn zn' rest,
    active_zones_ w !! Job_slot j = Some (Some (Job_zone j))
    /\ zones w !! Job_zone j = Some zn
    /\ match j with
       | ResetJob _ _ =>
           Zone_IsUsed zn = false
           /\ exists offline cap,
               syscalls w = Ret 0 :: Report 0 1 offline cap :: rest
               /\ zn' = Zone_after_Reset offline cap zn
       | FinishJob _ _ =>
           Zone_open_for_write_ zn = false
           /\ syscalls w = Ret 0 :: rest
           /\ zn' = Zone_set_wp_ (u64 (Zone_start_ zn + zone_sz_ w))
                      (Zone_set_capacity_ 0 zn)
       end
    /\ w' = set_active_zones_ (<[Job_slot j := None]> (active_zones_ w))
              (set_zones (<[Job_zone j := Zone_set_bg_processing false zn']> (zones w))
                 (set_active_io_zones_ (active_io_zones_ w - 1)
                    (set_syscalls rest w))).
Proof.
  intros H. destruct j as [z slot|z slot]; simpl in H; rewrite bind_gets in H.
  - destruct (active_zones_ w !! slot) as [cur|] eqn:Hsl; [|discriminate].
    apply bind_Val_inv in H as (u1 & w1 & H1 & H).
    apply assert_Val_inv in H1 as [Hc ->]. apply bool_decide_eq_true in Hc. subst cur.
    apply bind_Val_inv in H as (s & w1 & H1 & H).
    apply bind_Val_inv in H as (u2 & w2 & H2 & H).
    destruct s; cbn [IOStatus_ok negb] in H2; try discriminate.
    unfold ret in H2. injection H2 as _ <-.
    apply Zone_Reset_OK_inv in H1 as (zn & off & cap & rest & Hz & Hu & Hs & ->).
    apply bind_Val_inv in H as (u3 & w3 & H3 & H).
    unfold modify in H3. injection H3 as _ <-.
    apply bind_Val_inv in H as (u4 & w4 & H4 & H).
    apply modZone_Val_inv in H4 as (zn1 & Hz1 & ->).
    simpl in Hz1. rewrite list_lookup_insert_eq in Hz1 by (eapply lookup_lt_Some, Hz).
    injection Hz1 as <-.
    unfold modify in H. injection H as _ <-.
    exists zn, (Zone_after_Reset off cap zn), rest. simpl.
    split; [exact Hsl|]. split; [exact Hz|].
    split; [split; [exact Hu|]; exists off, cap; split; [exact Hs|reflexivity]|].
    rewrite list_insert_insert_eq. reflexivity.
  - destruct (active_zones_ w !! slot) as [cur|] eqn:Hsl; [|discriminate].
    apply bind_Val_inv in H as (u1 & w1 & H1 & H).
    apply assert_Val_inv in H1 as [Hc ->]. apply bool_decide_eq_true in Hc. subst cur.
    apply bind_Val_inv in H as (s & w1 & H1 & H).
    apply bind_Val_inv in H as (u2 & w2 & H2 & H).
    destruct s; cbn [IOStatus_ok negb] in H2; try discriminate.
    unfold ret in H2. injection H2 as _ <-.
    apply Zone_Finish_OK_inv in H1 as (zn & rest & Hz & Hopen & Hs & ->).
    apply bind_Val_inv in H as (u3 & w3 & H3 & H).
    unfold modify in H3. injection H3 as _ <-.
    apply bind_Val_inv in H as (u4 & w4 & H4 & H).
    apply modZone_Val_inv in H4 as (zn1 & Hz1 & ->).
    simpl in Hz1. rewrite list_lookup_insert_eq in Hz1 by (eapply lookup_lt_Some, Hz).
    injection Hz1 as <-.
    unfold modify in H. injection H as _ <-.
    exists zn, (Zone_set_wp_ (u64 (Zone_start_ zn + zone_sz_ w))
                  (Zone_set_capacity_ 0 zn)), rest. simpl.
    split; [exact Hsl|]. split; [exact Hz|].
    split; [auto|].
    rewrite list_insert_insert_eq. reflexivity.
Qed.


(** X16.  What a background job leaves behind.  A job that returns found
    its zone in its slot; it has emptied the slot, taken one off
    [active_io_zones_] and cleared [bg_processing]; the live data counter of
    the zone is as before.  After a reset job the zone, which held no live
    data, is empty with the life time hint NOT_SET; after a finish job the
    zone, which was not open for writing, is full with its write pointer at
    the end of the zone.  No other zone has changed. *)
Theorem RunJob_result (j : Job) (w w' : World) (u : unit) :
  RunJob j w = Val u w' ->
  active_zones_ w !! Job_slot j = Some (Some (Job_zone j))
  /\ active_zones_ w' = <[Job_slot j := None]> (active_zones_ w)
  /\ active_io_zones_ w' = active_io_zones_ w - 1
  /\ exists zn zn',
      zones w !! Job_zone j = Some zn
      /\ zones w' = <[Job_zone j := zn']> (zones w)
      /\ Zone_bg_processing zn' = false
      /\ Zone_used_capacity_ zn' = Zone_used_capacity_ zn
      /\ match j with
         | ResetJob _ _ =>
             Zone_IsUsed zn = false
             /\ Zone_IsEmpty zn' = true
             /\ Zone_lifetime_ zn' = WLTH_NOT_SET
         | FinishJob _ _ =>
             Zone_open_for_write_ zn = false
             /\ Zone_IsFull zn' = true
             /\ Zone_wp_ zn' = u64 (Zone_start_ zn + zone_sz_ w)
         end.
Proof.
  intros H. apply RunJob_inv in H as (zn & zn' & rest & Hsl & Hz & Hj & ->).
  split; [exact Hsl|]. split; [reflexivity|]. split; [reflexivity|].
  exists zn, (Zone_set_bg_processing false zn').
  split; [exact Hz|]. split; [reflexivity|]. split; [reflexivity|].
  destruct j as [z slot|z slot].
  - destruct Hj as (Hu & off & cap & _ & ->).
    unfold Zone_after_Reset, Zone_IsEmpty.
    destruct off; simpl; rewrite Z.eqb_refl; auto.
  - destruct Hj as (Hopen & _ & ->). simpl. auto.
Qed.

(** [RunJob_result] for the reset job of slot 2 at [reset_world]. *)
Lemma RunJob_result_witness :
  exists w',
    RunJob (ResetJob 0 2) reset_world = Val tt w'
    /\ active_zones_ w' = [None; None; None; None]
    /\ active_io_zones_ w' = 0
    /\ zones w' = [mkZone 32768 8192 8192 32768 WLTH_NOT_SET 0 false false 0 0]
    /\ active_zones_ w' = <[2%nat := None]> (active_zones_ reset_world).
Proof.
  eexists. split; [vm_compute; reflexivity|].
  split; [reflexivity|]. split; [reflexivity|]. split; [reflexivity|].
  match goal with
  | |- active_zones_ ?w' = _ =>
      refine (proj1 (proj2 (RunJob_result (ResetJob 0 2) reset_world w' tt _)))
  end.
  vm_compute. reflexivity.
Defined.



(** ** [Zone::Append] *)

Lemma Zone_geometry_written (r : Z) (zn : Zone) :
  Zone_geometry (Zone_written r zn) = Zone_geometry zn.
Proof.
  unfold Zone_geometry, Zone_written. simpl. f_equal. unfold u64.
  rewrite <- Zplus_mod. f_equal. lia.
Qed.

Lemma keeps_geometry_Zone_Sync (z : nat) :
  keeps (zone_fields Zone_geometry) (Zone_Sync z).
Proof. unfold Zone_Sync. frame. apply keeps_field_modZone. reflexivity. Qed.

Lemma keeps_geometry_Zone_Append_loop (fuel : nat) :
  forall z size left,
    keeps (zone_fields Zone_geometry) (Zone_Append_loop fuel z size left).
Proof.
  induction fuel as [|fuel IH]; intros z size n; simpl; frame.
  - apply keeps_field_modZone. intros zn. apply (Zone_geometry_written _ zn).
  - apply IH.
Qed.

Lemma keeps_geometry_Zone_Append (z : nat) (size : Z) :
  keeps (zone_fields Zone_geometry) (Zone_Append z size).
Proof.
  unfold Zone_Append. frame;
    first [apply keeps_geometry_Zone_Sync | apply keeps_geometry_Zone_Append_loop].
Qed.

Lemma Zone_Append_loop_status (fuel : nat) :
  forall z size left w w' s,
    Zone_Append_loop fuel z size left w = Val s w' -> s = OK \/ s = IOError.
Proof.
  induction fuel as [|fuel IH]; intros z size n w w' s H; simpl in H.
  - destruct (n =? 0); [|discriminate]. unfold ret in H. injection H as <- _. auto.
  - destruct (n =? 0); [unfold ret in H; injection H as <- _; auto|].
    apply bind_Val_inv in H as ([r e] & w1 & H1 & H).
    destruct (r <? 0); [unfold ret in H; injection H as <- _; auto|].
    apply bind_Val_inv in H as (u & w2 & H2 & H).
    exact (IH _ _ _ _ _ _ H).
Qed.

(** X18.  [Zone::Append] answers NoSpace exactly when the zone has less
    capacity left than the size asked for, and then it has changed nothing.
    Whatever it answers, and however the device cuts the writes short, it
    never moves the end of a zone ([wp_ + capacity_] stays), never touches
    the start, the size, the live data counter, the life time hint or the
    flags of any zone, and leaves the extents alone. *)
Theorem Zone_Append_result (z : nat) (size : Z) (w w' : World) (s : IOStatus) :
  Zone_Append z size w = Val s w' ->
  exists zn,
    zones w !! z = Some zn
    /\ (s = NoSpace <-> Zone_capacity_ zn < size)
    /\ (s = NoSpace -> w' = w)
    /\ zone_fields Zone_geometry w' = zone_fields Zone_geometry w
    /\ extents w' = extents w.
Proof.
  intros H.
  pose proof (keeps_geometry_Zone_Append z size _ _ _ H) as Hg.
  pose proof (keeps_extents_Zone_Append z size _ _ _ H) as He.
  unfold Zone_Append in H.
  apply bind_Val_inv in H as (zn & w1 & H1 & H).
  apply getZone_Val_inv in H1 as [Hz ->].
  exists zn. split; [exact Hz|].
  destruct (Z.ltb_spec (Zone_capacity_ zn) size) as [Hlt|Hge].
  { unfold ret in H. injection H as <- <-. repeat split; auto. }
  assert (Hs : s <> NoSpace).
  { rewrite bind_gets in H.
    apply bind_Val_inv in H as (u & w1 & _ & H).
    apply bind_Val_inv in H as (s1 & w2 & H2 & H).
    apply Zone_Sync_inv in H2 as (zn1 & _ & H2).
    destruct (IOStatus_ok s1) eqn:Hok; cbn [negb] in H.
    - rewrite bind_gets in H.
      apply Zone_Append_loop_status in H as [->| ->]; discriminate.
    - unfold ret in H. injection H as <- _.
      destruct H2 as [(_ & -> & _)|[(_ & -> & _)|(_ & -> & _)]]; discriminate. }
  split; [split; [contradiction|lia]|].
  split; [contradiction|]. split; assumption.
Qed.

(** [Zone_Append_result] at [open_world], for a write of 4096 bytes of
    which the device takes 2048 and then fails. *)
Lemma Zone_Append_result_witness :
  exists s w',
    Zone_Append 0 4096 (set_syscalls [Ret 2048; Fail 5] open_world) = Val s w'
    /\ s = IOError
    /\ zones w' = [Zone_written 2048 open_zone]
    /\ zone_fields Zone_geometry w' = zone_fields Zone_geometry open_world.
Proof.
  eexists _, _. split; [vm_compute; reflexivity|].
  split; [reflexivity|]. split; [reflexivity|].
  match goal with
  | |- zone_fields _ ?w' = _ =>
      destruct (Zone_Append_result 0 4096 (set_syscalls [Ret 2048; Fail 5] open_world)
                  w' IOError) as (zn & _ & _ & _ & Hg & _)
  end.
  - vm_compute. reflexivity.
  - exact Hg.
Defined.

(** X19.  As long as no [pwrite] reports more bytes than were still left
    to write, a [Zone::Append] that returns OK on a zone with no write in
    flight has advanced [wp_] by exactly [size] and lowered [capacity_] by
    exactly [size]. *)
Theorem Zone_Append_advances_by_size (z : nat) (size : Z) (w w' : World) (zn : Zone) :
  zones w !! z = Some zn ->
  Zone_inflight zn = 0 ->
  0 < size < 2 ^ 32 ->
  writes_within size (syscalls w) = true ->
  Zone_Append z size w = Val OK w' ->
  zones w' !! z = Some (Zone_written size zn).
Proof.
  intros Hz Hin Hsz Hw H.
  destruct (Zone_Append_within z size w w' zn Hz Hin ltac:(lia) Hw H) as [[E _]|Hr].
  - lia.
  - exact Hr.
Qed.

(** [Zone_Append_advances_by_size] at [open_world], with a write of
    4096 bytes that the device takes in two halves. *)
Lemma Zone_Append_advances_by_size_witness :
  zones (set_syscalls [Ret 2048; Ret 2048] open_world) !! 0%nat = Some open_zone
  /\ Zone_inflight open_zone = 0
  /\ 0 < 4096 < 2 ^ 32
  /\ writes_within 4096 [Ret 2048; Ret 2048] = true
  /\ exists w',
      Zone_Append 0 4096 (set_syscalls [Ret 2048; Ret 2048] open_world) = Val OK w'
      /\ zones w' !! 0%nat = Some (Zone_written 4096 open_zone).
Proof.
  split; [reflexivity|]. split; [reflexivity|]. split; [lia|]. split; [reflexivity|].
  eexists. split; [vm_compute; reflexivity|].
  eapply (Zone_Append_advances_by_size 0 4096
            (set_syscalls [Ret 2048; Ret 2048] open_world) _ open_zone).
  - reflexivity.
  - reflexivity.
  - lia.
  - reflexivity.
  - vm_compute. reflexivity.
Defined.

(** ** The allocator changes flags and hints only *)

Lemma keeps_frame_modZone (z : nat) (f : Zone -> Zone) :
  (forall zn, Zone_core (f zn) = Zone_core zn) ->
  keeps alloc_frame (modZone z f).
Proof.
  intros Hf. apply keeps_modZone'. intros w zn Hz.
  unfold alloc_frame. simpl. do 4 f_equal.
  unfold zone_fields. simpl.
  rewrite list_fmap_insert, Hf.
  apply list_insert_id. rewrite list_lookup_fmap, Hz. reflexivity.
Qed.

Ltac frame_alloc :=
  frame;
  try first [ apply keeps_frame_modZone; reflexivity
            | apply keeps_modify'; reflexivity ].

Lemma keeps_frame_TriggerBgFinishAndReset : keeps alloc_frame TriggerBgFinishAndReset.
Proof.
  unfold TriggerBgFinishAndReset. frame_alloc.
  apply keeps_forM_'. intros i.
  unfold TriggerBgFinishAndReset_slot, BgResetDataZone, BgFinishDataZone, SubmitJob.
  frame_alloc.
Qed.

Lemma keeps_frame_GetActiveZone_full_zone (full_zone : option nat) :
  keeps alloc_frame (GetActiveZone_full_zone full_zone).
Proof.
  unfold GetActiveZone_full_zone, BgFinishDataZone, SubmitJob. frame_alloc.
Qed.

Lemma keeps_frame_GetActiveZone_best (zs : list (option nat)) (lt : WriteLifeTimeHint) :
  forall acc, keeps alloc_frame (GetActiveZone_best zs lt acc).
Proof.
  induction zs as [|[z|] zs IH]; intros acc; simpl; frame_alloc; apply IH.
Qed.

Lemma keeps_frame_GetActiveZone_empty (zs : list (option nat)) (lt : WriteLifeTimeHint) :
  forall a, keeps alloc_frame (GetActiveZone_empty zs lt a).
Proof.
  induction zs as [|[z|] zs IH]; intros a; simpl; frame_alloc; apply IH.
Qed.

Lemma keeps_frame_GetActiveZone_new (start : Z) (lt : WriteLifeTimeHint) (i : nat) :
  keeps alloc_frame (GetActiveZone_new start lt i).
Proof.
  unfold GetActiveZone_new. frame_alloc;
    first [ apply keeps_frame_GetActiveZone_best
          | apply keeps_frame_GetActiveZone_empty
          | apply keeps_frame_TriggerBgFinishAndReset ].
Qed.

Lemma keeps_frame_GetActiveZone_slots (slots : list nat) (start : Z)
      (lt : WriteLifeTimeHint) (out : option nat) :
  keeps alloc_frame (GetActiveZone_slots slots start lt out).
Proof.
  induction slots as [|i slots IH]; simpl; frame_alloc;
    first [ exact IH | apply keeps_frame_GetActiveZone_new ].
Qed.

Lemma keeps_frame_GetActiveZone (start : Z) (lt : WriteLifeTimeHint)
      (full_zone out : option nat) :
  keeps alloc_frame (GetActiveZone start lt full_zone out).
Proof.
  unfold GetActiveZone. frame_alloc;
    first [ apply keeps_frame_GetActiveZone_full_zone
          | apply keeps_frame_GetActiveZone_slots ].
Qed.

Lemma keeps_frame_AllocateZone_loop (fuel : nat) (lt : WriteLifeTimeHint)
      (is_wal : bool) (full_zone : option nat) :
  forall z, keeps alloc_frame (AllocateZone_loop fuel lt is_wal full_zone z).
Proof.
  induction fuel as [|fuel IH]; intros z; simpl; frame_alloc;
    first [ apply IH | apply keeps_frame_GetActiveZone ].
Qed.

Lemma keeps_frame_AllocateZone (fuel : nat) (lt : WriteLifeTimeHint)
      (is_wal : bool) (full_zone : option nat) :
  keeps alloc_frame (AllocateZone fuel lt is_wal full_zone).
Proof. apply keeps_frame_AllocateZone_loop. Qed.

Lemma Zone_core_used_capacities (w w' : World) :
  zone_fields Zone_core w' = zone_fields Zone_core w ->
  used_capacities w' = used_capacities w.
Proof.
  intros H.
  apply (f_equal (map (fun c : Z * Z * Z * Z * Z * Z * Z => snd (fst (fst c))))) in H.
  unfold zone_fields in H. rewrite !map_map in H. exact H.
Qed.

Lemma Zone_core_capacities (w w' : World) :
  zone_fields Zone_core w' = zone_fields Zone_core w ->
  zone_fields Zone_capacity_ w' = zone_fields Zone_capacity_ w.
Proof.
  intros H.
  apply (f_equal (map (fun c : Z * Z * Z * Z * Z * Z * Z =>
                         snd (fst (fst (fst (fst c))))))) in H.
  unfold zone_fields in H. rewrite !map_map in H. exact H.
Qed.

(** X20.  [AllocateZone] changes flags and hints only.  Whatever zone it
    hands out and whatever it queues, it leaves the start, the size, the
    capacity, the write pointer, the live data counter and the pending
    write of every zone as they were, makes no request to the device and
    leaves the extents alone; so the accounting of live data is kept. *)
Theorem AllocateZone_changes_flags_only (fuel : nat) (lt : WriteLifeTimeHint)
        (is_wal : bool) (full_zone r : option nat) (w w' : World) :
  AllocateZone fuel lt is_wal full_zone w = Val r w' ->
  alloc_frame w' = alloc_frame w
  /\ (used_capacity_invariant w -> used_capacity_invariant w').
Proof.
  intros H. pose proof (keeps_frame_AllocateZone _ _ _ _ _ _ _ H) as Hk.
  split; [exact Hk|]. intros Hinv.
  unfold alloc_frame in Hk. injection Hk as Hc He _ _ _ _ _.
  exact (used_capacity_invariant_ext _ _ (Zone_core_used_capacities _ _ Hc) He Hinv).
Qed.

(** [AllocateZone_changes_flags_only] in the GC scenario: a zone is
    handed out, and the live data is where it was. *)
Lemma AllocateZone_changes_flags_only_witness :
  exists r w',
    AllocateZone 3 WLTH_MEDIUM false None gc_world = Val r w'
    /\ r = Some 3%nat
    /\ alloc_frame w' = alloc_frame gc_world
    /\ used_capacity_invariant w'.
Proof.
  eexists _, _. split; [vm_compute; reflexivity|]. split; [reflexivity|].
  match goal with
  | |- alloc_frame ?w' = _ /\ _ =>
      destruct (AllocateZone_changes_flags_only 3 WLTH_MEDIUM false None (Some 3%nat)
                  gc_world w') as [Hf Hinv]
  end.
  - vm_compute. reflexivity.
  - split; [exact Hf|exact (Hinv gc_world_accounting)].
Defined.

(** ** [ZoneFile::Append]: the size of the file *)

Lemma caps_nonneg_lookup (w : World) (z : nat) (zn : Zone) :
  caps_nonneg w -> zones w !! z = Some zn -> 0 <= Zone_capacity_ zn.
Proof.
  intros Hc Hz. unfold caps_nonneg in Hc. rewrite Forall_lookup in Hc.
  apply (Hc z). apply zone_fields_lookup. exact Hz.
Qed.

Lemma caps_nonneg_keeps {A : Type} (m : M A) (w w' : World) (a : A) :
  keeps (zone_fields Zone_capacity_) m ->
  m w = Val a w' -> caps_nonneg w -> caps_nonneg w'.
Proof. intros Hk H Hc. unfold caps_nonneg. rewrite (Hk _ _ _ H). exact Hc. Qed.

Lemma keeps_caps_Zone_CloseWR (z : nat) :
  keeps (zone_fields Zone_capacity_) (Zone_CloseWR z).
Proof.
  unfold Zone_CloseWR, Zone_Sync, Zone_Close. frame;
    apply keeps_field_modZone; reflexivity.
Qed.

Lemma keeps_caps_ZoneFile_PushExtent (f : ZoneFile) :
  keeps (zone_fields Zone_capacity_) (ZoneFile_PushExtent f).
Proof.
  unfold ZoneFile_PushExtent. frame.
  - intros w w' e H. unfold new_ZoneExtent in H. injection H as _ <-. reflexivity.
  - apply keeps_field_modZone. reflexivity.
Qed.

Lemma keeps_caps_AllocateZone (fuel : nat) (lt : WriteLifeTimeHint)
      (is_wal : bool) (full_zone : option nat) :
  keeps (zone_fields Zone_capacity_) (AllocateZone fuel lt is_wal full_zone).
Proof.
  intros w w' r H. apply Zone_core_capacities.
  pose proof (keeps_frame_AllocateZone _ _ _ _ _ _ _ H) as Hk.
  unfold alloc_frame in Hk. injection Hk as Hc _ _ _ _ _ _. exact Hc.
Qed.

Lemma caps_nonneg_Zone_Sync (z : nat) (w w' : World) (s : IOStatus) :
  Zone_Sync z w = Val s w' -> caps_nonneg w -> caps_nonneg w'.
Proof.
  apply caps_nonneg_keeps. unfold Zone_Sync. frame.
  apply keeps_field_modZone. reflexivity.
Qed.

Lemma caps_nonneg_Zone_Append_loop (fuel : nat) :
  forall z size left w w' s,
    Zone_Append_loop fuel z size left w = Val s w' ->
    caps_nonneg w -> caps_nonneg w'.
Proof.
  induction fuel as [|fuel IH]; intros z size n w w' s H Hc; simpl in H.
  - destruct (n =? 0); [|discriminate]. unfold ret in H. injection H as _ <-. exact Hc.
  - destruct (n =? 0); [unfold ret in H; injection H as _ <-; exact Hc|].
    apply bind_Val_inv in H as ([r e] & w1 & H1 & H).
    assert (Hc1 : caps_nonneg w1).
    { revert H1 Hc. apply caps_nonneg_keeps. apply keeps_syscall_int'. reflexivity. }
    destruct (r <? 0); [unfold ret in H; injection H as _ <-; exact Hc1|].
    apply bind_Val_inv in H as (u & w2 & H2 & H).
    apply (IH _ _ _ _ _ _ H).
    apply (zone_fields_modZone Zone_capacity_) in H2 as (zn & Hz & Hm).
    unfold caps_nonneg. rewrite Hm.
    apply Forall_insert; [exact Hc1|]. simpl. unfold u64.
    apply Z.mod_pos_bound. lia.
Qed.

Lemma caps_nonneg_Zone_Append (z : nat) (size : Z) (w w' : World) (s : IOStatus) :
  Zone_Append z size w = Val s w' -> caps_nonneg w -> caps_nonneg w'.
Proof.
  unfold Zone_Append. intros H Hc.
  apply bind_Val_inv in H as (zn & w1 & H1 & H).
  apply getZone_Val_inv in H1 as [Hz ->].
  destruct (Zone_capacity_ zn <? size);
    [unfold ret in H; injection H as _ <-; exact Hc|].
  rewrite bind_gets in H.
  apply bind_Val_inv in H as (u & w1 & H1 & H).
  assert (w1 = w) as ->.
  { destruct (block_sz_ w =? 0); [discriminate|].
    apply assert_Val_inv in H1 as [_ ->]. reflexivity. }
  apply bind_Val_inv in H as (s1 & w2 & H2 & H).
  pose proof (caps_nonneg_Zone_Sync _ _ _ _ H2 Hc) as Hc2.
  destruct (negb (IOStatus_ok s1));
    [unfold ret in H; injection H as _ <-; exact Hc2|].
  rewrite bind_gets in H.
  exact (caps_nonneg_Zone_Append_loop _ _ _ _ _ _ _ H Hc2).
Qed.

Section ZoneFileAppendSize.

Variable default_is_wal : bool.
Variable default_full_zone : option nat.

Lemma ZoneFile_Append_allocate_size (alloc_fuel : nat) (f f' : ZoneFile)
      (w w' : World) (b : bool) :
  ZoneFile_Append_allocate default_is_wal default_full_zone alloc_fuel f w
  = Val (b, f') w' ->
  caps_nonneg w ->
  caps_nonneg w' /\ ZoneFile_fileSize f' = ZoneFile_fileSize f.
Proof.
  unfold ZoneFile_Append_allocate. intros H Hc.
  apply bind_Val_inv in H as (az & w1 & H1 & H).
  pose proof (caps_nonneg_keeps _ _ _ _ (keeps_caps_AllocateZone _ _ _ _) H1 Hc) as Hc1.
  destruct az as [z|].
  - apply bind_Val_inv in H as (zn & w2 & H2 & H).
    apply getZone_Val_inv in H2 as [_ ->].
    unfold ret in H. injection H as _ <- <-. split; [exact Hc1|reflexivity].
  - unfold ret in H. injection H as _ <- <-. split; [exact Hc1|reflexivity].
Qed.

Lemma ZoneFile_PushExtent_size (f f' : ZoneFile) (w w' : World) :
  ZoneFile_PushExtent f w = Val f' w' ->
  ZoneFile_fileSize f' = ZoneFile_fileSize f.
Proof.
  intros H. apply ZoneFile_PushExtent_inv in H as [_ [(-> & _)|(az & zn & H)]].
  - reflexivity.
  - destruct H as (_ & _ & _ & _ & _ & ->). reflexivity.
Qed.

Lemma ZoneFile_Append_next_zone_size (alloc_fuel : nat) (f f' : ZoneFile)
      (w w' : World) (b : bool) :
  ZoneFile_Append_next_zone default_is_wal default_full_zone alloc_fuel f w
  = Val (b, f') w' ->
  caps_nonneg w ->
  caps_nonneg w' /\ ZoneFile_fileSize f' = ZoneFile_fileSize f.
Proof.
  unfold ZoneFile_Append_next_zone. intros H Hc.
  apply bind_Val_inv in H as (f1 & w1 & H1 & H).
  pose proof (caps_nonneg_keeps _ _ _ _ (keeps_caps_ZoneFile_PushExtent f) H1 Hc) as Hc1.
  apply ZoneFile_PushExtent_size in H1.
  destruct (ZoneFile_active_zone_ f1) as [az|]; [|discriminate].
  apply bind_Val_inv in H as (u & w2 & H2 & H).
  pose proof (caps_nonneg_keeps _ _ _ _ (keeps_caps_Zone_CloseWR az) H2 Hc1) as Hc2.
  apply ZoneFile_Append_allocate_size in H as [Hc' Hs]; [|exact Hc2].
  split; [exact Hc'|]. rewrite Hs. exact H1.
Qed.

Lemma ZoneFile_Append_loop_size (alloc_fuel fuel : nat) :
  forall (f f' : ZoneFile) (left : Z) (w w' : World) (s : IOStatus),
    caps_nonneg w ->
    0 <= left < 2 ^ 32 ->
    ZoneFile_Append_loop default_is_wal default_full_zone alloc_fuel fuel f left w
    = Val (s, f') w' ->
    caps_nonneg w'
    /\ exists written,
        0 <= written <= left
        /\ u64 (ZoneFile_fileSize f') = u64 (ZoneFile_fileSize f + written)
        /\ (s = OK -> written = left).
Proof.
  induction fuel as [|fuel IH]; intros f f' n w w' s Hc Hn H; simpl in H.
  - destruct (Z.eqb_spec n 0) as [->|]; [|discriminate].
    unfold ret in H. injection H as <- <- <-.
    split; [exact Hc|]. exists 0. rewrite Z.add_0_r. auto with zarith.
  - destruct (Z.eqb_spec n 0) as [->|Hn0].
    { unfold ret in H. injection H as <- <- <-.
      split; [exact Hc|]. exists 0. rewrite Z.add_0_r. auto with zarith. }
    destruct (ZoneFile_active_zone_ f) as [az|] eqn:Haz; [|discriminate].
    apply bind_Val_inv in H as (zn & w1 & H1 & H).
    apply getZone_Val_inv in H1 as [Hz ->].
    apply bind_Val_inv in H as ([b f1] & w1 & H1 & H).
    assert (Hf1 : caps_nonneg w1 /\ ZoneFile_fileSize f1 = ZoneFile_fileSize f).
    { destruct (Zone_capacity_ zn =? 0).
      - exact (ZoneFile_Append_next_zone_size _ _ _ _ _ _ H1 Hc).
      - unfold ret in H1. injection H1 as _ <- <-. auto. }
    destruct Hf1 as [Hc1 Hs1]. clear H1.
    destruct b; cbn [negb] in H.
    2:{ unfold ret in H. injection H as <- <- <-.
        split; [exact Hc1|]. exists 0. rewrite Z.add_0_r, Hs1. split; [lia|].
        split; [reflexivity|discriminate]. }
    destruct (ZoneFile_active_zone_ f1) as [az1|]; [|discriminate].
    apply bind_Val_inv in H as (zn1 & w2 & H2 & H).
    apply getZone_Val_inv in H2 as [Hz1 ->].
    pose proof (caps_nonneg_lookup _ _ _ Hc1 Hz1) as Hcap.
    set (wr_size := if n >? Zone_capacity_ zn1 then u32 (Zone_capacity_ zn1) else n) in *.
    assert (Hwr : 0 <= wr_size <= n).
    { unfold wr_size. destruct (Z.gtb_spec n (Zone_capacity_ zn1)) as [Hgt|_]; [|lia].
      unfold u32. rewrite Z.mod_small by lia. lia. }
    apply bind_Val_inv in H as (s1 & w3 & H3 & H).
    pose proof (caps_nonneg_Zone_Append _ _ _ _ _ H3 Hc1) as Hc3.
    destruct s1; cbn [IOStatus_ok negb] in H;
      try (unfold ret in H; injection H as <- <- <-;
           split; [exact Hc3|]; exists 0; rewrite Z.add_0_r, Hs1;
           split; [lia|]; split; [reflexivity|discriminate]).
    assert (Hu : u32 (n - wr_size) = n - wr_size)
      by (unfold u32; apply Z.mod_small; lia).
    rewrite Hu in H.
    apply IH in H as (Hc' & written & Hw & Hsz & Hok); [|exact Hc3|lia].
    split; [exact Hc'|]. exists (wr_size + written).
    split; [lia|]. split.
    + rewrite Hsz. simpl ZoneFile_fileSize. rewrite Hs1. unfold u64.
      rewrite Zplus_mod_idemp_l. f_equal. lia.
    + intros E. specialize (Hok E). lia.
Qed.

Lemma ZoneFile_Append_size (alloc_fuel fuel : nat)
        (f f' : ZoneFile) (data_size valid_size : Z) (w w' : World) :
  caps_nonneg w ->
  0 <= data_size < 2 ^ 31 ->
  ZoneFile_Append default_is_wal default_full_zone alloc_fuel fuel f
                  data_size valid_size w = Val (OK, f') w' ->
  ZoneFile_fileSize f' = u64 (ZoneFile_fileSize f + valid_size)
  /\ caps_nonneg w'.
Proof.
  unfold ZoneFile_Append. intros Hc Hd H.
  apply bind_Val_inv in H as ([b f1] & w1 & H1 & H).
  assert (Hf1 : caps_nonneg w1 /\ ZoneFile_fileSize f1 = ZoneFile_fileSize f).
  { destruct (ZoneFile_active_zone_ f).
    - unfold ret in H1. injection H1 as _ <- <-. auto.
    - exact (ZoneFile_Append_allocate_size _ _ _ _ _ _ H1 Hc). }
  destruct Hf1 as [Hc1 Hs1]. clear H1.
  destruct b; cbn [negb] in H; [|discriminate].
  apply bind_Val_inv in H as ([s f2] & w2 & H2 & H).
  assert (Hu : u32 data_size = data_size)
    by (unfold u32; apply Z.mod_small; lia).
  rewrite Hu in H2.
  apply ZoneFile_Append_loop_size in H2 as (Hc2 & written & Hw & Hsz & Hok);
    [|exact Hc1|lia].
  destruct s; cbn [IOStatus_ok negb] in H; try discriminate.
  specialize (Hok eq_refl). subst written.
  unfold ret in H. injection H as <- <-.
  split; [|exact Hc2]. simpl. unfold u64 in *.
  rewrite <- Zminus_mod_idemp_l, Hsz, Hs1, Zminus_mod_idemp_l. f_equal. lia.
Qed.

(** X21.  A [ZoneFile::Append] that returns OK has made the file larger by
    exactly [valid_size], whatever the number of zones it took, provided
    no zone has a negative capacity and [data_size] is not negative. *)
Theorem ZoneFile_Append_grows_by_valid_size (alloc_fuel fuel : nat)
        (f f' : ZoneFile) (data_size valid_size : Z) (w w' : World) :
  caps_nonneg w ->
  0 <= data_size < 2 ^ 31 ->
  ZoneFile_Append default_is_wal default_full_zone alloc_fuel fuel f
                  data_size valid_size w = Val (OK, f') w' ->
  ZoneFile_fileSize f' = u64 (ZoneFile_fileSize f + valid_size)
  /\ caps_nonneg w'.
Proof. apply ZoneFile_Append_size. Qed.

End ZoneFileAppendSize.

(** [ZoneFile_Append_grows_by_valid_size] for a new file that writes a
    block of 8192 bytes of which 8000 are valid. *)
Lemma ZoneFile_Append_grows_by_valid_size_witness :
  caps_nonneg cross_world
  /\ exists f' w',
      ZoneFile_Append false None 3 2 cross_file 8192 8000 cross_world
      = Val (OK, f') w'
      /\ ZoneFile_fileSize f' = 8000
      /\ ZoneFile_fileSize f' = u64 (ZoneFile_fileSize cross_file + 8000).
Proof.
  assert (Hc : caps_nonneg cross_world).
  { unfold caps_nonneg. vm_compute. repeat constructor; discriminate. }
  split; [exact Hc|].
  eexists _, _. split; [vm_compute; reflexivity|]. split; [reflexivity|].
  match goal with
  | |- ZoneFile_fileSize ?f' = _ =>
      refine (proj1 (ZoneFile_Append_grows_by_valid_size false None 3 2
                       cross_file f' 8192 8000 cross_world _ Hc _ _))
  end.
  - lia.
  - vm_compute. reflexivity.
Defined.

(** ** [ZonedWritableFile]: every byte is accounted for *)

Lemma to_int_small (x : Z) : 0 <= x < 2 ^ 31 -> to_int x = x.
Proof. intros H. unfold to_int. rewrite Z.mod_small by lia. lia. Qed.

Lemma u32_small (x : Z) : 0 <= x < 2 ^ 32 -> u32 x = x.
Proof. intros H. apply Z.mod_small. exact H. Qed.

Lemma u64_small (x : Z) : 0 <= x < 2 ^ 64 -> u64 x = x.
Proof. intros H. apply Z.mod_small. exact H. Qed.

Lemma u64_range (x : Z) : 0 <= u64 x < 2 ^ 64.
Proof. unfold u64. apply Z.mod_pos_bound. lia. Qed.

Section WritableFileAccounting.

Variable default_is_wal : bool.
Variable default_full_zone : option nat.
Variable alloc_fuel fuel : nat.

Lemma ZonedWritableFile_file_Append_OK (wf wf' : ZonedWritableFile)
      (data_size valid_size : Z) (w w' : World) :
  caps_nonneg w ->
  0 <= data_size < 2 ^ 31 ->
  ZonedWritableFile_file_Append default_is_wal default_full_zone alloc_fuel fuel
    wf data_size valid_size w = Val (OK, wf') w' ->
  caps_nonneg w'
  /\ exists f',
      wf' = ZonedWritableFile_set_zoneFile_ f' wf
      /\ ZoneFile_fileSize f'
         = u64 (ZoneFile_fileSize (ZonedWritableFile_zoneFile_ wf) + valid_size).
Proof.
  unfold ZonedWritableFile_file_Append. intros Hc Hd H.
  apply bind_Val_inv in H as ([s f'] & w1 & H1 & H).
  unfold ret in H. injection H as -> <- <-.
  apply ZoneFile_Append_size in H1 as [Hs Hc']; [|exact Hc|exact Hd].
  split; [exact Hc'|]. exists f'. split; [reflexivity|exact Hs].
Qed.

Lemma ZonedWritableFile_FlushBuffer_OK (wf wf' : ZonedWritableFile) (w w' : World) :
  caps_nonneg w ->
  ZonedWritableFile_ok wf ->
  ZonedWritableFile_FlushBuffer default_is_wal default_full_zone alloc_fuel fuel wf w
  = Val (OK, wf') w' ->
  caps_nonneg w'
  /\ ZonedWritableFile_ok wf'
  /\ ZonedWritableFile_buffer_pos wf' = 0
  /\ ZonedWritableFile_wp wf'
     = u64 (ZonedWritableFile_wp wf + ZonedWritableFile_buffer_pos wf)
  /\ ZonedWritableFile_buffered wf' = ZonedWritableFile_buffered wf.
Proof.
  intros Hc Hok H. pose proof Hok as (Hb & Hsz & Hlt & Hpos & Hwp & Hfs).
  unfold ZonedWritableFile_FlushBuffer in H.
  destruct (Z.eqb_spec (ZonedWritableFile_buffer_pos wf) 0) as [E|E].
  { unfold ret in H. injection H as <- <-.
    split; [exact Hc|]. split; [exact Hok|]. split; [exact E|].
    split; [|reflexivity].
    rewrite E, Z.add_0_r. symmetry. apply u64_small. exact Hwp. }
  destruct (Z.eqb_spec (ZonedWritableFile_block_sz wf) 0) as [?|_]; [lia|].
  set (bs := ZonedWritableFile_block_sz wf) in *.
  set (pos := ZonedWritableFile_buffer_pos wf) in *.
  assert (Hpad : 0 <= (if negb (pos mod bs =? 0) then u32 (bs - pos mod bs) else 0)
                 /\ pos + (if negb (pos mod bs =? 0) then u32 (bs - pos mod bs) else 0)
                    <= 256 * bs).
  { pose proof (Z.mod_pos_bound pos bs Hb) as Hm.
    pose proof (Z.div_mod pos bs ltac:(lia)) as Hdm.
    destruct (Z.eqb_spec (pos mod bs) 0) as [E0|E0]; cbn [negb]; [lia|].
    rewrite u32_small by lia. split; [lia|].
    assert (Hne : pos <> 256 * bs).
    { intros Heq. apply E0. rewrite Heq. apply Z_mod_mult. }
    assert (pos / bs < 256) by (apply Z.div_lt_upper_bound; lia).
    nia. }
  set (pad := if negb (pos mod bs =? 0) then u32 (bs - pos mod bs) else 0) in *.
  rewrite (u32_small (pos + pad)) in H by lia.
  rewrite (to_int_small (pos + pad)), (to_int_small pos) in H by lia.
  apply bind_Val_inv in H as ([s wf1] & w1 & H1 & H).
  destruct s; cbn [IOStatus_ok negb] in H; try discriminate.
  apply ZonedWritableFile_file_Append_OK in H1 as (Hc1 & f' & -> & Hf'); [|exact Hc|lia].
  unfold ret in H. injection H as <- <-.
  split; [exact Hc1|]. simpl.
  split; [|auto].
  unfold ZonedWritableFile_ok. simpl. fold bs pos.
  split; [exact Hb|]. split; [exact Hsz|]. split; [exact Hlt|].
  split; [lia|]. split; [apply u64_range|].
  rewrite Hf', Hfs. reflexivity.
Qed.

Lemma ZonedWritableFile_BufferedWrite_rest_OK (wf wf' : ZonedWritableFile)
      (data_left : Z) (w w' : World) :
  caps_nonneg w ->
  ZonedWritableFile_ok wf ->
  0 <= data_left < 2 ^ 31 ->
  ZonedWritableFile_buffer_pos wf = 0
  \/ ZonedWritableFile_buffer_pos wf = ZonedWritableFile_buffer_sz wf ->
  ZonedWritableFile_BufferedWrite_rest default_is_wal default_full_zone
    alloc_fuel fuel wf data_left w = Val (OK, wf') w' ->
  caps_nonneg w'
  /\ ZonedWritableFile_ok wf'
  /\ u64 (ZonedWritableFile_wp wf' + ZonedWritableFile_buffer_pos wf')
     = u64 (ZonedWritableFile_wp wf + ZonedWritableFile_buffer_pos wf + data_left)
  /\ ZonedWritableFile_buffered wf' = ZonedWritableFile_buffered wf.
Proof.
  intros Hc Hok Hd Hpos0 H. pose proof Hok as (Hb & Hsz & Hlt & Hpos & Hwp & Hfs).
  unfold ZonedWritableFile_BufferedWrite_rest in H.
  apply bind_Val_inv in H as ([s wf1] & w1 & H1 & H).
  destruct s; cbn [IOStatus_ok negb] in H;
    try (unfold ret in H; discriminate H).
  (* after the flush, the buffer is empty *)
  assert (H1' : caps_nonneg w1 /\ ZonedWritableFile_ok wf1
                /\ ZonedWritableFile_buffer_pos wf1 = 0
                /\ ZonedWritableFile_wp wf1
                   = u64 (ZonedWritableFile_wp wf + ZonedWritableFile_buffer_pos wf)
                /\ ZonedWritableFile_buffered wf1 = ZonedWritableFile_buffered wf).
  { destruct (Z.eqb_spec (ZonedWritableFile_buffer_pos wf)
                (ZonedWritableFile_buffer_sz wf)) as [E|E].
    - exact (ZonedWritableFile_FlushBuffer_OK _ _ _ _ Hc Hok H1).
    - unfold ret in H1. injection H1 as <- <-.
      destruct Hpos0 as [E0|E0]; [|contradiction].
      split; [exact Hc|]. split; [exact Hok|]. split; [exact E0|].
      split; [|reflexivity].
      rewrite E0, Z.add_0_r. symmetry. apply u64_small. exact Hwp. }
  clear H1. destruct H1' as (Hc1 & Hok1 & Hp1 & Hwp1 & Hbuf1).
  pose proof Hok1 as (Hb1 & Hsz1 & Hlt1 & _ & Hwpr1 & Hfs1).
  apply bind_Val_inv in H as ([[es wf2] dl] & w2 & H2 & H).
  assert (H2' : es = None /\ caps_nonneg w2 /\ ZonedWritableFile_ok wf2
                /\ ZonedWritableFile_buffer_pos wf2 = 0
                /\ 0 <= dl <= ZonedWritableFile_buffer_sz wf2
                /\ u64 (ZonedWritableFile_wp wf2 + dl)
                   = u64 (ZonedWritableFile_wp wf1 + data_left)
                /\ ZonedWritableFile_buffered wf2 = ZonedWritableFile_buffered wf1).
  { assert (Hes : es = None).
    { destruct es as [s|]; [|reflexivity]. exfalso.
      cbv iota in H. unfold ret in H.
      assert (s = OK) as -> by congruence. clear H.
      destruct (data_left >=? ZonedWritableFile_buffer_sz wf1).
      - destruct (ZonedWritableFile_block_sz wf1 =? 0); [discriminate H2|].
        apply bind_Val_inv in H2 as ([r e] & w3 & H3 & H2).
        destruct (negb (r =? 0)); [unfold ret in H2; discriminate H2|].
        apply bind_Val_inv in H2 as ([s wf3] & w4 & H4 & H2).
        destruct s; cbn [IOStatus_ok negb] in H2; unfold ret in H2; discriminate H2.
      - unfold ret in H2. discriminate H2. }
    split; [exact Hes|]. subst es.
    destruct (Z.geb_spec data_left (ZonedWritableFile_buffer_sz wf1)) as [Hge|Hlt2].
    - destruct (Z.eqb_spec (ZonedWritableFile_block_sz wf1) 0) as [?|_]; [lia|].
      set (bs := ZonedWritableFile_block_sz wf1) in *.
      pose proof (Z.mod_pos_bound data_left bs Hb1) as Hm.
      pose proof (Z.div_mod data_left bs ltac:(lia)) as Hdm.
      assert (Hq : 0 <= data_left / bs) by (apply Z.div_pos; lia).
      assert (Hqb : bs * (data_left / bs) <= data_left) by lia.
      rewrite (to_int_small (data_left / bs)) in H2 by nia.
      rewrite (u32_small (bs * (data_left / bs))) in H2 by lia.
      rewrite (to_int_small (bs * (data_left / bs))) in H2 by lia.
      apply bind_Val_inv in H2 as ([r e] & w3 & H3 & H2).
      assert (Hc3 : caps_nonneg w3).
      { revert H3 Hc1. apply caps_nonneg_keeps. apply keeps_syscall_int'. reflexivity. }
      destruct (negb (r =? 0)); [unfold ret in H2; discriminate H2|].
      apply bind_Val_inv in H2 as ([s wf3] & w4 & H4 & H2).
      destruct s; cbn [IOStatus_ok negb] in H2; try (unfold ret in H2; discriminate H2).
      apply ZonedWritableFile_file_Append_OK in H4 as (Hc4 & f' & -> & Hf');
        [|exact Hc3|lia].
      unfold ret in H2. injection H2 as <- <- <-.
      split; [exact Hc4|]. simpl. fold bs.
      rewrite (u32_small (data_left - bs * (data_left / bs))) by lia.
      split.
      { unfold ZonedWritableFile_ok. simpl. fold bs.
        split; [exact Hb1|]. split; [exact Hsz1|]. split; [exact Hlt1|].
        split; [lia|]. split; [apply u64_range|].
        rewrite Hf', Hfs1. reflexivity. }
      split; [exact Hp1|]. split; [lia|]. split; [|reflexivity].
      unfold u64. rewrite Zplus_mod_idemp_l. f_equal. lia.
    - unfold ret in H2. injection H2 as <- <- <-.
      split; [exact Hc1|]. split; [exact Hok1|]. split; [exact Hp1|].
      split; [lia|]. split; reflexivity. }
  clear H2. destruct H2' as (-> & Hc2 & Hok2 & Hp2 & Hdl & Hwp2 & Hbuf2).
  unfold ret in H. injection H as <- <-.
  split; [exact Hc2|].
  assert (Hsum : u64 (ZonedWritableFile_wp wf2 + dl)
                 = u64 (ZonedWritableFile_wp wf + ZonedWritableFile_buffer_pos wf
                        + data_left)).
  { rewrite Hwp2, Hwp1. unfold u64. rewrite Zplus_mod_idemp_l. reflexivity. }
  destruct (Z.eqb_spec dl 0) as [->|Hne]; cbn [negb].
  - split; [exact Hok2|]. rewrite Hp2. split; [exact Hsum|].
    rewrite Hbuf2. exact Hbuf1.
  - pose proof Hok2 as (Hb2 & Hsz2 & Hlt2 & _ & Hwpr2 & Hfs2).
    split; [|split; [exact Hsum|simpl; rewrite Hbuf2; exact Hbuf1]].
    unfold ZonedWritableFile_ok. simpl. auto 10.
Qed.

Lemma ZonedWritableFile_BufferedWrite_OK (wf wf' : ZonedWritableFile)
      (size : Z) (w w' : World) :
  caps_nonneg w ->
  ZonedWritableFile_ok wf ->
  0 <= size < 2 ^ 31 ->
  ZonedWritableFile_BufferedWrite default_is_wal default_full_zone
    alloc_fuel fuel wf size w = Val (OK, wf') w' ->
  caps_nonneg w'
  /\ ZonedWritableFile_ok wf'
  /\ u64 (ZonedWritableFile_wp wf' + ZonedWritableFile_buffer_pos wf')
     = u64 (ZonedWritableFile_wp wf + ZonedWritableFile_buffer_pos wf + size)
  /\ ZonedWritableFile_buffered wf' = ZonedWritableFile_buffered wf.
Proof.
  intros Hc Hok Hd H. pose proof Hok as (Hb & Hsz & Hlt & Hpos & Hwp & Hfs).
  unfold ZonedWritableFile_BufferedWrite in H.
  set (sz := ZonedWritableFile_buffer_sz wf) in *.
  set (pos := ZonedWritableFile_buffer_pos wf) in *.
  rewrite (u32_small size) in H by lia.
  rewrite (u32_small (sz - pos)) in H by lia.
  destruct (negb (pos =? 0) || (size <=? sz - pos)) eqn:Hcond.
  - destruct (Z.ltb_spec size (sz - pos)) as [Hl|Hl].
    + rewrite Z.sub_diag in H. change (u32 0 =? 0) with true in H. cbv iota in H.
      unfold ret in H. injection H as <- <-.
      rewrite (u32_small (pos + size)) by lia.
      split; [exact Hc|]. simpl. fold pos.
      split; [unfold ZonedWritableFile_ok; simpl; fold sz; auto 10 with zarith|].
      split; [f_equal; lia|reflexivity].
    + rewrite (u32_small (pos + (sz - pos))) in H by lia.
      rewrite (u32_small (size - (sz - pos))) in H by lia.
      replace (pos + (sz - pos)) with sz in H by lia.
      destruct (Z.eqb_spec (size - (sz - pos)) 0) as [E|E].
      * unfold ret in H. injection H as <- <-.
        split; [exact Hc|]. simpl.
        split; [unfold ZonedWritableFile_ok; simpl; fold sz; auto 10 with zarith|].
        split; [f_equal; lia|reflexivity].
      * apply ZonedWritableFile_BufferedWrite_rest_OK in H
          as (Hc' & Hok' & Hsum & Hbuf); try assumption.
        -- split; [exact Hc'|]. split; [exact Hok'|]. split; [|exact Hbuf].
           rewrite Hsum. simpl. f_equal. lia.
        -- unfold ZonedWritableFile_ok. simpl. fold sz. auto 10 with zarith.
        -- lia.
        -- right. reflexivity.
  - apply orb_false_elim in Hcond as [Hp0 Hgt].
    apply negb_false_iff, Z.eqb_eq in Hp0.
    apply ZonedWritableFile_BufferedWrite_rest_OK in H
      as (Hc' & Hok' & Hsum & Hbuf); try assumption.
    + split; [exact Hc'|]. split; [exact Hok'|]. split; assumption.
    + left. exact Hp0.
Qed.

(** X22.  [ZonedWritableFile::FlushBuffer].  When it returns OK the buffer
    is empty, [wp] has advanced by the number of bytes that were buffered
    and the file has grown by the same number: the padding that fills up
    the last block is written but not counted. *)
Theorem ZonedWritableFile_FlushBuffer_result (wf wf' : ZonedWritableFile)
        (w w' : World) :
  caps_nonneg w ->
  ZonedWritableFile_ok wf ->
  ZonedWritableFile_FlushBuffer default_is_wal default_full_zone alloc_fuel fuel wf w
  = Val (OK, wf') w' ->
  ZonedWritableFile_buffer_pos wf' = 0
  /\ ZonedWritableFile_wp wf'
     = u64 (ZonedWritableFile_wp wf + ZonedWritableFile_buffer_pos wf)
  /\ ZoneFile_fileSize (ZonedWritableFile_zoneFile_ wf') = ZonedWritableFile_wp wf'
  /\ ZonedWritableFile_ok wf'
  /\ caps_nonneg w'.
Proof.
  intros Hc Hok H.
  apply ZonedWritableFile_FlushBuffer_OK in H as (Hc' & Hok' & Hp & Hwp & _);
    try assumption.
  pose proof Hok' as (_ & _ & _ & _ & _ & Hfs). auto.
Qed.

(** X23.  [ZonedWritableFile::Append] accounts for every byte.  When it
    returns OK for a slice of [size] bytes, buffered or not, the bytes
    handed to the file plus the bytes in the buffer have grown by exactly
    [size]; the buffer is not filled beyond its size; and the size of the
    file is [wp], the bytes handed to it. *)
Theorem ZonedWritableFile_Append_accounts_every_byte (wf wf' : ZonedWritableFile)
        (size : Z) (w w' : World) :
  caps_nonneg w ->
  ZonedWritableFile_ok wf ->
  0 <= size < 2 ^ 31 ->
  ZonedWritableFile_Append default_is_wal default_full_zone alloc_fuel fuel wf size w
  = Val (OK, wf') w' ->
  u64 (ZonedWritableFile_wp wf' + ZonedWritableFile_buffer_pos wf')
  = u64 (ZonedWritableFile_wp wf + ZonedWritableFile_buffer_pos wf + size)
  /\ 0 <= ZonedWritableFile_buffer_pos wf' <= ZonedWritableFile_buffer_sz wf'
  /\ ZoneFile_fileSize (ZonedWritableFile_zoneFile_ wf') = ZonedWritableFile_wp wf'
  /\ ZonedWritableFile_ok wf'
  /\ caps_nonneg w'.
Proof.
  intros Hc Hok Hd H. unfold ZonedWritableFile_Append in H.
  assert (Hr : caps_nonneg w' /\ ZonedWritableFile_ok wf'
               /\ u64 (ZonedWritableFile_wp wf' + ZonedWritableFile_buffer_pos wf')
                  = u64 (ZonedWritableFile_wp wf + ZonedWritableFile_buffer_pos wf
                         + size)).
  { destruct (ZonedWritableFile_buffered wf).
    - apply ZonedWritableFile_BufferedWrite_OK in H as (Hc' & Hok' & Hsum & _);
        auto.
    - pose proof Hok as (Hb & Hsz & Hlt & Hpos & Hwp & Hfs).
      rewrite (u32_small size), (to_int_small size) in H by lia.
      apply bind_Val_inv in H as ([s wf1] & w1 & H1 & H).
      destruct s; cbn [IOStatus_ok] in H; unfold ret in H; try discriminate.
      injection H as <- <-.
      apply ZonedWritableFile_file_Append_OK in H1 as (Hc1 & f' & -> & Hf');
        [|exact Hc|lia].
      split; [exact Hc1|]. simpl.
      split.
      + unfold ZonedWritableFile_ok. simpl.
        split; [exact Hb|]. split; [exact Hsz|]. split; [exact Hlt|].
        split; [exact Hpos|]. split; [apply u64_range|].
        rewrite Hf', Hfs. reflexivity.
      + unfold u64. rewrite Zplus_mod_idemp_l. f_equal. lia. }
  destruct Hr as (Hc' & Hok' & Hsum).
  pose proof Hok' as (_ & _ & _ & Hpos' & _ & Hfs'). auto.
Qed.

End WritableFileAccounting.

Lemma buffer_world_caps (script : list SysReply) :
  caps_nonneg (set_syscalls script buffer_world).
Proof. unfold caps_nonneg. vm_compute. repeat constructor; discriminate. Qed.

Lemma buffered_file_ok (pos : Z) :
  0 <= pos <= 4096 ->
  ZonedWritableFile_ok (ZonedWritableFile_set_buffer_pos pos buffered_file).
Proof. intros H. unfold ZonedWritableFile_ok. simpl. lia. Qed.

(** [ZonedWritableFile_FlushBuffer_result] with 100 bytes in the buffer
    and blocks of 16 bytes: 112 bytes are written, 100 are counted. *)
Lemma ZonedWritableFile_FlushBuffer_result_witness :
  exists wf' w',
    ZonedWritableFile_FlushBuffer false None 3 4
      (ZonedWritableFile_set_buffer_pos 100 buffered_file)
      (set_syscalls [Ret 112] buffer_world) = Val (OK, wf') w'
    /\ (Zone_wp_ <$> zones w' !! 2%nat = Some (49152 + 112)
        /\ ZonedWritableFile_wp wf' = 100)
    /\ ZonedWritableFile_buffer_pos wf' = 0
    /\ ZoneFile_fileSize (ZonedWritableFile_zoneFile_ wf') = ZonedWritableFile_wp wf'.
Proof.
  eexists _, _. split; [vm_compute; reflexivity|].
  match goal with
  | |- (_ <$> zones ?w' !! _ = _ /\ ZonedWritableFile_wp ?wf' = _) /\ _ =>
      destruct (ZonedWritableFile_FlushBuffer_result false None 3 4
                  (ZonedWritableFile_set_buffer_pos 100 buffered_file) wf'
                  (set_syscalls [Ret 112] buffer_world) w'
                  (buffer_world_caps [Ret 112])
                  (buffered_file_ok 100 ltac:(lia)))
        as (Hp & _ & Hfs & _)
  end.
  - vm_compute. reflexivity.
  - split; [split; reflexivity|]. split; [exact Hp|exact Hfs].
Defined.

(** [ZonedWritableFile_Append_accounts_every_byte] for 4200 bytes
    appended to a buffer of 4096 that holds 4000: the buffer is filled and
    flushed, 4096 bytes go to the zone directly and 8 stay in the
    buffer. *)
Lemma ZonedWritableFile_Append_accounts_every_byte_witness :
  exists wf' w',
    ZonedWritableFile_Append false None 3 4 buffered_file 4200 buffer_world
    = Val (OK, wf') w'
    /\ (syscalls w' = []
        /\ ZonedWritableFile_wp wf' = 8192
        /\ ZonedWritableFile_buffer_pos wf' = 8)
    /\ u64 (ZonedWritableFile_wp wf' + ZonedWritableFile_buffer_pos wf')
       = u64 (ZonedWritableFile_wp buffered_file
              + ZonedWritableFile_buffer_pos buffered_file + 4200)
    /\ ZoneFile_fileSize (ZonedWritableFile_zoneFile_ wf') = ZonedWritableFile_wp wf'.
Proof.
  eexists _, _. split; [vm_compute; reflexivity|].
  match goal with
  | |- (syscalls ?w' = _ /\ ZonedWritableFile_wp ?wf' = _ /\ _) /\ _ =>
      destruct (ZonedWritableFile_Append_accounts_every_byte false None 3 4
                  buffered_file wf' 4200 buffer_world w'
                  (buffer_world_caps _)
                  (buffered_file_ok 4000 ltac:(lia)) ltac:(lia))
        as (Hsum & _ & Hfs & _)
  end.
  - vm_compute. reflexivity.
  - split; [repeat split; reflexivity|]. split; [exact Hsum|exact Hfs].
Defined.

(** ** Reading never leaves the file *)

Lemma keeps_world_ZoneFile_GetExtent_scan (es : list nat) :
  forall off, keeps (fun w : World => w) (ZoneFile_GetExtent_scan es off).
Proof.
  induction es as [|e es IH]; intros off; simpl; frame. apply IH.
Qed.

Lemma ZoneFile_GetExtent_same_world (f : ZoneFile) (off : Z) (w w' : World)
      (r : option (nat * Z)) :
  ZoneFile_GetExtent f off w = Val r w' -> w' = w.
Proof. apply (keeps_world_ZoneFile_GetExtent_scan (ZoneFile_extents_ f) off). Qed.

Lemma ZoneFile_PositionedRead_loop_within (fuel : nat) (f : ZoneFile)
      (offset r_sz : Z) :
  forall (read r_off extent_end r : Z) (w w' : World) (r' read' : Z),
    0 <= read <= r_sz ->
    r_sz < 2 ^ 64 ->
    reads_within (r_sz - read) (syscalls w) = true ->
    ZoneFile_PositionedRead_loop fuel f offset r_sz read r_off extent_end r w
    = Val (r', read') w' ->
    0 <= read' <= r_sz
    /\ zones w' = zones w /\ extents w' = extents w.
Proof.
  induction fuel as [|fuel IH]; intros read r_off ee r w w' r' read' Hr Hsz Hw H;
    simpl in H.
  - destruct (read =? r_sz); [|discriminate].
    unfold ret in H. injection H as _ <- <-. auto.
  - destruct (read =? r_sz).
    { unfold ret in H. injection H as _ <- <-. auto. }
    rewrite bind_gets in H.
    destruct (block_sz_ w =? 0); [discriminate|].
    apply bind_Val_inv in H as ([v errno] & w1 & H1 & H).
    unfold syscall_int, syscall, bind in H1.
    destruct (syscalls w) as [|[v0|e0|r0 n0 off0 cap0] rest] eqn:Hs;
      try discriminate; unfold ret in H1; injection H1 as <- <- <-.
    + (* the pread returned [v0] *)
      simpl in Hw.
      destruct (Z.leb_spec v0 0) as [Hle|Hgt].
      { replace ((v0 =? -1) && (0 =? EINTR)) with false in H
          by (rewrite andb_false_r; reflexivity).
        unfold ret in H. injection H as _ <- <-. auto. }
      simpl in Hw. apply andb_true_iff in Hw as [Hv Hw]. apply Z.leb_le in Hv.
      rewrite (u64_small (read + v0)) in H by lia.
      set (cond := negb (read + v0 =? r_sz) && (u64 (r_off + v0) =? ee)) in *.
      assert (Hw' : reads_within (r_sz - (read + v0)) (syscalls (set_syscalls rest w))
                    = true).
      { simpl. rewrite <- Hw. f_equal. lia. }
      destruct cond.
      * apply bind_Val_inv in H as (ox & w2 & H2 & H).
        apply ZoneFile_GetExtent_same_world in H2 as ->.
        destruct ox as [[e d]|].
        2:{ unfold ret in H. injection H as _ <- <-. split; [lia|]. auto. }
        apply bind_Val_inv in H as (x & w2 & H2 & H).
        unfold getExtent in H2. simpl extents in H2.
        destruct (extents w !! e) as [[x'|]|]; try discriminate.
        injection H2 as -> <-.
        apply bind_Val_inv in H as (u & w2 & H2 & H).
        apply assert_Val_inv in H2 as [_ ->].
        apply IH in H as (Hb & Hz & He); [|lia|lia|exact Hw'].
        split; [exact Hb|]. split; [exact Hz|exact He].
      * apply IH in H as (Hb & Hz & He); [|lia|lia|exact Hw'].
        split; [exact Hb|]. split; [exact Hz|exact He].
    + (* the pread failed *)
      simpl in Hw. cbn [Z.leb Z.compare] in H.
      destruct ((-1 =? -1) && (e0 =? EINTR)).
      * apply IH in H as (Hb & Hz & He); [|lia|lia|exact Hw].
        split; [exact Hb|]. split; [exact Hz|exact He].
      * unfold ret in H. injection H as _ <- <-. auto.
Qed.

Lemma ZoneFile_PositionedRead_size_bound (f : ZoneFile) (offset n : Z) :
  0 <= offset < ZoneFile_fileSize f ->
  0 <= n ->
  offset + n < 2 ^ 64 ->
  ZoneFile_fileSize f < 2 ^ 64 ->
  0 <= ZoneFile_PositionedRead_size f offset n <= n
  /\ offset + ZoneFile_PositionedRead_size f offset n <= ZoneFile_fileSize f.
Proof.
  intros Ho Hn Hon Hfs. unfold ZoneFile_PositionedRead_size.
  rewrite (u64_small (offset + n)) by lia.
  destruct (Z.gtb_spec (offset + n) (ZoneFile_fileSize f)) as [Hgt|Hle].
  - rewrite (u64_small (ZoneFile_fileSize f - offset)) by lia. lia.
  - lia.
Qed.

Lemma ZoneFile_PositionedRead_inv (f : ZoneFile) (offset n : Z) (w w' : World)
      (s : IOStatus) (size : Z) :
  0 <= offset -> 0 <= n -> offset + n < 2 ^ 64 ->
  0 <= ZoneFile_fileSize f < 2 ^ 64 ->
  reads_within (ZoneFile_PositionedRead_size f offset n) (syscalls w) = true ->
  ZoneFile_PositionedRead f offset n w = Val (s, size) w' ->
  0 <= size <= n
  /\ (size = 0 \/ offset + size <= ZoneFile_fileSize f)
  /\ (s = OK \/ (s = IOError /\ size = 0))
  /\ (ZoneFile_fileSize f <= offset -> s = OK /\ size = 0 /\ w' = w)
  /\ zones w' = zones w /\ extents w' = extents w.
Proof.
  intros Ho Hn Hon Hfs Hw H. unfold ZoneFile_PositionedRead in H.
  destruct (Z.geb_spec offset (ZoneFile_fileSize f)) as [Hge|Hlt].
  { unfold ret in H. injection H as <- <- <-.
    split; [lia|]. auto 10. }
  pose proof (ZoneFile_PositionedRead_size_bound f offset n ltac:(lia) Hn Hon
                ltac:(lia)) as [Hsz Hend].
  apply bind_Val_inv in H as (ox & w1 & H1 & H).
  apply ZoneFile_GetExtent_same_world in H1 as ->.
  destruct ox as [[e r_off]|].
  2:{ unfold ret in H. injection H as <- <- <-. split; [lia|]. split; [auto|].
      split; [auto|]. split; [lia|]. auto. }
  apply bind_Val_inv in H as (x & w1 & H1 & H).
  unfold getExtent in H1.
  destruct (extents w !! e) as [[x'|]|]; try discriminate.
  injection H1 as -> <-.
  rewrite bind_gets in H.
  apply bind_Val_inv in H as ([r read] & w1 & H1 & H).
  apply ZoneFile_PositionedRead_loop_within in H1 as (Hb & Hz & He);
    [|lia|lia|rewrite Z.sub_0_r; exact Hw].
  destruct (r <? 0); unfold ret in H; injection H as <- <- <-.
  - split; [lia|]. split; [auto|]. split; [auto|]. split; [lia|]. auto.
  - split; [lia|]. split; [right; lia|]. split; [auto|]. split; [lia|]. auto.
Qed.

(** X24.  [ZoneFile::PositionedRead] never leaves the file.  As long as no
    [pread] returns more bytes than are still wanted, the slice it returns
    has at most [n] bytes and ends at or before the end of the file; the
    status is OK, or IOError with an empty slice; at or beyond the end of
    the file the slice is empty, the status OK and the device is not
    asked; zones and extents are never changed. *)
Theorem ZoneFile_PositionedRead_within_file (f : ZoneFile) (offset n : Z)
        (w w' : World) (s : IOStatus) (size : Z) :
  0 <= offset -> 0 <= n -> offset + n < 2 ^ 64 ->
  0 <= ZoneFile_fileSize f < 2 ^ 64 ->
  reads_within (ZoneFile_PositionedRead_size f offset n) (syscalls w) = true ->
  ZoneFile_PositionedRead f offset n w = Val (s, size) w' ->
  0 <= size <= n
  /\ (size = 0 \/ offset + size <= ZoneFile_fileSize f)
  /\ (s = OK \/ (s = IOError /\ size = 0))
  /\ (ZoneFile_fileSize f <= offset -> s = OK /\ size = 0 /\ w' = w)
  /\ zones w' = zones w /\ extents w' = extents w.
Proof. apply ZoneFile_PositionedRead_inv. Qed.

(** X25.  A sequential reader stays within its file.  Under the same
    proviso, [ZonedSequentialFile::Read] from a position at or before the
    end of the file returns at most [n] bytes, moves the position forward
    by the size of the slice it returns, and leaves it at or before the
    end of the file. *)
Theorem ZonedSequentialFile_Read_stays_in_file (sf sf' : ZonedSequentialFile)
        (n : Z) (w w' : World) (s : IOStatus) (size : Z) :
  let f := ZonedSequentialFile_zoneFile_ sf in
  let rp := ZonedSequentialFile_rp sf in
  0 <= rp <= ZoneFile_fileSize f ->
  ZoneFile_fileSize f < 2 ^ 64 ->
  0 <= n -> rp + n < 2 ^ 64 ->
  reads_within (ZoneFile_PositionedRead_size f rp n) (syscalls w) = true ->
  ZonedSequentialFile_Read sf n w = Val (s, size, sf') w' ->
  0 <= size <= n
  /\ ZonedSequentialFile_rp sf' = rp + size
  /\ ZonedSequentialFile_rp sf' <= ZoneFile_fileSize f
  /\ ZonedSequentialFile_zoneFile_ sf' = f.
Proof.
  intros f rp Hrp Hfs Hn Hrn Hw H. unfold ZonedSequentialFile_Read in H.
  apply bind_Val_inv in H as ([s1 size1] & w1 & H1 & H).
  apply ZoneFile_PositionedRead_inv in H1 as (Hsz & Hend & Hst & _);
    try assumption; try (fold f rp; lia).
  fold f rp in Hend.
  destruct Hst as [->|[-> ->]]; cbn [IOStatus_ok] in H;
    unfold ret in H; injection H as <- <- <- <-.
  - split; [exact Hsz|]. simpl. fold rp f.
    rewrite u64_small by lia. split; [reflexivity|]. split; [lia|reflexivity].
  - split; [lia|]. fold rp f. split; [lia|]. split; [lia|reflexivity].
Qed.

(** [ZoneFile_PositionedRead_within_file] for 5096 bytes from the start
    of [read_file]: the read crosses from the first extent to the
    second. *)
Lemma ZoneFile_PositionedRead_within_file_witness :
  reads_within (ZoneFile_PositionedRead_size read_file 0 5096) (syscalls read_world)
  = true
  /\ exists w',
      ZoneFile_PositionedRead read_file 0 5096 read_world = Val (OK, 5096) w'
      /\ syscalls w' = []
      /\ 0 + 5096 <= ZoneFile_fileSize read_file.
Proof.
  split; [reflexivity|].
  eexists. split; [vm_compute; reflexivity|].
  match goal with
  | |- syscalls ?w' = [] /\ _ =>
      destruct (ZoneFile_PositionedRead_within_file read_file 0 5096 read_world
                  w' OK 5096 ltac:(lia) ltac:(lia) ltac:(simpl; lia)
                  ltac:(simpl; lia) eq_refl)
        as (_ & [Hz|Hend] & _)
  end.
  - vm_compute. reflexivity.
  - discriminate Hz.
  - split; [reflexivity|exact Hend].
Defined.

(** [ZonedSequentialFile_Read_stays_in_file] for a reader at 8000 asked
    for 10000 bytes of a file of 12288: it gets 4288 and is at the end. *)
Lemma ZonedSequentialFile_Read_stays_in_file_witness :
  exists sf' w',
    ZonedSequentialFile_Read read_reader 10000 (set_syscalls [Ret 4288] gc_world)
    = Val (OK, 4288, sf') w'
    /\ (syscalls w' = [] /\ ZonedSequentialFile_rp sf' = 12288)
    /\ ZonedSequentialFile_rp sf' <= ZoneFile_fileSize read_file.
Proof.
  eexists _, _. split; [vm_compute; reflexivity|].
  match goal with
  | |- (syscalls ?w' = [] /\ ZonedSequentialFile_rp ?sf' = _) /\ _ =>
      destruct (ZonedSequentialFile_Read_stays_in_file read_reader sf' 10000
                  (set_syscalls [Ret 4288] gc_world) w' OK 4288
                  ltac:(simpl; lia) ltac:(simpl; lia) ltac:(lia)
                  ltac:(simpl; lia) eq_refl)
        as (_ & _ & Hend & _)
  end.
  - vm_compute. reflexivity.
  - split; [split; reflexivity|exact Hend].
Defined.

(** ** [ResetUnusedIOZones] *)

Lemma ResetUnusedIOZones_unfold :
  ResetUnusedIOZones = (zs <- gets io_zones_ ;; forM_ zs ResetUnusedIOZones_zone).
Proof. reflexivity. Qed.

Lemma keeps_Zone_Reset {T : Type} (g : Zone -> T) (z : nat) :
  (forall zn offline cap, g (Zone_after_Reset offline cap zn) = g zn) ->
  keeps (zone_fields g) (Zone_Reset z).
Proof.
  intros Hg. unfold Zone_Reset. frame.
  apply keeps_field_modZone. intros zn.
  match goal with |- g (Zone_set_lifetime_ _ _) = _ => idtac end.
  match goal with b : bool, c : Z |- _ => exact (Hg zn b c) end.
Qed.

Lemma keeps_extents_Zone_Reset (z : nat) : keeps extents (Zone_Reset z).
Proof. unfold Zone_Reset. frame. apply keeps_extents_modZone. Qed.

Lemma keeps_active_zones_Zone_Reset (z : nat) : keeps active_zones_ (Zone_Reset z).
Proof. unfold Zone_Reset. frame. apply keeps_modZone'. reflexivity. Qed.

Lemma ResetUnusedIOZones_zone_inv (oz : option nat) (w w' : World) (u : unit) :
  ResetUnusedIOZones_zone oz w = Val u w' ->
  w' = w
  \/ exists z zn zn',
      oz = Some z
      /\ zones w !! z = Some zn
      /\ Zone_IsUsed zn = false /\ Zone_IsEmpty zn = false
      /\ zones w' = <[z := zn']> (zones w)
      /\ zone_fields Zone_used_capacity_ w' = zone_fields Zone_used_capacity_ w
      /\ open_flags w' = open_flags w
      /\ extents w' = extents w
      /\ active_zones_ w' = active_zones_ w.
Proof.
  unfold ResetUnusedIOZones_zone. intros H.
  destruct oz as [z|]; [|discriminate].
  apply bind_Val_inv in H as (zn & w1 & H1 & H).
  apply getZone_Val_inv in H1 as [Hz ->].
  destruct (Zone_IsUsed zn) eqn:Hu; cbn [negb andb] in H.
  { unfold ret in H. injection H as _ <-. left. reflexivity. }
  destruct (Zone_IsEmpty zn) eqn:He; cbn [negb] in H.
  { unfold ret in H. injection H as _ <-. left. reflexivity. }
  right. exists z, zn.
  apply bind_Val_inv in H as (u1 & w1 & H1 & H).
  assert (Hw1 : zones w1 = zones w /\ extents w1 = extents w
                /\ active_zones_ w1 = active_zones_ w).
  { destruct (negb (Zone_IsFull zn)).
    - unfold modify in H1. injection H1 as _ <-. auto.
    - unfold ret in H1. injection H1 as _ <-. auto. }
  destruct Hw1 as (Hz1 & He1 & Ha1). clear H1.
  apply bind_Val_inv in H as (s & w2 & H2 & H).
  unfold ret in H. injection H as _ <-.
  pose proof (keeps_Zone_Reset Zone_used_capacity_ z
                ltac:(intros ? [] ?; reflexivity) _ _ _ H2) as Hused.
  pose proof (keeps_Zone_Reset Zone_open_for_write_ z
                ltac:(intros ? [] ?; reflexivity) _ _ _ H2) as Hopen.
  pose proof (keeps_extents_Zone_Reset z _ _ _ H2) as Hext.
  pose proof (keeps_active_zones_Zone_Reset z _ _ _ H2) as Hact.
  apply Zone_Reset_cases in H2 as (zn1 & Hzn1 & _ & [(_ & zn' & Hzs & _)|(_ & Hzs)]).
  - exists zn'. rewrite Hz1 in Hzs.
    unfold open_flags, zone_fields in *. rewrite Hz1 in Hused, Hopen.
    repeat split; try assumption; congruence.
  - exists zn. rewrite Hz1 in Hzs.
    unfold open_flags, zone_fields in *. rewrite Hz1 in Hused, Hopen.
    split; [reflexivity|]. split; [exact Hz|]. split; [exact Hu|].
    split; [exact He|].
    split; [rewrite Hzs; symmetry; apply list_insert_id; exact Hz|].
    repeat split; try assumption; congruence.
Qed.

Lemma ResetUnusedIOZones_loop (zs : list (option nat)) (w0 : World) :
  forall (w w' : World) (u : unit),
    (forall z zn, zones w0 !! z = Some zn ->
                  Zone_IsUsed zn = true \/ Zone_IsEmpty zn = true ->
                  zones w !! z = Some zn) ->
    forM_ zs ResetUnusedIOZones_zone w = Val u w' ->
    (forall z zn, zones w0 !! z = Some zn ->
                  Zone_IsUsed zn = true \/ Zone_IsEmpty zn = true ->
                  zones w' !! z = Some zn)
    /\ zone_fields Zone_used_capacity_ w' = zone_fields Zone_used_capacity_ w
    /\ open_flags w' = open_flags w
    /\ extents w' = extents w
    /\ active_zones_ w' = active_zones_ w.
Proof.
  induction zs as [|oz zs IH]; intros w w' u Hp H; simpl in H.
  - unfold ret in H. injection H as _ <-. auto.
  - apply bind_Val_inv in H as (u1 & w1 & H1 & H).
    apply ResetUnusedIOZones_zone_inv in H1
      as [->|(z & zn & zn' & -> & Hz & Hu & He & Hzs & Hused & Hopen & Hext & Hact)].
    { exact (IH _ _ _ Hp H). }
    apply IH in H as (Hp' & Hused' & Hopen' & Hext' & Hact').
    + split; [exact Hp'|]. repeat split; congruence.
    + intros z0 zn0 Hz0 Hprot. specialize (Hp z0 zn0 Hz0 Hprot).
      rewrite Hzs.
      destruct (decide (z = z0)) as [<-|Hne].
      * rewrite Hz in Hp. injection Hp as <-.
        destruct Hprot as [Hc|Hc]; congruence.
      * rewrite list_lookup_insert_ne by exact Hne. exact Hp.
Qed.

(** X26.  [ResetUnusedIOZones] never trips the assertion of [Zone::Reset],
    whatever the device answers.  When it returns, every zone that was in
    use (live data, or open for writing) or empty is exactly as it was; the
    live data counters and [open_for_write_] of all zones, the extents and
    [active_zones_] are unchanged. *)
Theorem ResetUnusedIOZones_result (w w' : World) (u : unit) :
  ResetUnusedIOZones w <> AssertFail
  /\ (ResetUnusedIOZones w = Val u w' ->
      (forall z zn, zones w !! z = Some zn ->
                    Zone_IsUsed zn = true \/ Zone_IsEmpty zn = true ->
                    zones w' !! z = Some zn)
      /\ used_capacities w' = used_capacities w
      /\ open_flags w' = open_flags w
      /\ extents w' = extents w
      /\ active_zones_ w' = active_zones_ w).
Proof.
  split; [apply ResetUnusedIOZones_no_AssertFail|].
  rewrite ResetUnusedIOZones_unfold, bind_gets. intros H.
  apply (ResetUnusedIOZones_loop _ w) in H; [|auto].
  exact H.
Qed.

(** [ResetUnusedIOZones_result] at [unused_world]: the zone without
    live data is reset, the other two are left alone. *)
Lemma ResetUnusedIOZones_result_witness :
  exists w',
    ResetUnusedIOZones unused_world = Val tt w'
    /\ zones w' = [gc_full_zone 65536 4096; gc_empty_zone 81920;
                   mkZone 32768 8192 8192 32768 WLTH_NOT_SET 0 false false 0 0]
    /\ active_io_zones_ w' = 0
    /\ zones w' !! 0%nat = Some (gc_full_zone 65536 4096).
Proof.
  eexists. split; [vm_compute; reflexivity|].
  match goal with
  | |- zones ?w' = _ /\ _ =>
      destruct (ResetUnusedIOZones_result unused_world w' tt) as [_ Hr]
  end.
  destruct Hr as (Hp & _); [vm_compute; reflexivity|].
  split; [reflexivity|]. split; [reflexivity|].
  apply Hp; [reflexivity|]. left. reflexivity.
Defined.

(** ** The scan of the GC worker *)

Lemma lengths_sum_cons (w : World) (e : nat) (es : list nat) :
  lengths_sum w (e :: es) = extent_length w e + lengths_sum w es.
Proof. reflexivity. Qed.

Lemma lengths_sum_app (w : World) (es1 es2 : list nat) :
  lengths_sum w (es1 ++ es2) = lengths_sum w es1 + lengths_sum w es2.
Proof.
  unfold lengths_sum. rewrite map_app.
  induction (map (extent_length w) es1) as [|a l IH]; simpl; [reflexivity|].
  rewrite IH. lia.
Qed.

Lemma CheckZoneValidResidualData_extents_inv (es : list nat) :
  forall (gc gc' : ZenFSGCWorker) (w w' : World),
    CheckZoneValidResidualData_extents es gc w = Val gc' w' ->
    w' = w
    /\ ZenFSGCWorker_extent_list gc'
       = ZenFSGCWorker_extent_list gc ++ full_prefix w es
    /\ u64 (ZenFSGCWorker_total_residue_ gc')
       = u64 (ZenFSGCWorker_total_residue_ gc + lengths_sum w (full_prefix w es))
    /\ ZenFSGCWorker_dst_zone_list gc' = ZenFSGCWorker_dst_zone_list gc
    /\ ZenFSGCWorker_merge_zone_list gc' = ZenFSGCWorker_merge_zone_list gc
    /\ ZenFSGCWorker_files_moved_to_dst_zone gc'
       = ZenFSGCWorker_files_moved_to_dst_zone gc.
Proof.
  induction es as [|e es IH]; intros gc gc' w w' H; simpl in H.
  - unfold ret in H. injection H as <- <-. simpl.
    rewrite app_nil_r. unfold lengths_sum. simpl. rewrite Z.add_0_r. auto 10.
  - apply bind_Val_inv in H as (x & w1 & H1 & H).
    unfold getExtent in H1.
    destruct (extents w !! e) as [[x'|]|] eqn:He; try discriminate.
    injection H1 as -> <-.
    destruct (ZoneExtent_zone_ x) as [z|] eqn:Hxz; [|discriminate].
    apply bind_Val_inv in H as (zn & w1 & H1 & H).
    apply getZone_Val_inv in H1 as [Hz ->].
    assert (Hin : in_full_zone w e = Zone_IsFull zn).
    { unfold in_full_zone. rewrite He, Hxz, Hz. reflexivity. }
    simpl full_prefix. rewrite Hin.
    destruct (Zone_IsFull zn); cbn [negb] in H.
    + apply IH in H as (-> & Hl & Ht & Hd & Hm & Hf). simpl in *.
      split; [reflexivity|].
      split; [rewrite Hl, <- app_assoc; reflexivity|].
      split; [|auto].
      rewrite Ht, lengths_sum_cons. unfold extent_length. rewrite He.
      unfold u64. rewrite Zplus_mod_idemp_l. f_equal. lia.
    + unfold ret in H. injection H as <- <-.
      rewrite app_nil_r. unfold lengths_sum. simpl. rewrite Z.add_0_r. auto 10.
Qed.

Lemma CheckZoneValidResidualData_inv (files : list ZoneFile) :
  forall (gc gc' : ZenFSGCWorker) (w w' : World),
    CheckZoneValidResidualData files gc w = Val gc' w' ->
    let collected := flat_map (fun f => full_prefix w (ZoneFile_extents_ f)) files in
    w' = w
    /\ ZenFSGCWorker_extent_list gc' = ZenFSGCWorker_extent_list gc ++ collected
    /\ u64 (ZenFSGCWorker_total_residue_ gc')
       = u64 (ZenFSGCWorker_total_residue_ gc + lengths_sum w collected)
    /\ ZenFSGCWorker_files_moved_to_dst_zone gc'
       = ZenFSGCWorker_files_moved_to_dst_zone gc ++ files
    /\ ZenFSGCWorker_dst_zone_list gc' = ZenFSGCWorker_dst_zone_list gc
    /\ ZenFSGCWorker_merge_zone_list gc' = ZenFSGCWorker_merge_zone_list gc.
Proof.
  induction files as [|f files IH]; intros gc gc' w w' H; simpl in H.
  - unfold ret in H. injection H as <- <-. simpl.
    rewrite !app_nil_r. unfold lengths_sum. simpl. rewrite Z.add_0_r. auto 10.
  - apply bind_Val_inv in H as (gc1 & w1 & H1 & H).
    apply CheckZoneValidResidualData_extents_inv in H1 as (-> & Hl & Ht & Hd & Hm & Hf).
    apply IH in H as (-> & Hl' & Ht' & Hf' & Hd' & Hm'). simpl in *.
    split; [reflexivity|].
    split; [rewrite Hl', Hl, <- app_assoc; reflexivity|].
    split.
    { rewrite Ht', lengths_sum_app. unfold u64 in *.
      rewrite <- Zplus_mod_idemp_l, Ht, Zplus_mod_idemp_l. f_equal. lia. }
    split; [rewrite Hf', Hf, <- app_assoc; reflexivity|].
    split; congruence.
Qed.

Lemma full_prefix_in_full_zone (w : World) (es : list nat) :
  Forall (fun e => in_full_zone w e = true) (full_prefix w es).
Proof.
  induction es as [|e es IH]; simpl; [constructor|].
  destruct (in_full_zone w e) eqn:E; constructor; assumption.
Qed.

(** X27.  What the scan of the GC worker collects.
    [CheckZoneValidResidualData] changes nothing in the device state.  It
    appends to [extent_list], file by file, the extents of each file up to
    the first that is not in a full zone, and nothing else: every extent it
    collects is in a full zone, and an extent behind one in a zone that is
    not full is left out.  [total_residue_] grows by the lengths of the
    extents collected, and every file scanned is appended to
    [files_moved_to_dst_zone], whether an extent of it was collected or
    not. *)
Theorem CheckZoneValidResidualData_collects_full_prefixes (files : list ZoneFile)
        (gc gc' : ZenFSGCWorker) (w w' : World) :
  CheckZoneValidResidualData files gc w = Val gc' w' ->
  let collected := flat_map (fun f => full_prefix w (ZoneFile_extents_ f)) files in
  w' = w
  /\ ZenFSGCWorker_extent_list gc' = ZenFSGCWorker_extent_list gc ++ collected
  /\ Forall (fun e => in_full_zone w e = true) collected
  /\ u64 (ZenFSGCWorker_total_residue_ gc')
     = u64 (ZenFSGCWorker_total_residue_ gc + lengths_sum w collected)
  /\ ZenFSGCWorker_files_moved_to_dst_zone gc'
     = ZenFSGCWorker_files_moved_to_dst_zone gc ++ files
  /\ ZenFSGCWorker_dst_zone_list gc' = ZenFSGCWorker_dst_zone_list gc
  /\ ZenFSGCWorker_merge_zone_list gc' = ZenFSGCWorker_merge_zone_list gc.
Proof.
  intros H collected.
  apply CheckZoneValidResidualData_inv in H as (Hw & Hl & Ht & Hf & Hd & Hm).
  split; [exact Hw|]. split; [exact Hl|].
  split.
  { unfold collected. apply Forall_flat_map, Forall_forall.
    intros f _. apply full_prefix_in_full_zone. }
  auto.
Qed.

(** [CheckZoneValidResidualData_collects_full_prefixes] in the GC
    scenario: the extents of both files are in full zones and are
    collected. *)
Lemma CheckZoneValidResidualData_collects_full_prefixes_witness :
  exists gc',
    CheckZoneValidResidualData [gc_file_A; gc_file_B] gc_worker gc_world
    = Val gc' gc_world
    /\ (ZenFSGCWorker_extent_list gc' = [0%nat; 1%nat]
        /\ ZenFSGCWorker_total_residue_ gc' = 12288
        /\ ZenFSGCWorker_files_moved_to_dst_zone gc' = [gc_file_A; gc_file_B])
    /\ Forall (fun e => in_full_zone gc_world e = true)
         (flat_map (fun f => full_prefix gc_world (ZoneFile_extents_ f))
            [gc_file_A; gc_file_B]).
Proof.
  eexists. split; [vm_compute; reflexivity|].
  match goal with
  | |- (ZenFSGCWorker_extent_list ?gc' = _ /\ _) /\ _ =>
      destruct (CheckZoneValidResidualData_collects_full_prefixes
                  [gc_file_A; gc_file_B] gc_worker gc' gc_world gc_world)
        as (_ & _ & Hfull & _)
  end.
  - vm_compute. reflexivity.
  - split; [repeat split; reflexivity|exact Hfull].
Defined.

(** ** Relocation: what it keeps *)

Lemma insert_by_length_perm (p : nat * Z) (l : list (nat * Z)) :
  Permutation (insert_by_length p l) (p :: l).
Proof.
  induction l as [|q l IH]; simpl; [reflexivity|].
  destruct (snd q <=? snd p); [reflexivity|].
  eapply perm_trans; [apply perm_skip, IH|apply perm_swap].
Qed.

Lemma sort_by_length_perm (l : list (nat * Z)) : Permutation (sort_by_length l) l.
Proof.
  induction l as [|p l IH]; simpl; [reflexivity|].
  eapply perm_trans; [apply insert_by_length_perm|apply perm_skip, IH].
Qed.

Lemma insert_by_length_sorted (p : nat * Z) (l : list (nat * Z)) :
  StronglySorted (fun a b => snd b <= snd a) l ->
  StronglySorted (fun a b => snd b <= snd a) (insert_by_length p l).
Proof.
  induction l as [|q l IH]; intros Hs; simpl.
  - constructor; constructor.
  - inversion Hs as [|q' l' Hl Hq]; subst.
    destruct (Z.leb_spec (snd q) (snd p)) as [Hle|Hgt].
    + constructor; [exact Hs|]. constructor; [exact Hle|].
      eapply Forall_impl; [exact Hq|]. simpl. intros a Ha. lia.
    + constructor; [exact (IH Hl)|].
      apply (Permutation_Forall (Permutation_sym (insert_by_length_perm p l))).
      constructor; [lia|exact Hq].
Qed.

Lemma sort_by_length_sorted (l : list (nat * Z)) :
  StronglySorted (fun a b => snd b <= snd a) (sort_by_length l).
Proof.
  induction l as [|p l IH]; simpl; [constructor|].
  apply insert_by_length_sorted. exact IH.
Qed.

Lemma extent_lengths_inv (es : list nat) :
  forall (w w' : World) (l : list (nat * Z)),
    extent_lengths es w = Val l w' ->
    w' = w /\ l = map (fun e => (e, extent_length w e)) es.
Proof.
  induction es as [|e es IH]; intros w w' l H; simpl in H.
  - unfold ret in H. injection H as <- <-. auto.
  - apply bind_Val_inv in H as (x & w1 & H1 & H).
    unfold getExtent in H1.
    destruct (extents w !! e) as [[x'|]|] eqn:He; try discriminate.
    injection H1 as -> <-.
    apply bind_Val_inv in H as (l1 & w1 & H1 & H).
    apply IH in H1 as [-> ->].
    unfold ret in H. injection H as <- <-.
    split; [reflexivity|]. cbn [map]. f_equal.
    unfold extent_length. rewrite He. reflexivity.
Qed.

Lemma keeps_extents_ReadExtent (to_read read_pos : Z) (zone_src : option nat) :
  keeps extents (ReadExtent to_read read_pos zone_src).
Proof.
  unfold ReadExtent. frame.
  match goal with |- keeps _ (ReadExtent_loop ?n _ _) => generalize n end.
  intros fuel. generalize 0 at 1.
  induction fuel as [|fuel IH]; intros read; simpl; frame; apply IH.
Qed.

Lemma MoveValidDataToNewDestZone_loop_sizes
      (IOStatus_eq : IOStatus -> IOStatus -> bool) (fuel : nat) (dst : list nat) :
  forall (es : list nat) (zone_it : nat) (dont_read : bool) (w w' : World)
         (s : IOStatus),
    MoveValidDataToNewDestZone_loop IOStatus_eq fuel dst es zone_it dont_read w
    = Val s w' ->
    extent_sizes w' = extent_sizes w.
Proof.
  induction fuel as [|fuel IH]; intros es zone_it dont_read w w' s H;
    destruct es as [|ext rest]; simpl in H;
    try (unfold ret in H; injection H as _ <-; reflexivity);
    try discriminate.
  destruct (dst !! zone_it) as [zone_dst|]; [|discriminate].
  apply bind_Val_inv in H as (x & w1 & H1 & H).
  unfold getExtent in H1.
  destruct (extents w !! ext) as [[x'|]|] eqn:He; try discriminate.
  injection H1 as -> <-.
  apply bind_Val_inv in H as (s1 & w1 & H1 & H).
  assert (He1 : extents w1 = extents w).
  { destruct (negb dont_read).
    - exact (keeps_extents_ReadExtent _ _ _ _ _ _ H1).
    - unfold ret in H1. injection H1 as _ <-. reflexivity. }
  clear H1.
  destruct (negb (IOStatus_ok s1)).
  { unfold ret in H. injection H as _ <-. unfold extent_sizes. rewrite He1. reflexivity. }
  apply bind_Val_inv in H as (zn & w2 & H2 & H).
  apply getZone_Val_inv in H2 as [_ ->].
  apply bind_Val_inv in H as (s2 & w2 & H2 & H).
  pose proof (keeps_extents_Zone_Append _ _ _ _ _ H2) as He2. clear H2.
  destruct (IOStatus_ok s2).
  - apply bind_Val_inv in H as (u & w3 & H3 & H).
    unfold putExtent, modify in H3. injection H3 as _ <-.
    apply IH in H. rewrite H. unfold extent_sizes. simpl.
    rewrite He2, He1, list_fmap_insert. simpl.
    apply list_insert_id. rewrite list_lookup_fmap, He. reflexivity.
  - destruct (IOStatus_eq s2 NoSpace); destruct (IOStatus_eq s2 IOError);
      try (unfold ret in H; injection H as _ <-;
           unfold extent_sizes; rewrite He2, He1; reflexivity);
      apply IH in H; rewrite H; unfold extent_sizes; rewrite He2, He1; reflexivity.
Qed.

Lemma sorted_by_length_fst (w : World) (l : list (nat * Z)) :
  Forall (fun p => snd p = extent_length w (fst p)) l ->
  StronglySorted (fun a b => snd b <= snd a) l ->
  StronglySorted (fun e1 e2 => extent_length w e2 <= extent_length w e1) (map fst l).
Proof.
  intros Hall Hs. induction Hs as [|p l0 Hs IHs Hp]; simpl; [constructor|].
  inversion Hall as [|p' l' Hpe Hall']; subst.
  constructor; [exact (IHs Hall')|].
  apply Forall_map. rewrite Forall_forall in *.
  intros q Hq. simpl. rewrite <- Hpe, <- (Hall' q Hq). exact (Hp q Hq).
Qed.

Lemma sort_by_length_extents (w : World) (es : list nat) :
  let l := map (fun e => (e, extent_length w e)) es in
  Permutation (map fst (sort_by_length l)) es
  /\ StronglySorted (fun e1 e2 => extent_length w e2 <= extent_length w e1)
       (map fst (sort_by_length l)).
Proof.
  intros l. split.
  - eapply perm_trans; [apply Permutation_map, sort_by_length_perm|].
    unfold l. rewrite map_map. simpl. rewrite map_id. reflexivity.
  - apply sorted_by_length_fst; [|apply sort_by_length_sorted].
    apply (Permutation_Forall (Permutation_sym (sort_by_length_perm l))).
    unfold l. apply Forall_map. apply Forall_forall. reflexivity.
Qed.

(** X28.  What the relocation of the GC worker keeps, whatever the
    extents, the destination zones and the replies of the device.  When
    [MoveValidDataToNewDestZone] returns, the live data counter of every
    zone, source or destination, is what it was before; every extent has
    the length it had, and no extent was created or deleted; and
    [extent_list] holds the same extents as before, ordered by decreasing
    length. *)
Theorem MoveValidDataToNewDestZone_keeps_counters_and_lengths
        (IOStatus_eq : IOStatus -> IOStatus -> bool) (fuel : nat)
        (gc gc' : ZenFSGCWorker) (w w' : World) (s : IOStatus) :
  MoveValidDataToNewDestZone IOStatus_eq fuel gc w = Val (s, gc') w' ->
  used_capacities w' = used_capacities w
  /\ extent_sizes w' = extent_sizes w
  /\ Permutation (ZenFSGCWorker_extent_list gc') (ZenFSGCWorker_extent_list gc)
  /\ StronglySorted (fun e1 e2 => extent_length w e2 <= extent_length w e1)
       (ZenFSGCWorker_extent_list gc').
Proof.
  intros H.
  split; [exact (MoveValidDataToNewDestZone_keeps_used_capacity _ _ _ _ _ _ H)|].
  unfold MoveValidDataToNewDestZone in H.
  apply bind_Val_inv in H as (l & w1 & H1 & H).
  apply extent_lengths_inv in H1 as [-> ->].
  destruct (sort_by_length_extents w (ZenFSGCWorker_extent_list gc)) as [Hperm Hsort].
  cbv zeta in Hperm, Hsort.
  set (sorted := map fst (sort_by_length
                   (map (fun e => (e, extent_length w e))
                      (ZenFSGCWorker_extent_list gc)))) in *.
  simpl ZenFSGCWorker_extent_list in H. simpl ZenFSGCWorker_dst_zone_list in H.
  assert (Hgc : ZenFSGCWorker_extent_list (ZenFSGCWorker_set_extent_list sorted gc)
                = sorted) by reflexivity.
  destruct sorted as [|e0 es0] eqn:Hl; [discriminate|].
  apply bind_Val_inv in H as ([r e] & w1 & H1 & H).
  assert (Hw1 : extents w1 = extents w).
  { unfold syscall_int, syscall, bind in H1.
    destruct (syscalls w) as [|[v|v|r0 n0 off0 cap0] rest]; try discriminate;
      unfold ret in H1; injection H1 as _ _ <-; reflexivity. }
  clear H1.
  destruct (negb (r =? 0)).
  - unfold ret in H. injection H as <- <- <-.
    split; [unfold extent_sizes; rewrite Hw1; reflexivity|].
    rewrite Hgc. split; assumption.
  - apply bind_Val_inv in H as (s2 & w2 & H2 & H).
    apply MoveValidDataToNewDestZone_loop_sizes in H2.
    unfold ret in H. injection H as <- <- <-.
    split; [rewrite H2; unfold extent_sizes; rewrite Hw1; reflexivity|].
    rewrite Hgc. split; assumption.
Qed.

(** [MoveValidDataToNewDestZone_keeps_counters_and_lengths] in the GC
    scenario, after the scan: both extents are moved to zone 2, the longer
    one first. *)
Lemma MoveValidDataToNewDestZone_keeps_counters_and_lengths_witness :
  exists gc0 gc' w',
    CheckZoneValidResidualData [gc_file_A; gc_file_B] gc_worker gc_world
    = Val gc0 gc_world
    /\ MoveValidDataToNewDestZone IOStatus_same 4 gc0 gc_world = Val (OK, gc') w'
    /\ (extent_sizes w' = [Some 4096; Some 8192]
        /\ ZenFSGCWorker_extent_list gc' = [1%nat; 0%nat])
    /\ used_capacities w' = used_capacities gc_world.
Proof.
  eexists _, _, _. split; [vm_compute; reflexivity|].
  split; [vm_compute; reflexivity|].
  match goal with
  | |- (extent_sizes ?w' = _ /\ ZenFSGCWorker_extent_list ?gc' = _) /\ _ =>
      destruct (MoveValidDataToNewDestZone_keeps_counters_and_lengths IOStatus_same 4
                  (mkZenFSGCWorker [0%nat; 1%nat] [2%nat; 3%nat] [0%nat; 1%nat]
                     (<[1%nat := 8192]> (<[0%nat := 4096]> ∅)) 12288
                     [gc_file_A; gc_file_B])
                  gc' gc_world w' OK) as (Hu & _)
  end.
  - vm_compute. reflexivity.
  - split; [split; reflexivity|exact Hu].
Defined.

(** ** A new writable file *)

(** X29.  The constructor of [ZonedWritableFile] establishes the state
    that [Append] and [FlushBuffer] maintain.  On a device whose block
    size is positive and below 2^23, a writable file that was constructed
    has an empty buffer of 256 blocks, has handed no byte to its file,
    which is empty and open for writing; and constructing it changes no
    zone. *)
Theorem ZonedWritableFile_new_establishes_ok (buffered : bool) (zoneFile : ZoneFile)
        (wf : ZonedWritableFile) (w w' : World) :
  0 < block_sz_ w ->
  256 * block_sz_ w < 2 ^ 31 ->
  ZonedWritableFile_new buffered zoneFile w = Val wf w' ->
  ZonedWritableFile_ok wf
  /\ ZonedWritableFile_wp wf = 0
  /\ ZonedWritableFile_buffer_pos wf = 0
  /\ ZonedWritableFile_buffer_sz wf = 256 * block_sz_ w
  /\ ZonedWritableFile_buffered wf = buffered
  /\ ZoneFile_open_for_wr_ (ZonedWritableFile_zoneFile_ wf) = true
  /\ zones w' = zones w.
Proof.
  intros Hb Hlt H. unfold ZonedWritableFile_new in H.
  apply bind_Val_inv in H as (u & w1 & H1 & H).
  apply assert_Val_inv in H1 as [Hwp ->]. apply Z.eqb_eq in Hwp.
  rewrite bind_gets in H.
  apply bind_Val_inv in H as (u1 & w1 & H1 & H).
  assert (Hz : zones w1 = zones w).
  { destruct buffered.
    - apply bind_Val_inv in H1 as ([r e] & w2 & H2 & H1).
      apply assert_Val_inv in H1 as [_ ->].
      unfold syscall_int, syscall, bind in H2.
      destruct (syscalls w) as [|[v|v|r0 n0 off0 cap0] rest]; try discriminate;
        unfold ret in H2; injection H2 as _ _ <-; reflexivity.
    - unfold ret in H1. injection H1 as _ <-. reflexivity. }
  unfold ret in H. injection H as <- <-.
  assert (Hsz : u32 (block_sz_ w * 256) = 256 * block_sz_ w).
  { rewrite u32_small by lia. lia. }
  unfold ZonedWritableFile_ok. simpl. rewrite Hsz.
  unfold ZoneFile_GetFileSize in *. rewrite Hwp.
  repeat split; try assumption; try lia.
Qed.

(** [ZonedWritableFile_new_establishes_ok] at [buffer_world], with
    blocks of 16 bytes: the buffer has 4096 bytes. *)
Lemma ZonedWritableFile_new_establishes_ok_witness :
  exists wf w',
    ZonedWritableFile_new true cross_file (set_syscalls [Ret 0] buffer_world)
    = Val wf w'
    /\ (syscalls w' = [] /\ ZonedWritableFile_buffer_sz wf = 4096)
    /\ ZonedWritableFile_ok wf.
Proof.
  eexists _, _. split; [vm_compute; reflexivity|].
  match goal with
  | |- (syscalls ?w' = _ /\ ZonedWritableFile_buffer_sz ?wf = _) /\ _ =>
      destruct (ZonedWritableFile_new_establishes_ok true cross_file wf
                  (set_syscalls [Ret 0] buffer_world) w'
                  ltac:(simpl; lia) ltac:(simpl; lia)) as (Hok & _)
  end.
  - vm_compute. reflexivity.
  - split; [split; reflexivity|exact Hok].
Defined.

(** ** What was pushed can be found *)

Lemma lengths_sum_nonneg (w : World) (es : list nat) :
  Forall (fun e => exists x, extents w !! e = Some (Some x)
                             /\ 0 <= ZoneExtent_length_ x) es ->
  0 <= lengths_sum w es.
Proof.
  intros H. induction H as [|e es (x & He & Hx) _ IH].
  - unfold lengths_sum. simpl. lia.
  - rewrite lengths_sum_cons. unfold extent_length. rewrite He. lia.
Qed.

Lemma ZoneFile_GetExtent_scan_skip (es rest : list nat) (w : World) :
  Forall (fun e => exists x, extents w !! e = Some (Some x)
                             /\ 0 <= ZoneExtent_length_ x) es ->
  forall off,
    lengths_sum w es <= off < 2 ^ 64 ->
    ZoneFile_GetExtent_scan (es ++ rest) off w
    = ZoneFile_GetExtent_scan rest (off - lengths_sum w es) w.
Proof.
  intros Hlive.
  induction Hlive as [|e es (x & He & Hx) Hes IH]; intros off Hoff; simpl.
  - unfold lengths_sum. simpl. rewrite Z.sub_0_r. reflexivity.
  - rewrite lengths_sum_cons in *.
    assert (Hlen : extent_length w e = ZoneExtent_length_ x)
      by (unfold extent_length; rewrite He; reflexivity).
    rewrite Hlen in *.
    pose proof (lengths_sum_nonneg w es Hes) as Hrest.
    unfold bind at 1, getExtent. rewrite He.
    destruct (Z.ltb_spec off (ZoneExtent_length_ x)) as [?|_]; [lia|].
    rewrite u64_small by lia.
    rewrite IH by lia. f_equal. lia.
Qed.

Lemma lengths_sum_grown (w : World) (es : list nat) (new : list (option ZoneExtent))
      (zs : list Zone) :
  Forall (fun e => exists x, extents w !! e = Some (Some x)) es ->
  lengths_sum (set_zones zs (set_extents (extents w ++ new) w)) es
  = lengths_sum w es.
Proof.
  intros H. induction H as [|e es [x He] _ IH]; [reflexivity|].
  rewrite !lengths_sum_cons, IH. f_equal.
  unfold extent_length. simpl.
  rewrite (lookup_app_l_Some _ _ _ _ He), He. reflexivity.
Qed.

(** X30.  What was pushed can be found.  After [ZoneFile::PushExtent] has
    pushed the bytes written since the last extent, [ZoneFile::GetExtent]
    finds every one of those bytes in the new extent, at the place where
    it was written: the offset on the device is [extent_start_] plus the
    distance from [extent_filepos_]. *)
Theorem ZoneFile_PushExtent_then_GetExtent (f f' : ZoneFile) (w w' : World)
        (off : Z) :
  extents_wf w ->
  ZoneFile_extents_ok w f ->
  ZoneFile_active_zone_ f <> None ->
  ZoneFile_fileSize f - ZoneFile_extent_filepos_ f < 2 ^ 32 ->
  ZoneFile_extent_filepos_ f <= off < ZoneFile_fileSize f ->
  off < 2 ^ 64 ->
  ZoneFile_PushExtent f w = Val f' w' ->
  ZoneFile_GetExtent f' off w'
  = Val (Some (length (extents w),
               u64 (ZoneFile_extent_start_ f + (off - ZoneFile_extent_filepos_ f))))
        w'.
Proof.
  intros Hwf [Hlive Hsum] Haz Hfit Hoff Hmax H.
  apply ZoneFile_PushExtent_inv in H as [Hle [(_ & _ & [Hn|Hz])|H]].
  - contradiction.
  - rewrite u64_small in Hz by lia. lia.
  - destruct H as (az & zn & _ & _ & _ & _ & -> & ->).
    rewrite (u64_small (ZoneFile_fileSize f - ZoneFile_extent_filepos_ f)) by lia.
    rewrite (u32_small (ZoneFile_fileSize f - ZoneFile_extent_filepos_ f)) by lia.
    set (x := mkZoneExtent (ZoneFile_extent_start_ f)
                (ZoneFile_fileSize f - ZoneFile_extent_filepos_ f) (Some az)).
    set (w' := set_zones _ _).
    assert (Hlive' : Forall (fun e => exists y, extents w' !! e = Some (Some y)
                                                /\ 0 <= ZoneExtent_length_ y)
                       (ZoneFile_extents_ f)).
    { eapply Forall_impl; [exact Hlive|]. intros e [y He]. exists y.
      split; [exact (lookup_app_l_Some _ _ _ _ He)|].
      destruct (Hwf _ _ He) as [_ ?]. lia. }
    assert (Hsum' : lengths_sum w' (ZoneFile_extents_ f) = ZoneFile_extent_filepos_ f).
    { rewrite <- Hsum. apply lengths_sum_grown. exact Hlive. }
    unfold ZoneFile_GetExtent. simpl ZoneFile_extents_.
    rewrite (ZoneFile_GetExtent_scan_skip _ _ w' Hlive') by (rewrite Hsum'; lia).
    rewrite Hsum'. simpl.
    unfold bind, getExtent.
    assert (Hnew : extents w' !! length (extents w) = Some (Some x)).
    { unfold w'. simpl. rewrite lookup_app_r by lia.
      rewrite Nat.sub_diag. reflexivity. }
    rewrite Hnew. simpl.
    destruct (Z.ltb_spec (off - ZoneFile_extent_filepos_ f)
                (ZoneFile_fileSize f - ZoneFile_extent_filepos_ f)) as [_|?]; [|lia].
    reflexivity.
Qed.

(** [ZoneFile_PushExtent_then_GetExtent] at [pushed_file]: the file
    offset 5000 lies 904 bytes into the extent just pushed. *)
Lemma ZoneFile_PushExtent_then_GetExtent_witness :
  extents_wf pushed_world
  /\ ZoneFile_extents_ok pushed_world pushed_file
  /\ exists f' w',
      ZoneFile_PushExtent pushed_file pushed_world = Val f' w'
      /\ (extents w' = [Some (mkZoneExtent 32768 4096 (Some 0%nat));
                        Some (mkZoneExtent 36864 4096 (Some 0%nat))]
          /\ ZoneFile_extents_ f' = [0%nat; 1%nat])
      /\ ZoneFile_GetExtent f' 5000 w' = Val (Some (1%nat, 37768)) w'.
Proof.
  assert (Hwf : extents_wf pushed_world).
  { intros e x He. destruct e as [|e]; simpl in He; [|discriminate].
    injection He as <-. unfold ZoneExtent_wf. simpl. lia. }
  assert (Hok : ZoneFile_extents_ok pushed_world pushed_file).
  { split; [|reflexivity]. repeat constructor. eexists. reflexivity. }
  split; [exact Hwf|]. split; [exact Hok|].
  eexists _, _. split; [vm_compute; reflexivity|].
  match goal with
  | |- (extents ?w' = _ /\ ZoneFile_extents_ ?f' = _) /\ _ =>
      pose proof (ZoneFile_PushExtent_then_GetExtent pushed_file f' pushed_world w'
                    5000 Hwf Hok ltac:(discriminate) ltac:(simpl; lia)
                    ltac:(simpl; lia) ltac:(lia)) as Hfind
  end.
  split; [split; reflexivity|].
  apply Hfind. vm_compute. reflexivity.
Defined.
